(** * SupHA: the surface-field migrator [st_trans_sup_ha]

    A shallow embedding of [inst/python/trans_sup_ha.py].  The procedure is a
    straight-line script over the geoprocessing services of [arcpy]; it is
    embedded as a computation in a state-and-exception monad over a [World]
    (the catalog of feature classes, the geoprocessing environment and the two
    output streams).  The services themselves are not part of the repository:
    each one is given a reference semantics below.  Exceptions are those of
    class [Exception]; a write to an output stream is taken to succeed. *)

From stdpp Require Import gmap strings list fin_maps pretty.
From Stdlib Require Import Ascii.
From Stdlib Require QArith.


(** ** Strings: [str.lower] on ASCII letters *)

Definition ascii_lower (c : ascii) : ascii :=
  let n := nat_of_ascii c in
  if (65 <=? n) && (n <=? 90) then ascii_of_nat (n + 32) else c.

Fixpoint lower (s : string) : string :=
  match s with
  | EmptyString => EmptyString
  | String c r => String (ascii_lower c) (lower r)
  end.

(** [a.lower() == b.lower()] *)
Definition same_name (a b : string) : bool := bool_decide (lower a = lower b).

(** ** Locations

    A location is a normalised path, kept as the two parts that
    [os.path.dirname] and [os.path.basename] return. *)

Record Path := { dirname : string; basename : string }.

Definition os_path_join (d b : string) : Path := {| dirname := d; basename := b |}.
Definition path_str (p : Path) : string := dirname p +:+ "/" +:+ basename p.

#[global] Instance Path_eq_dec : EqDecision Path.
Proof. solve_decision. Defined.

#[global] Instance Path_countable : Countable Path :=
  inj_countable' (fun p => (dirname p, basename p))
                 (fun dp => {| dirname := dp.1; basename := dp.2 |})
                 (fun p => match p with Build_Path _ _ => eq_refl end).

(** ** Schema *)

(** The values of [Field.type] that [arcpy.ListFields] reports. *)
Inductive FieldType :=
  | ft_OID | ft_Geometry | ft_Double | ft_Single | ft_Integer | ft_SmallInteger
  | ft_String | ft_Date | ft_Blob | ft_Raster | ft_Guid | ft_GlobalID.

#[global] Instance FieldType_eq_dec : EqDecision FieldType.
Proof. solve_decision. Defined.

Definition type_str (t : FieldType) : string :=
  match t with
  | ft_OID => "OID" | ft_Geometry => "Geometry" | ft_Double => "Double"
  | ft_Single => "Single" | ft_Integer => "Integer"
  | ft_SmallInteger => "SmallInteger" | ft_String => "String"
  | ft_Date => "Date" | ft_Blob => "Blob" | ft_Raster => "Raster"
  | ft_Guid => "Guid" | ft_GlobalID => "GlobalID"
  end.

(** The properties of an [arcpy.Field] that the script reads. *)
Record Field := {
  field_name : string;
  field_type : FieldType;
  field_precision : Z;
  field_scale : Z;
  field_length : Z;
  field_aliasName : string;
  field_isNullable : bool;
  field_required : bool;
  field_domain : string
}.

#[global] Instance Field_eq_dec : EqDecision Field.
Proof. solve_decision. Defined.

(** [field.type in ('OID', 'Geometry')] *)
Definition is_managed (f : Field) : bool :=
  bool_decide (field_type f = ft_OID) || bool_decide (field_type f = ft_Geometry).

(** ** Attribute values *)

Inductive Value :=
  | VNull
  | VInt (n : Z)
  | VDouble (x : QArith_base.Q)
  | VText (s : string).

(** ** Exceptions *)

(** [arcpy.ExecuteError] (a failed geoprocessing tool, with the tool's error
    messages) and every other subclass of [Exception]. *)
Inductive Exn :=
  | ExecuteError (messages : string)
  | PyException (e : string).

Inductive Res (A : Type) :=
  | Ok (a : A)
  | Raise (e : Exn).
Arguments Ok {A} a.
Arguments Raise {A} e.

(** The calls to the geoprocessing services, as the fault oracle sees them. *)
Inductive Call :=
  | call_Exists (p : Path)
  | call_Describe (p : Path)
  | call_ListFields (p : Path)
  | call_CreateUniqueName (base_name workspace : string)
  | call_CreateFeatureclass (p : Path)
  | call_AddField (p : Path) (name : string)
  | call_SearchCursor (p : Path)
  | call_InsertCursor (p : Path)
  | call_insertRow (p : Path)
  | call_CalculateGeometryAttributes (p : Path)
  | call_DeleteField (p : Path) (name : string)
  | call_Delete (p : Path)
  | call_CopyFeatures (src dst : Path).


(** ** Geometry attributes

    The arguments of [CalculateGeometryAttributes] that the script passes:
    the property to compute, the unit of an area and the format of
    coordinates (a few of the tool's keywords each). *)
Inductive GeometryProperty :=
  | AREA | AREA_GEODESIC | PERIMETER_LENGTH | PERIMETER_LENGTH_GEODESIC.

Inductive AreaUnit := SQUARE_METERS | HECTARES | SQUARE_KILOMETERS.

Inductive CoordinateFormat := SAME_AS_INPUT | DD | DMS.

Definition square_metres_in (area_unit : AreaUnit) : QArith_base.Q :=
  match area_unit with
  | SQUARE_METERS => QArith_base.inject_Z 1
  | HECTARES => QArith_base.inject_Z 10000
  | SQUARE_KILOMETERS => QArith_base.inject_Z 1000000
  end.

(** Rounding to the nearest integer, a tie going to the even one. *)
Definition round_half_even (x : QArith_base.Q) : Z :=
  let n := QArith_base.Qnum x in
  let d := Z.pos (QArith_base.Qden x) in
  let q := Z.div n d in
  match Z.compare (Z.mul 2 (Z.modulo n d)) d with
  | Lt => q
  | Gt => Z.add q 1
  | Eq => if Z.even q then q else Z.add q 1
  end.

(** [round(x, scale)] *)
Definition round_to_scale (scale : Z) (x : QArith_base.Q) : QArith_base.Q :=
  let m := Z.to_pos (Z.pow 10 scale) in
  QArith_base.Qmake
    (round_half_even (QArith_base.Qmult x (QArith_base.inject_Z (Z.pos m)))) m.

(** What a field keeps of a number written to it: an integer field a whole
    number, any other field the number rounded to the scale of the field; a
    field without a declared precision and scale keeps the number as it
    is. *)
Definition stored_number (f : Field) (x : QArith_base.Q) : Value :=
  match field_type f with
  | ft_Integer | ft_SmallInteger => VInt (round_half_even x)
  | _ =>
      if bool_decide (field_precision f = 0%Z)
         && bool_decide (field_scale f = 0%Z)
      then VDouble x
      else VDouble (round_to_scale (field_scale f) x)
  end.

(** The fields every new shapefile has: the object identifier, the geometry
    and an identity-numbering field [Id]. *)
Definition FID_field : Field :=
  {| field_name := "FID"; field_type := ft_OID; field_precision := 0;
     field_scale := 0; field_length := 4; field_aliasName := "FID";
     field_isNullable := false; field_required := true; field_domain := "" |}.
Definition Shape_field : Field :=
  {| field_name := "Shape"; field_type := ft_Geometry; field_precision := 0;
     field_scale := 0; field_length := 0; field_aliasName := "Shape";
     field_isNullable := true; field_required := true; field_domain := "" |}.
Definition Id_field : Field :=
  {| field_name := "Id"; field_type := ft_Integer; field_precision := 6;
     field_scale := 0; field_length := 4; field_aliasName := "Id";
     field_isNullable := true; field_required := false; field_domain := "" |}.

Definition implicit_fields : list Field := [FID_field; Shape_field; Id_field].

(** ** Data for worked examples *)

(** No service ever fails. *)
Definition no_faults : Call -> option Exn := fun _ => None.

(** Only the copy-back of line 115 fails. *)
Definition copy_back_fails : Call -> option Exn :=
  fun c => match c with
           | call_CopyFeatures _ _ =>
               Some (ExecuteError "ERROR 000210: cannot create output")
           | _ => None
           end.

(** Only the existence check of line 21 fails. *)
Definition exists_fails : Call -> option Exn :=
  fun c => match c with
           | call_Exists _ => Some (PyException "RuntimeError: no licence")
           | _ => None
           end.

(** Only [Describe] fails. *)
Definition describe_fails : Call -> option Exn :=
  fun c => match c with
           | call_Describe _ => Some (PyException "OSError: cannot open")
           | _ => None
           end.

(** A geometry engine for geometries given by their area in square metres;
    it answers with that area, and has no other measure. *)
Definition area_model (property : GeometryProperty) (sr : string)
    (square_metres : Z) : QArith_base.Q :=
  match property with
  | AREA | AREA_GEODESIC => QArith_base.inject_Z square_metres
  | _ => QArith_base.inject_Z 0
  end.

Definition attribute_field (name : string) (type : FieldType)
    (precision scale length : Z) : Field :=
  {| field_name := name; field_type := type; field_precision := precision;
     field_scale := scale; field_length := length; field_aliasName := name;
     field_isNullable := true; field_required := false; field_domain := "" |}.


(** A shapefile as ArcGIS creates it, with the area field as text. *)
Definition malformed_schema : list Field :=
  [FID_field; Shape_field; Id_field;
   attribute_field "Nombre" ft_String 0 0 50;
   attribute_field "SUP_HA" ft_String 0 0 20;
   attribute_field "Obs" ft_String 0 0 20].

Definition well_formed_schema : list Field :=
  [FID_field; Shape_field;
   attribute_field "Nombre" ft_String 0 0 50;
   attribute_field "Sup_ha" ft_Double 8 2 0].

Definition absent_schema : list Field :=
  [FID_field; Shape_field; attribute_field "Nombre" ft_String 0 0 50].

(** The area field is numeric with precision 8 and scale 2, but a Single. *)
Definition single_schema : list Field :=
  [FID_field; Shape_field; Id_field;
   attribute_field "Nombre" ft_String 0 0 50;
   attribute_field "Sup_ha" ft_Single 8 2 0].

Definition predios : Path :=
  {| dirname := "C:/datos"; basename := "predios.shp" |}.

(** A location that no example world has. *)
Definition otra : Path :=
  {| dirname := "C:/datos"; basename := "otra.shp" |}.

Section Migrator.

(** The geometry engine is outside the repository: geometries are opaque and
    a measure of a geometry in a given coordinate system, an area in square
    metres or a length in metres, is whatever the engine says. *)
Context {Geom : Type}.
Variable measure : GeometryProperty -> string -> Geom -> QArith_base.Q.

(** The value of a geometry property in the requested unit. *)
Definition geometry_value (property : GeometryProperty) (area_unit : AreaUnit)
    (sr : string) (g : Geom) : QArith_base.Q :=
  match property with
  | AREA | AREA_GEODESIC =>
      QArith_base.Qdiv (measure property sr g) (square_metres_in area_unit)
  | _ => measure property sr g
  end.

(** The planar area of a geometry in hectares. *)
Definition area_hectares (sr : string) (g : Geom) : QArith_base.Q :=
  geometry_value AREA HECTARES sr g.

(** Any service call may fail: [faults c = Some e] makes call [c] raise [e]
    instead of running. *)
Variable faults : Call -> option Exn.

(** ** Feature classes and the world *)

Record Feature := {
  SHAPE : Geom;
  attrs : gmap string Value
}.

Record FeatureClass := {
  fc_shapeType : string;
  fc_spatialReference : string;
  fc_fields : list Field;
  fc_rows : list Feature
}.

Record World := {
  catalog : gmap Path FeatureClass;
  env_overwriteOutput : bool;
  env_outputCoordinateSystem : option string;
  env_scratchFolder : string;
  stdout : list string;
  stderr : list string
}.

Definition set_catalog (c : gmap Path FeatureClass) (w : World) : World :=
  {| catalog := c;
     env_overwriteOutput := env_overwriteOutput w;
     env_outputCoordinateSystem := env_outputCoordinateSystem w;
     env_scratchFolder := env_scratchFolder w;
     stdout := stdout w; stderr := stderr w |}.

(** ** The monad: state that survives an exception *)

Definition M (A : Type) : Type := World -> Res A * World.

Definition ret {A} (a : A) : M A := fun w => (Ok a, w).

Definition bind {A B} (c : M A) (k : A -> M B) : M B :=
  fun w => match c w with
           | (Ok a, w') => k a w'
           | (Raise e, w') => (Raise e, w')
           end.

Definition raise {A} (e : Exn) : M A := fun w => (Raise e, w).

#[global] Instance M_ret : MRet M := @ret.
#[global] Instance M_bind : MBind M := fun A B k c => bind c k.

(** [for x in l: body(x)] *)
Fixpoint for_each {A} (l : list A) (body : A -> M ()) : M () :=
  match l with
  | [] => ret ()
  | x :: r => bind (body x) (fun _ => for_each r body)
  end.

(** [try: body / except arcpy.ExecuteError: h1 / except Exception as e: h2] *)
Definition try_except {A} (body : M A)
    (on_execute_error : string -> M A) (on_exception : string -> M A) : M A :=
  fun w => match body w with
           | (Ok a, w') => (Ok a, w')
           | (Raise (ExecuteError m), w') => on_execute_error m w'
           | (Raise (PyException e), w') => on_exception e w'
           end.

Definition print (s : string) : M () :=
  fun w => (Ok (),
            {| catalog := catalog w;
               env_overwriteOutput := env_overwriteOutput w;
               env_outputCoordinateSystem := env_outputCoordinateSystem w;
               env_scratchFolder := env_scratchFolder w;
               stdout := stdout w ++ [s]; stderr := stderr w |}).

(** [print(s, file=sys.stderr)] *)
Definition print_err (s : string) : M () :=
  fun w => (Ok (),
            {| catalog := catalog w;
               env_overwriteOutput := env_overwriteOutput w;
               env_outputCoordinateSystem := env_outputCoordinateSystem w;
               env_scratchFolder := env_scratchFolder w;
               stdout := stdout w; stderr := stderr w ++ [s] |}).

(** [arcpy.env.overwriteOutput = b] *)
Definition set_overwriteOutput (b : bool) : M () :=
  fun w => (Ok (),
            {| catalog := catalog w;
               env_overwriteOutput := b;
               env_outputCoordinateSystem := env_outputCoordinateSystem w;
               env_scratchFolder := env_scratchFolder w;
               stdout := stdout w; stderr := stderr w |}).

(** [arcpy.env.outputCoordinateSystem = sr] *)
Definition set_outputCoordinateSystem (sr : string) : M () :=
  fun w => (Ok (),
            {| catalog := catalog w;
               env_overwriteOutput := env_overwriteOutput w;
               env_outputCoordinateSystem := Some sr;
               env_scratchFolder := env_scratchFolder w;
               stdout := stdout w; stderr := stderr w |}).

(** [arcpy.env.scratchFolder] *)
Definition get_scratchFolder : M string := fun w => (Ok (env_scratchFolder w), w).

(** A service call under the fault oracle. *)
Definition service {A} (c : Call) (op : M A) : M A :=
  fun w => match faults c with
           | Some e => (Raise e, w)
           | None => op w
           end.

(** ** The geoprocessing services

    [arcpy] is a collaborator outside the repository.  Its services are given
    the semantics of the ArcGIS tools on shapefile-like storage (spec, section
    6, services (a) to (j)); every service can also fail through the fault
    oracle.  A service that reads a collection is a
    [query], one that changes a collection in place is an [update_fc]; what
    each one computes is a pure function of the collection. *)

Definition query {A} (c : Call) (p : Path) (missing : Exn)
    (f : FeatureClass -> Res A) : M A :=
  service c (fun w =>
    match catalog w !! p with
    | None => (Raise missing, w)
    | Some fc => (f fc, w)
    end).

Definition update_fc (c : Call) (p : Path) (missing : Exn)
    (f : World -> FeatureClass -> Res FeatureClass) : M () :=
  service c (fun w =>
    match catalog w !! p with
    | None => (Raise missing, w)
    | Some fc =>
        match f w fc with
        | Ok fc' => (Ok (), set_catalog (<[p := fc']> (catalog w)) w)
        | Raise e => (Raise e, w)
        end
    end).

Definition does_not_exist : Exn :=
  ExecuteError "ERROR 000732: dataset does not exist or is not supported".
Definition cannot_open : Exn := PyException "RuntimeError: cannot open".

(** Modelled from the spec: service (a), the existence check for a storage
    location ([arcpy.Exists]); it answers with a boolean. *)
Definition arcpy_Exists (p : Path) : M bool :=
  service (call_Exists p) (fun w =>
    (Ok (bool_decide (is_Some (catalog w !! p))), w)).

(** Modelled from the spec: service (b), schema introspection, here the
    spatial reference ([arcpy.Describe(p).spatialReference]). *)
Definition arcpy_Describe_spatialReference (p : Path) : M string :=
  query (call_Describe p) p (PyException "OSError: does not exist")
        (fun fc => Ok (fc_spatialReference fc)).

(** Modelled from the spec: service (b), schema introspection, here the
    ordered field list ([arcpy.ListFields]). *)
Definition arcpy_ListFields (p : Path) : M (list Field) :=
  query (call_ListFields p) p (PyException "OSError: does not exist")
        (fun fc => Ok (fc_fields fc)).

(** [os.path.splitext] on a base name: the extension starts at the last dot. *)
Fixpoint splitext (s : string) : string * string :=
  match s with
  | EmptyString => ("", "")
  | String c r =>
      let (a, e) := splitext r in
      match e with
      | EmptyString =>
          if decide (c = "."%char) then ("", s) else (String c a, "")
      | _ => (String c a, e)
      end
  end.

(** The [k]-th numbered variant of a base name: [temp_output0.shp],
    [temp_output1.shp], ... *)
Definition numbered_name (base_name : string) (k : nat) : string :=
  let (a, e) := splitext base_name in a +:+ pretty k +:+ e.

Fixpoint first_free (c : gmap Path FeatureClass) (cands : list Path)
    (fallback : Path) : Path :=
  match cands with
  | [] => fallback
  | p :: r => if decide (c !! p = None) then p else first_free c r fallback
  end.

Definition unique_name (c : gmap Path FeatureClass)
    (base_name workspace : string) : Path :=
  first_free c
    (os_path_join workspace base_name ::
     ((fun k => os_path_join workspace (numbered_name base_name k))
        <$> seq 0 (S (size c))))
    (os_path_join workspace base_name).

(** Modelled from the spec: service (j), generation of a unique temporary
    location within a scratch area ([arcpy.CreateUniqueName]): the base name
    itself when it is free, else its first free numbered variant. *)
Definition arcpy_CreateUniqueName (base_name workspace : string) : M Path :=
  service (call_CreateUniqueName base_name workspace) (fun w =>
    (Ok (unique_name (catalog w) base_name workspace), w)).

Definition new_shapefile (geometry_type spatial_reference : string)
    : FeatureClass :=
  {| fc_shapeType := geometry_type;
     fc_spatialReference := spatial_reference;
     fc_fields := implicit_fields;
     fc_rows := [] |}.

(** Modelled from the spec: service (c), create-empty-collection
    ([arcpy.management.CreateFeatureclass]) of a shapefile: the new collection
    has the implicit fields and no rows; an existing output is replaced only
    under [overwriteOutput]. *)
Definition arcpy_CreateFeatureclass (out_path out_name : string)
    (geometry_type : string) (spatial_reference : string) : M () :=
  let p := os_path_join out_path out_name in
  service (call_CreateFeatureclass p) (fun w =>
    if bool_decide (is_Some (catalog w !! p)) && negb (env_overwriteOutput w)
    then (Raise (ExecuteError "ERROR 000725: output already exists"), w)
    else (Ok (),
          set_catalog
            (<[p := new_shapefile geometry_type spatial_reference]>
               (catalog w)) w)).

(** The definition [AddField] gives a new field; arguments left out take the
    tool's defaults. *)
Definition new_field (name : string) (type : FieldType)
    (precision scale length : option Z) (alias : option string)
    (is_nullable is_required : option bool) (domain : option string) : Field :=
  {| field_name := name; field_type := type;
     field_precision := default 0%Z precision;
     field_scale := default 0%Z scale;
     field_length := default 0%Z length;
     field_aliasName := default "" alias;
     field_isNullable := default true is_nullable;
     field_required := default false is_required;
     field_domain := default "" domain |}.

Definition has_field (name : string) (fs : list Field) : bool :=
  existsb (fun f => same_name (field_name f) name) fs.

Definition with_fields (fs : list Field) (fc : FeatureClass) : FeatureClass :=
  {| fc_shapeType := fc_shapeType fc;
     fc_spatialReference := fc_spatialReference fc;
     fc_fields := fs; fc_rows := fc_rows fc |}.

Definition with_rows (rs : list Feature) (fc : FeatureClass) : FeatureClass :=
  {| fc_shapeType := fc_shapeType fc;
     fc_spatialReference := fc_spatialReference fc;
     fc_fields := fc_fields fc; fc_rows := rs |}.

(** A schema with one more field at its end, unless it already has a field of
    that name (in any letter case). *)
Definition append_field (fs : list Field) (g : Field) : list Field :=
  if has_field (field_name g) fs then fs else fs ++ [g].

Definition add_field (g : Field) (fc : FeatureClass) : Res FeatureClass :=
  if is_managed g
  then Raise (ExecuteError "ERROR 000800: the value is not a valid field type")
  else Ok (with_fields (append_field (fc_fields fc) g) fc).

(** Modelled from the spec: service (d), add-field-to-schema
    ([arcpy.management.AddField]).  Every value of [Field.type] is accepted
    as the type except OID and Geometry; the field is appended to the schema;
    a name the table already has (in any letter case) adds nothing and only
    warns (WARNING 000012). *)
Definition arcpy_AddField (in_table : Path) (name : string) (type : FieldType)
    (precision scale length : option Z) (alias : option string)
    (is_nullable is_required : option bool) (domain : option string) : M () :=
  update_fc (call_AddField in_table name) in_table does_not_exist
    (fun _ => add_field (new_field name type precision scale length alias
                                   is_nullable is_required domain)).

(** The value a feature holds for a field; a field without a stored value
    reads as null. *)
Definition get_value (r : Feature) (name : string) : Value :=
  default VNull (attrs r !! name).

Definition all_in_schema (names : list string) (fc : FeatureClass) : bool :=
  forallb (fun n => bool_decide (n ∈ field_name <$> fc_fields fc)) names.

Definition read_rows (names : list string) (fc : FeatureClass)
    : Res (list (Geom * list Value)) :=
  if all_in_schema names fc
  then Ok ((fun r => (SHAPE r, get_value r <$> names)) <$> fc_rows fc)
  else Raise (PyException "RuntimeError: cannot find field").

(** Modelled from the spec: service (f), streaming row read by field-name
    projection ([arcpy.da.SearchCursor(p, ['SHAPE@'] + names)]): one tuple per
    feature, in feature order, the geometry first. *)
Definition arcpy_da_SearchCursor (p : Path) (names : list string)
    : M (list (Geom * list Value)) :=
  query (call_SearchCursor p) p cannot_open (read_rows names).

(** Modelled from the spec: service (f), streaming row insert, opening the
    cursor ([arcpy.da.InsertCursor(p, ['SHAPE@'] + names)]). *)
Definition arcpy_da_InsertCursor (p : Path) (names : list string) : M () :=
  query (call_InsertCursor p) p cannot_open
    (fun fc => if all_in_schema names fc then Ok ()
               else Raise (PyException "RuntimeError: cannot find field")).

Definition new_feature (names : list string) (row : Geom * list Value)
    : Feature :=
  {| SHAPE := row.1; attrs := list_to_map (zip names row.2) |}.

Definition insert_row (names : list string) (row : Geom * list Value)
    (fc : FeatureClass) : Res FeatureClass :=
  if bool_decide (length row.2 = length names)
  then Ok (with_rows (fc_rows fc ++ [new_feature names row]) fc)
  else Raise (PyException "TypeError: sequence size must match field count").

(** Modelled from the spec: service (f), streaming row insert
    ([i_cursor.insertRow(row)]): the feature is appended with the given
    geometry and the given values for the cursor's fields. *)
Definition insertRow (p : Path) (names : list string)
    (row : Geom * list Value) : M () :=
  update_fc (call_insertRow p) p cannot_open (fun _ => insert_row names row).

(** One feature's geometry attribute: the value of the property for its own
    geometry, as the field keeps it. *)
Definition calc_geometry (property : GeometryProperty) (area_unit : AreaUnit)
    (sr : string) (f : Field) (r : Feature) : Feature :=
  {| SHAPE := SHAPE r;
     attrs := <[field_name f :=
                  stored_number f
                    (geometry_value property area_unit sr (SHAPE r))]>
                (attrs r) |}.

Definition calculate_geometry (property : GeometryProperty)
    (area_unit : AreaUnit) (sr : string) (field : string)
    (fc : FeatureClass) : Res FeatureClass :=
  match List.find (fun f => same_name (field_name f) field) (fc_fields fc) with
  | Some f =>
      if is_managed f
      then Raise (ExecuteError "ERROR 000308: invalid field type")
      else Ok (with_rows
                 (calc_geometry property area_unit sr f <$> fc_rows fc) fc)
  | None =>
      let added :=
        new_field field ft_Double None None None None None None None in
      Ok (with_rows (calc_geometry property area_unit sr added <$> fc_rows fc)
            (with_fields (fc_fields fc ++ [added]) fc))
  end.

(** Modelled from the spec: service (g), in-place geometry-derived attribute
    computation ([arcpy.management.CalculateGeometryAttributes]) for one pair
    [[field, property]] of [geometry_property].  The field is looked up in
    any letter case; a field the table lacks is first added as a new Double
    field with the default definition; the geometry is measured in the
    environment's output coordinate system when one is set, else in the
    collection's own; [coordinate_format] bears on coordinate properties
    only. *)
Definition arcpy_CalculateGeometryAttributes (in_features : Path)
    (geometry_property : string * GeometryProperty) (area_unit : AreaUnit)
    (coordinate_format : CoordinateFormat) : M () :=
  update_fc (call_CalculateGeometryAttributes in_features) in_features
    does_not_exist
    (fun w fc =>
       calculate_geometry geometry_property.2 area_unit
         (default (fc_spatialReference fc) (env_outputCoordinateSystem w))
         geometry_property.1 fc).

(** The computation that the script asks for: [[field, 'AREA']] in
    hectares. *)
Definition calc_area (sr : string) (f : Field) (r : Feature) : Feature :=
  calc_geometry AREA HECTARES sr f r.

Definition calculate_area (sr : string) (field : string) (fc : FeatureClass)
    : Res FeatureClass :=
  calculate_geometry AREA HECTARES sr field fc.

(** A feature without the values stored under a field name (in any letter
    case). *)
Definition drop_value (name : string) (r : Feature) : Feature :=
  {| SHAPE := SHAPE r;
     attrs := filter (fun kv => same_name kv.1 name = false) (attrs r) |}.

Definition delete_field (drop_field : string) (fc : FeatureClass)
    : Res FeatureClass :=
  match List.find (fun f => same_name (field_name f) drop_field)
                  (fc_fields fc) with
  | None => Raise (ExecuteError "ERROR 000728: field does not exist")
  | Some f =>
      if is_managed f
      then Raise (ExecuteError "ERROR 001334: cannot delete required field")
      else Ok (with_rows (drop_value drop_field <$> fc_rows fc)
                 (with_fields
                    (List.filter
                       (fun g => negb (same_name (field_name g) drop_field))
                       (fc_fields fc)) fc))
  end.

(** Modelled from the spec: service (e), delete-field-from-schema
    ([arcpy.management.DeleteField]); the field is looked up in any letter
    case, and a missing or collection-managed field is an error. *)
Definition arcpy_DeleteField (in_table : Path) (drop_field : string) : M () :=
  update_fc (call_DeleteField in_table drop_field) in_table does_not_exist
    (fun _ => delete_field drop_field).

(** Modelled from the spec: service (h), delete-collection
    ([arcpy.management.Delete]). *)
Definition arcpy_Delete (in_data : Path) : M () :=
  service (call_Delete in_data) (fun w =>
    match catalog w !! in_data with
    | None => (Raise does_not_exist, w)
    | Some _ => (Ok (), set_catalog (delete in_data (catalog w)) w)
    end).

(** Modelled from the spec: service (i), copy-collection, full schema and
    data duplication to a new location ([arcpy.management.CopyFeatures]); an
    existing output is replaced only under [overwriteOutput]. *)
Definition arcpy_CopyFeatures (in_features out_feature_class : Path) : M () :=
  service (call_CopyFeatures in_features out_feature_class) (fun w =>
    match catalog w !! in_features with
    | None => (Raise does_not_exist, w)
    | Some fc =>
        if bool_decide (is_Some (catalog w !! out_feature_class))
           && negb (env_overwriteOutput w)
        then (Raise (ExecuteError "ERROR 000725: output already exists"), w)
        else (Ok (), set_catalog (<[out_feature_class := fc]> (catalog w)) w)
    end).

(** ** The script: [st_trans_sup_ha] *)

(** Lines 76 to 82, the body of the loop over [original_fields]. *)
Definition transfer_field (temp_shapefile : Path) (campo_superficie : string)
    (precision escala : Z) (field : Field) : M () :=
  if negb (is_managed field)
     && negb (same_name (field_name field) campo_superficie)
  then arcpy_AddField temp_shapefile (field_name field) (field_type field)
         (Some (field_precision field)) (Some (field_scale field))
         (Some (field_length field)) (Some (field_aliasName field))
         (Some (field_isNullable field)) (Some (field_required field))
         (Some (field_domain field))
  else if same_name (field_name field) campo_superficie
  then arcpy_AddField temp_shapefile campo_superficie ft_Double
         (Some precision) (Some escala) None None None None None
  else mret ().

(** Line 93. *)
Definition fields_to_copy (campo_superficie : string)
    (original_fields : list Field) (temp_fields : list string) : list string :=
  field_name <$>
    List.filter (fun f => bool_decide (field_name f ∈ temp_fields)
                          && negb (same_name (field_name f) campo_superficie))
                original_fields.

(** Lines 64 to 108: the temporary collection is created, given the fields,
    filled with the rows and has its areas computed. *)
Definition build_temp (shapefile_path : Path) (campo_superficie : string)
    (precision escala : Z) (spatial_ref : string)
    (original_fields : list Field) : M Path :=
  scratch ← get_scratchFolder;
  temp_shapefile ← arcpy_CreateUniqueName "temp_output.shp" scratch;
  print ("Creando capa temporal en: " +:+ path_str temp_shapefile);;
  arcpy_CreateFeatureclass (dirname temp_shapefile) (basename temp_shapefile)
    "POLYGON" spatial_ref;;
  for_each original_fields
    (transfer_field temp_shapefile campo_superficie precision escala);;
  print "Copiando datos a la capa temporal...";;
  listed ← arcpy_ListFields temp_shapefile;
  let temp_fields :=
    field_name <$> List.filter (fun f => negb (is_managed f)) listed in
  let original_fields_to_copy :=
    fields_to_copy campo_superficie original_fields temp_fields in
  s_cursor ← arcpy_da_SearchCursor shapefile_path original_fields_to_copy;
  arcpy_da_InsertCursor temp_shapefile original_fields_to_copy;;
  for_each s_cursor (insertRow temp_shapefile original_fields_to_copy);;
  print ("Calculando la superficie en el campo '" +:+ campo_superficie
         +:+ "'...");;
  arcpy_CalculateGeometryAttributes temp_shapefile (campo_superficie, AREA)
    HECTARES SAME_AS_INPUT;;
  mret temp_shapefile.

(** Lines 111 to 119: the original is replaced by the temporary collection. *)
Definition replace_original (shapefile_path temp_shapefile : Path) : M bool :=
  print "Reemplazando el archivo original con la versión procesada...";;
  arcpy_DeleteField temp_shapefile "Id";;
  arcpy_Delete shapefile_path;;
  arcpy_CopyFeatures temp_shapefile shapefile_path;;
  arcpy_Delete temp_shapefile;;
  print "Proceso completado. El orden de los campos ha sido preservado.";;
  mret true.

(** Lines 62 to 119, the slow path. *)
Definition recreate (shapefile_path : Path) (campo_superficie : string)
    (precision escala : Z) (spatial_ref : string)
    (original_fields : list Field) : M bool :=
  temp_shapefile ← build_temp shapefile_path campo_superficie precision escala
                              spatial_ref original_fields;
  replace_original shapefile_path temp_shapefile.

(** Lines 44 to 46. *)
Definition well_formed (field_obj : Field) (precision escala : Z) : bool :=
  bool_decide (field_type field_obj = ft_Double)
  && bool_decide (field_precision field_obj = precision)
  && bool_decide (field_scale field_obj = escala).

(** Lines 47 to 57, the fast path. *)
Definition recalculate (shapefile_path : Path) (campo_superficie : string)
    : M bool :=
  print "El campo ya tiene el formato correcto. Se procederá a recalcular su valor.";;
  arcpy_CalculateGeometryAttributes shapefile_path (campo_superficie, AREA)
    HECTARES SAME_AS_INPUT;;
  print "Superficie calculada y campo actualizado exitosamente.";;
  mret true.

(** Lines 28 to 119, the body of the [try]. *)
Definition st_trans_sup_ha_try (shapefile_path : Path)
    (campo_superficie : string) (precision escala : Z) : M bool :=
  set_overwriteOutput true;;
  spatial_ref ← arcpy_Describe_spatialReference shapefile_path;
  set_outputCoordinateSystem spatial_ref;;
  original_fields ← arcpy_ListFields shapefile_path;
  let field_obj :=
    List.find (fun f => same_name (field_name f) campo_superficie)
              original_fields in
  match field_obj with
  | Some field_obj =>
      print ("Campo '" +:+ campo_superficie
             +:+ "' detectado. Verificando propiedades...");;
      if well_formed field_obj precision escala
      then recalculate shapefile_path campo_superficie
      else
        print ("El formato del campo es incorrecto (Tipo: "
               +:+ type_str (field_type field_obj) +:+ ", Precisión: "
               +:+ pretty (field_precision field_obj) +:+ ").");;
        print "Se recreará la capa para preservar el orden de los campos.";;
        recreate shapefile_path campo_superficie precision escala spatial_ref
                 original_fields
  | None =>
      recreate shapefile_path campo_superficie precision escala spatial_ref
               original_fields
  end.

Definition st_trans_sup_ha (shapefile_path : Path) (campo_superficie : string)
    (precision escala : Z) : M bool :=
  found ← arcpy_Exists shapefile_path;
  if negb found then
    print_err ("Error: El archivo no existe en la ruta especificada: "
               +:+ path_str shapefile_path);;
    mret false
  else
    print ("Iniciando procesamiento para: " +:+ basename shapefile_path);;
    try_except
      (st_trans_sup_ha_try shapefile_path campo_superficie precision escala)
      (fun messages =>
         print_err (String "010" "Error de ArcPy:");;
         print_err messages;; mret false)
      (fun e =>
         print_err (String "010" "Ocurrió un error inesperado: " +:+ e);;
         mret false).


(** ** What the script computes, as pure functions of the collection *)

Definition env_of (w : World) : bool * option string * string :=
  (env_overwriteOutput w, env_outputCoordinateSystem w, env_scratchFolder w).

(** The replacement target field of line 82. *)
Definition target_field (campo_superficie : string) (precision escala : Z)
    : Field :=
  new_field campo_superficie ft_Double (Some precision) (Some escala)
            None None None None None.

(** One turn of the loop of lines 76 to 82 on the temporary schema. *)
Definition transfer_step (campo_superficie : string) (precision escala : Z)
    (fs : list Field) (field : Field) : list Field :=
  if negb (is_managed field)
     && negb (same_name (field_name field) campo_superficie)
  then append_field fs field
  else if same_name (field_name field) campo_superficie
  then append_field fs (target_field campo_superficie precision escala)
  else fs.

Definition temp_schema (campo_superficie : string) (precision escala : Z)
    (original_fields : list Field) : list Field :=
  foldl (transfer_step campo_superficie precision escala) implicit_fields
        original_fields.

(** Lines 91 and 93 on the temporary schema. *)
Definition copy_names (campo_superficie : string) (precision escala : Z)
    (original_fields : list Field) : list string :=
  fields_to_copy campo_superficie original_fields
    (field_name <$>
       List.filter (fun f => negb (is_managed f))
                   (temp_schema campo_superficie precision escala
                                original_fields)).

Definition copy_feature (names : list string) (r : Feature) : Feature :=
  new_feature names (SHAPE r, get_value r <$> names).

(** The temporary collection after the copy of lines 96 to 99. *)
Definition filled_temp (campo_superficie : string) (precision escala : Z)
    (spatial_ref : string) (original_fields : list Field)
    (rows : list Feature) : FeatureClass :=
  {| fc_shapeType := "POLYGON";
     fc_spatialReference := spatial_ref;
     fc_fields := temp_schema campo_superficie precision escala
                              original_fields;
     fc_rows := copy_feature (copy_names campo_superficie precision escala
                                         original_fields) <$> rows |}.

(** The collection that the slow path installs at the original location. *)
Definition migrated (campo_superficie : string) (precision escala : Z)
    (spatial_ref : string) (fc : FeatureClass) : Res FeatureClass :=
  match calculate_area spatial_ref campo_superficie
          (filled_temp campo_superficie precision escala spatial_ref
                       (fc_fields fc) (fc_rows fc)) with
  | Ok t => delete_field "Id" t
  | Raise e => Raise e
  end.

(** The schema invariant of a stored collection: names are unique whatever
    the letter case, and an attribute field does not take the name of one of
    the two collection-managed fields. *)
Definition lname (f : Field) : string := lower (field_name f).

Definition wf_schema (fs : list Field) : Prop :=
  NoDup (lname <$> fs)
  /\ Forall (fun f => is_managed f = false -> lname f ∉ ["fid"; "shape"]) fs.

#[global] Instance wf_schema_dec fs : Decision (wf_schema fs).
Proof. unfold wf_schema. apply _. Defined.

(** What becomes of an original field in the migrated schema. *)
Definition rebuild (campo_superficie : string) (precision escala : Z)
    (f : Field) : option Field :=
  if same_name (field_name f) campo_superficie
  then Some (target_field campo_superficie precision escala)
  else if is_managed f || same_name (field_name f) "Id" then None
  else Some f.

(** A collection without a field: [DeleteField] when it succeeds. *)
Definition without_field (name : string) (fc : FeatureClass) : FeatureClass :=
  with_rows (drop_value name <$> fc_rows fc)
    (with_fields
       (List.filter (fun g => negb (same_name (field_name g) name))
                    (fc_fields fc)) fc).

(** The original attribute fields that the migration keeps. *)
Definition survives (f : Field) : bool :=
  negb (is_managed f) && negb (same_name (field_name f) "Id").

(** The slow path is taken when the target field is missing or malformed. *)
Definition takes_slow_path (campo_superficie : string) (precision escala : Z)
    (original_fields : list Field) : Prop :=
  match List.find (fun f => same_name (field_name f) campo_superficie)
                  original_fields with
  | Some field_obj => well_formed field_obj precision escala = false
  | None => True
  end.

(** How the replacement of lines 111 to 119 can end, seen from the catalog. *)
Inductive swap_outcome (path temp : Path) (c : gmap Path FeatureClass)
    (res : FeatureClass) : Res bool -> gmap Path FeatureClass -> Prop :=
  | swap_done :
      faults (call_CopyFeatures temp path) = None ->
      faults (call_Delete temp) = None ->
      swap_outcome path temp c res (Ok true) (<[path := res]> (delete temp c))
  | swap_copy_failed e :
      faults (call_CopyFeatures temp path) = Some e ->
      swap_outcome path temp c res (Raise e)
                   (delete path (<[temp := res]> c))
  | swap_cleanup_failed e :
      faults (call_CopyFeatures temp path) = None ->
      faults (call_Delete temp) = Some e ->
      swap_outcome path temp c res (Raise e)
                   (<[path := res]> (<[temp := res]> c)).

(** ** Collections for worked examples *)

Definition example_feature (g : Geom) (values : list (string * Value))
    : Feature :=
  {| SHAPE := g; attrs := list_to_map values |}.

Definition example_collection (fields : list Field) (rows : list Feature)
    : FeatureClass :=
  {| fc_shapeType := "POLYGON"; fc_spatialReference := "EPSG:32719";
     fc_fields := fields; fc_rows := rows |}.

(** A world whose only collection is [predios]. *)
Definition example_world (fc : FeatureClass) : World :=
  {| catalog := {[ predios := fc ]};
     env_overwriteOutput := false;
     env_outputCoordinateSystem := None;
     env_scratchFolder := "C:/scratch";
     stdout := []; stderr := [] |}.

(** A shapefile as ArcGIS creates it, with the area field as text, spelled
    in capitals. *)
Definition malformed_collection (g1 g2 : Geom) : FeatureClass :=
  example_collection malformed_schema
    [example_feature g1 [("Id", VInt 7); ("Nombre", VText "norte");
                         ("SUP_HA", VText "2,5")];
     example_feature g2 [("Id", VInt 8); ("Nombre", VText "sur");
                         ("SUP_HA", VText "4")]].

(** The area field is already a Double of precision 8 and scale 2. *)
Definition well_formed_collection (g1 g2 : Geom) : FeatureClass :=
  example_collection well_formed_schema
    [example_feature g1 [("Nombre", VText "norte")];
     example_feature g2 [("Nombre", VText "sur")]].

(** The area field is a Single of precision 8 and scale 2. *)
Definition single_collection (g1 g2 : Geom) : FeatureClass :=
  example_collection single_schema
    [example_feature g1 [("Id", VInt 7); ("Nombre", VText "norte")];
     example_feature g2 [("Id", VInt 8); ("Nombre", VText "sur")]].

(** The collection has no area field. *)
Definition absent_collection (g1 g2 : Geom) : FeatureClass :=
  example_collection absent_schema
    [example_feature g1 [("Nombre", VText "norte")];
     example_feature g2 [("Nombre", VText "sur")]].

(** ** Invariants of a run *)

(** A relation between the world before and the world after that holds on
    every outcome of a computation, be it a result or an exception. *)
Definition keeps {A} (P : World -> World -> Prop) (m : M A) : Prop :=
  forall w r w', m w = (r, w') -> P w w'.

(** Nothing was written to the standard error. *)
Definition same_stderr (w w' : World) : Prop := stderr w' = stderr w.

(** The geoprocessing environment is as it was. *)
Definition same_env (w w' : World) : Prop := env_of w' = env_of w.

(** The catalog is as it was, but for two locations. *)
Definition same_outside (p q : Path) (w w' : World) : Prop :=
  forall x, x ≠ p -> x ≠ q -> catalog w' !! x = catalog w !! x.

#[global] Instance same_stderr_preorder : PreOrder same_stderr.
Proof.
  split; [by intros w|]. intros w1 w2 w3 H1 H2. unfold same_stderr in *.
  congruence.
Qed.

#[global] Instance same_env_preorder : PreOrder same_env.
Proof.
  split; [by intros w|]. intros w1 w2 w3 H1 H2. unfold same_env in *.
  congruence.
Qed.

#[global] Instance same_outside_preorder p q : PreOrder (same_outside p q).
Proof.
  split; [by intros w|]. intros w1 w2 w3 H1 H2 x Hp Hq.
  rewrite H2, H1; done.
Qed.

(** A collection that is there stays there. *)
Definition still_there (q : Path) (w w' : World) : Prop :=
  is_Some (catalog w !! q) -> is_Some (catalog w' !! q).

#[global] Instance still_there_preorder q : PreOrder (still_there q).
Proof.
  split; [intros w H; exact H|]. intros w1 w2 w3 H1 H2 H. by apply H2, H1.
Qed.

(** ** Running the monad *)

(** [calculate_area] by cases on the field, in terms of [calc_area]. *)
Tactic Notation "unfold_calculate_area" "in" hyp(H) :=
  unfold calculate_area, calculate_geometry in H; cbv zeta in H;
  change (calc_geometry AREA HECTARES) with calc_area in H.

Tactic Notation "unfold_calculate_area" :=
  unfold calculate_area, calculate_geometry; cbv zeta;
  change (calc_geometry AREA HECTARES) with calc_area.

Lemma bind_run {A B} (c : M A) (k : A -> M B) w r w' :
  (c ≫= k) w = (r, w') ->
  (exists a w1, c w = (Ok a, w1) /\ k a w1 = (r, w'))
  \/ (exists e, c w = (Raise e, w') /\ r = Raise e).
Proof.
  unfold mbind, M_bind, bind. destruct (c w) as [[a|e] w1]; intros H.
  - left. eauto.
  - right. inversion H; subst. eauto.
Qed.

Lemma bind_ok {A B} (c : M A) (k : A -> M B) w b w' :
  (c ≫= k) w = (Ok b, w') ->
  exists a w1, c w = (Ok a, w1) /\ k a w1 = (Ok b, w').
Proof.
  intros H. apply bind_run in H as [H|(e & _ & H)]; [done|discriminate].
Qed.

Lemma service_run {A} c (op : M A) w r w' :
  service c op w = (r, w') ->
  (exists e, faults c = Some e /\ r = Raise e /\ w' = w)
  \/ (faults c = None /\ op w = (r, w')).
Proof.
  unfold service. destruct (faults c) as [e|]; intros H.
  - left. inversion H; subst. eauto.
  - right. eauto.
Qed.

Lemma query_run {A} c p miss (f : FeatureClass -> Res A) w r w' :
  query c p miss f w = (r, w') ->
  w' = w /\
  forall a, r = Ok a ->
    faults c = None /\ exists fc, catalog w !! p = Some fc /\ f fc = Ok a.
Proof.
  unfold query. intros H.
  apply service_run in H as [(e & He & -> & ->)|[Hf H]]; [done|].
  destruct (catalog w !! p) as [fc|] eqn:Hp; inversion H; subst.
  - split; [done|]. intros a Ha. eauto.
  - done.
Qed.

Lemma update_fc_run c p miss f w r w' :
  update_fc c p miss f w = (r, w') ->
  match r with
  | Ok _ =>
      faults c = None /\ env_of w' = env_of w /\
      exists fc fc', catalog w !! p = Some fc /\ f w fc = Ok fc'
                     /\ catalog w' = <[p := fc']> (catalog w)
  | Raise _ => w' = w
  end.
Proof.
  unfold update_fc. intros H.
  apply service_run in H as [(e & He & -> & ->)|[Hf H]]; [done|].
  destruct (catalog w !! p) as [fc|] eqn:Hp; [|by inversion H].
  destruct (f w fc) as [fc'|e] eqn:Hfc; inversion H; subst; [|done].
  repeat split; eauto.
Qed.

Lemma with_fields_id (fc : FeatureClass) : with_fields (fc_fields fc) fc = fc.
Proof. by destruct fc. Qed.

Lemma with_rows_id (fc : FeatureClass) : with_rows (fc_rows fc) fc = fc.
Proof. by destruct fc. Qed.

Lemma new_field_id (f : Field) :
  new_field (field_name f) (field_type f) (Some (field_precision f))
    (Some (field_scale f)) (Some (field_length f)) (Some (field_aliasName f))
    (Some (field_isNullable f)) (Some (field_required f))
    (Some (field_domain f)) = f.
Proof. by destruct f. Qed.

(** ** The temporary location is fresh *)

Lemma string_length_app (a b : string) :
  String.length (a +:+ b) = String.length a + String.length b.
Proof. induction a as [|c a IH]; simpl; [done|]. by rewrite IH. Qed.

Lemma string_app_inj_r (e a b : string) : a +:+ e = b +:+ e -> a = b.
Proof.
  revert b. induction a as [|c a IH]; intros [|d b] H.
  - done.
  - apply (f_equal String.length) in H.
    rewrite !string_length_app in H. simpl in H. lia.
  - apply (f_equal String.length) in H.
    rewrite !string_length_app in H. simpl in H. lia.
  - injection H as Hc H. subst d. f_equal. by apply IH.
Qed.

Lemma numbered_name_inj base : Inj (=) (=) (numbered_name base).
Proof.
  intros j k. unfold numbered_name. destruct (splitext base) as [a e].
  intros H. apply (inj (String.app a)) in H.
  apply string_app_inj_r in H. by apply (inj pretty) in H.
Qed.

Lemma first_free_fresh (c : gmap Path FeatureClass) cands fb :
  Exists (fun p => c !! p = None) cands -> c !! first_free c cands fb = None.
Proof.
  induction cands as [|p r IH]; intros H; simpl.
  - by apply Exists_nil in H.
  - destruct (decide (c !! p = None)) as [Hp|Hp]; [done|].
    apply IH. apply Exists_cons in H as [H|H]; done.
Qed.

Lemma unique_name_fresh (c : gmap Path FeatureClass) base ws :
  c !! unique_name c base ws = None.
Proof.
  unfold unique_name. apply first_free_fresh. apply Exists_cons. right.
  set (name := fun k => os_path_join ws (numbered_name base k)).
  destruct (decide (Exists (fun p => c !! p = None)
                           (name <$> seq 0 (S (size c))))) as [H|H]; [done|].
  exfalso. apply not_Exists_Forall in H; [|intros p; apply _].
  assert (Hinj : Inj (=) (=) name).
  { intros j k Hjk. unfold name, os_path_join in Hjk.
    injection Hjk as Hjk. by apply numbered_name_inj in Hjk. }
  assert (Hsub : list_to_set (C := gset Path) (name <$> seq 0 (S (size c)))
                 ⊆ dom c).
  { intros p Hp. apply elem_of_list_to_set in Hp.
    rewrite Forall_forall in H. specialize (H p Hp). simpl in H.
    apply elem_of_dom. by apply not_eq_None_Some. }
  apply subseteq_size in Hsub.
  rewrite size_list_to_set in Hsub
    by (apply NoDup_fmap_2; [done|apply NoDup_seq]).
  rewrite length_fmap, length_seq, size_dom in Hsub. lia.
Qed.

(** ** The two loops *)

Lemma print_run s w r w' :
  print s w = (r, w') ->
  r = Ok () /\ catalog w' = catalog w /\ env_of w' = env_of w.
Proof. unfold print. intros H. by inversion H. Qed.

Lemma is_managed_target campo p s : is_managed (target_field campo p s) = false.
Proof. done. Qed.

Lemma transfer_field_run temp campo p s field w r w' tfc :
  catalog w !! temp = Some tfc ->
  transfer_field temp campo p s field w = (r, w') ->
  env_of w' = env_of w /\
  match r with
  | Ok _ =>
      catalog w' =
        <[temp := with_fields (transfer_step campo p s (fc_fields tfc) field)
                              tfc]> (catalog w)
  | Raise _ => catalog w' = catalog w
  end.
Proof.
  intros Ht. unfold transfer_field, transfer_step.
  destruct (negb (is_managed field) && negb (same_name (field_name field) campo))
    eqn:Hc.
  - intros H. apply update_fc_run in H. destruct r as [[]|e]; [|by subst].
    destruct H as (_ & He & fc & fc' & Hfc & Hadd & Hcat).
    split; [done|]. rewrite Ht in Hfc. injection Hfc as <-.
    rewrite new_field_id in Hadd. unfold add_field in Hadd.
    apply andb_true_iff in Hc as [Hm _]. apply negb_true_iff in Hm.
    rewrite Hm in Hadd. injection Hadd as <-. done.
  - destruct (same_name (field_name field) campo).
    + intros H. apply update_fc_run in H. destruct r as [[]|e]; [|by subst].
      destruct H as (_ & He & fc & fc' & Hfc & Hadd & Hcat).
      split; [done|]. rewrite Ht in Hfc. injection Hfc as <-.
      unfold add_field in Hadd. fold (target_field campo p s) in Hadd.
      rewrite is_managed_target in Hadd. injection Hadd as <-. done.
    + intros H. inversion H; subst. split; [done|].
      by rewrite with_fields_id, insert_id.
Qed.

Lemma transfer_loop temp campo p s fs : forall w r w' tfc,
  catalog w !! temp = Some tfc ->
  for_each fs (transfer_field temp campo p s) w = (r, w') ->
  env_of w' = env_of w /\
  exists fs', catalog w' = <[temp := with_fields fs' tfc]> (catalog w)
    /\ (r = Ok () ->
        fs' = foldl (transfer_step campo p s) (fc_fields tfc) fs).
Proof.
  induction fs as [|f fs IH]; intros w r w' tfc Ht H; simpl in H.
  - inversion H; subst. split; [done|]. exists (fc_fields tfc).
    by rewrite with_fields_id, insert_id.
  - unfold bind in H.
    destruct (transfer_field temp campo p s f w) as [[[]|e] w1] eqn:H1;
      apply (transfer_field_run _ _ _ _ _ _ _ _ _ Ht) in H1 as [He Hc].
    + eapply IH in H as (He' & fs' & Hc' & Hr);
        [|rewrite Hc; apply lookup_insert_eq].
      split; [congruence|]. exists fs'. split.
      * rewrite Hc', Hc. by rewrite insert_insert_eq.
      * done.
    + inversion H; subst. split; [done|]. exists (fc_fields tfc). split.
      * by rewrite Hc, with_fields_id, insert_id.
      * done.
Qed.

Lemma insert_loop temp names rows : forall w r w' tfc,
  catalog w !! temp = Some tfc ->
  for_each rows (insertRow temp names) w = (r, w') ->
  env_of w' = env_of w /\
  exists rs', catalog w' = <[temp := with_rows rs' tfc]> (catalog w)
    /\ (r = Ok () -> rs' = fc_rows tfc ++ (new_feature names <$> rows)).
Proof.
  induction rows as [|row rows IH]; intros w r w' tfc Ht H; simpl in H.
  - inversion H; subst. split; [done|]. exists (fc_rows tfc).
    rewrite with_rows_id, insert_id by done. by rewrite app_nil_r.
  - unfold bind in H.
    destruct (insertRow temp names row w) as [[[]|e] w1] eqn:H1;
      apply update_fc_run in H1.
    + destruct H1 as (_ & He & fc & fc' & Hfc & Hins & Hc).
      rewrite Ht in Hfc. injection Hfc as <-.
      unfold insert_row in Hins. case_bool_decide; [|done].
      injection Hins as <-.
      eapply IH in H as (He' & rs' & Hc' & Hr);
        [|rewrite Hc; apply lookup_insert_eq].
      split; [congruence|]. exists rs'. split.
      * rewrite Hc', Hc. by rewrite insert_insert_eq.
      * intros ->. rewrite Hr by done. simpl. by rewrite <- app_assoc.
    + subst w1. inversion H; subst. split; [done|]. exists (fc_rows tfc).
      split; [|done]. by rewrite with_rows_id, insert_id.
Qed.

(** ** The slow path, phase by phase *)

Tactic Notation "step" hyp(H) "as" ident(a) ident(w) ident(H1) :=
  let e := fresh "e" in
  apply bind_run in H as [(a & w & H1 & H)|(e & H & ->)].

Tactic Notation "step_ok" hyp(H) "as" ident(a) ident(w) ident(H1) :=
  apply bind_ok in H as (a & w & H1 & H).

Lemma read_rows_ok names (fc : FeatureClass) rows :
  read_rows names fc = Ok rows ->
  rows = (fun r => (SHAPE r, get_value r <$> names)) <$> fc_rows fc.
Proof. unfold read_rows. destruct (all_in_schema names fc); congruence. Qed.

Lemma new_feature_copy names (rows : list Feature) :
  new_feature names <$> ((fun r => (SHAPE r, get_value r <$> names)) <$> rows)
  = copy_feature names <$> rows.
Proof. by rewrite <- list_fmap_compose. Qed.

Lemma build_temp_run path campo p s sr fs w r w' fc :
  catalog w !! path = Some fc ->
  build_temp path campo p s sr fs w = (r, w') ->
  let temp := unique_name (catalog w) "temp_output.shp" (env_scratchFolder w) in
  env_of w' = env_of w /\
  (catalog w' = catalog w \/ exists tfc, catalog w' = <[temp := tfc]> (catalog w))
  /\ forall t, r = Ok t ->
       t = temp /\
       exists tfc,
         calculate_area (default sr (env_outputCoordinateSystem w)) campo
           (filled_temp campo p s sr fs (fc_rows fc)) = Ok tfc
         /\ catalog w' = <[temp := tfc]> (catalog w).
Proof.
  intros Hp H temp. unfold build_temp in H.
  (* scratch folder *)
  step H as scratch w0 Hs; [|discriminate].
  unfold get_scratchFolder in Hs. injection Hs as <- <-.
  (* CreateUniqueName *)
  step H as t0 w0 Hs.
  2:{ apply service_run in H as [(e' & _ & _ & ->)|[_ H]]; [|discriminate].
      split; [done|]. split; [by left|]. intros t Ht. discriminate. }
  apply service_run in Hs as [(e' & _ & ? & _)|[_ Hs]]; [discriminate|].
  injection Hs as <- <-. fold temp in H.
  assert (Hfresh : catalog w !! temp = None) by apply unique_name_fresh.
  assert (Hne : temp ≠ path) by (intros Heq; rewrite Heq in Hfresh; congruence).
  (* print *)
  step H as u1 w1 Hs; [|by apply print_run in H as [? _]].
  apply print_run in Hs as (_ & Hc1 & He1).
  (* CreateFeatureclass *)
  step H as u2 w2 Hs.
  2:{ apply service_run in H as [(e' & _ & _ & ->)|[_ H]].
      - split; [done|]. split; [left; done|]. intros t Ht. discriminate.
      - destruct (_ && _) in H; inversion H; subst.
        split; [done|]. split; [left; done|]. intros t Ht. discriminate. }
  apply service_run in Hs as [(e' & _ & ? & _)|[_ Hs]]; [discriminate|].
  destruct (_ && _) in Hs; [discriminate|].
  injection Hs as <- Hw2.
  assert (Hc2 : catalog w2 = <[temp := new_shapefile "POLYGON" sr]> (catalog w)).
  { rewrite <- Hw2. simpl. rewrite Hc1. by destruct temp. }
  assert (He2 : env_of w2 = env_of w) by (rewrite <- Hw2; done).
  clear Hw2 Hc1 He1 w1 u1.
  (* the loop over the original fields *)
  step H as u3 w3 Hs.
  2:{ eapply transfer_loop in H as (He & fs' & Hc & _);
        [|rewrite Hc2; apply lookup_insert_eq].
      split; [congruence|]. split.
      - right. eexists. rewrite Hc, Hc2. by rewrite insert_insert_eq.
      - intros t Ht. discriminate. }
  eapply transfer_loop in Hs as (He3 & fs' & Hc3 & Hfs);
    [|rewrite Hc2; apply lookup_insert_eq].
  destruct u3. specialize (Hfs eq_refl). simpl in Hfs.
  fold (temp_schema campo p s fs) in Hfs. subst fs'.
  rewrite Hc2, insert_insert_eq in Hc3. rewrite He2 in He3.
  clear Hc2 He2 w2.
  (* print *)
  step H as u4 w4 Hs; [|by apply print_run in H as [? _]].
  apply print_run in Hs as (_ & Hc4 & He4).
  rewrite Hc3 in Hc4. rewrite He3 in He4. clear Hc3 He3 w3.
  (* ListFields on the temporary collection *)
  step H as listed w5 Hs.
  2:{ apply query_run in H as [-> _]. split; [done|]. split.
      - right. eauto.
      - intros t Ht. discriminate. }
  apply query_run in Hs as [-> Hq].
  destruct (Hq _ eq_refl) as (_ & tfc & Htfc & Hl). clear Hq.
  rewrite Hc4, lookup_insert_eq in Htfc. injection Htfc as <-.
  injection Hl as <-. simpl in H.
  fold (temp_schema campo p s fs) in H.
  fold (copy_names campo p s fs) in H.
  (* SearchCursor on the original *)
  step H as s_cursor w6 Hs.
  2:{ apply query_run in H as [-> _]. split; [done|]. split.
      - right. eauto.
      - intros t Ht. discriminate. }
  apply query_run in Hs as [-> Hq].
  destruct (Hq _ eq_refl) as (_ & fc0 & Hfc0 & Hrows). clear Hq.
  rewrite Hc4, lookup_insert_ne, Hp in Hfc0 by done. injection Hfc0 as <-.
  apply read_rows_ok in Hrows. subst s_cursor.
  (* InsertCursor *)
  step H as u7 w7 Hs.
  2:{ apply query_run in H as [-> _]. split; [done|]. split.
      - right. eauto.
      - intros t Ht. discriminate. }
  apply query_run in Hs as [-> _].
  (* the loop over the rows *)
  step H as u8 w8 Hs.
  2:{ eapply insert_loop in H as (He & rs' & Hc & _);
        [|rewrite Hc4; apply lookup_insert_eq].
      split; [congruence|]. split.
      - right. eexists. rewrite Hc, Hc4. by rewrite insert_insert_eq.
      - intros t Ht. discriminate. }
  eapply insert_loop in Hs as (He8 & rs' & Hc8 & Hrs);
    [|rewrite Hc4; apply lookup_insert_eq].
  destruct u8. specialize (Hrs eq_refl). simpl in Hrs.
  rewrite new_feature_copy in Hrs. subst rs'.
  rewrite Hc4, insert_insert_eq in Hc8. rewrite He4 in He8.
  clear Hc4 He4 w4.
  (* print *)
  step H as u9 w9 Hs; [|by apply print_run in H as [? _]].
  apply print_run in Hs as (_ & Hc9 & He9).
  rewrite Hc8 in Hc9. rewrite He8 in He9. clear Hc8 He8 w8.
  (* CalculateGeometryAttributes *)
  step H as u10 w10 Hs.
  2:{ apply update_fc_run in H. subst w'. split; [done|]. split.
      - right. eauto.
      - intros t Ht. discriminate. }
  apply update_fc_run in Hs as (_ & He10 & tfc & tfc' & Htfc & Hcalc & Hc10).
  rewrite Hc9, lookup_insert_eq in Htfc. injection Htfc as <-.
  simpl in Hcalc.
  assert (Hocs : env_outputCoordinateSystem w9 = env_outputCoordinateSystem w).
  { unfold env_of in He9. by injection He9. }
  rewrite Hocs in Hcalc.
  rewrite Hc9, insert_insert_eq in Hc10.
  injection H as <- <-.
  split; [congruence|]. split; [right; eauto|].
  intros t Ht. injection Ht as <-. split; [done|].
  exists tfc'. split; [|done]. exact Hcalc.
Qed.

Lemma arcpy_Delete_run p w r w' :
  arcpy_Delete p w = (r, w') ->
  env_of w' = env_of w /\
  match r with
  | Ok _ => faults (call_Delete p) = None /\ is_Some (catalog w !! p)
            /\ catalog w' = delete p (catalog w)
  | Raise e => catalog w' = catalog w
               /\ (is_Some (catalog w !! p) -> faults (call_Delete p) = Some e)
  end.
Proof.
  unfold arcpy_Delete. intros H.
  apply service_run in H as [(e & He & -> & ->)|[Hf H]]; [done|].
  destruct (catalog w !! p) as [fc|] eqn:Hp; inversion H; subst.
  - split; [done|]. eauto.
  - split; [done|]. split; [done|]. by intros [? ?].
Qed.

Lemma arcpy_CopyFeatures_run src dst w r w' fc :
  catalog w !! src = Some fc ->
  catalog w !! dst = None ->
  arcpy_CopyFeatures src dst w = (r, w') ->
  env_of w' = env_of w /\
  match r with
  | Ok _ => faults (call_CopyFeatures src dst) = None
            /\ catalog w' = <[dst := fc]> (catalog w)
  | Raise e => catalog w' = catalog w
               /\ faults (call_CopyFeatures src dst) = Some e
  end.
Proof.
  unfold arcpy_CopyFeatures. intros Hs Hd H.
  apply service_run in H as [(e & He & -> & ->)|[Hf H]]; [done|].
  rewrite Hs, Hd in H. simpl in H. inversion H; subst. done.
Qed.

Lemma replace_original_run path temp w r w' tfc fc :
  catalog w !! temp = Some tfc ->
  catalog w !! path = Some fc ->
  temp ≠ path ->
  replace_original path temp w = (r, w') ->
  env_of w' = env_of w /\
  ((exists e, r = Raise e /\ catalog w' !! path = Some fc)
   \/ exists res,
        delete_field "Id" tfc = Ok res
        /\ faults (call_Delete path) = None
        /\ swap_outcome path temp (catalog w) res r (catalog w')).
Proof.
  intros Ht Hp Hne H. unfold replace_original in H.
  step H as u1 w1 Hs; [|by apply print_run in H as [? _]].
  apply print_run in Hs as (_ & Hc1 & He1).
  (* DeleteField *)
  step H as u2 w2 Hs.
  2:{ apply update_fc_run in H. subst w'. split; [done|]. left.
      eexists. split; [done|]. by rewrite Hc1. }
  apply update_fc_run in Hs as (_ & He2 & tfc0 & res & Htfc & Hdel & Hc2).
  rewrite Hc1, Ht in Htfc. injection Htfc as <-.
  rewrite Hc1 in Hc2. rewrite He1 in He2. clear Hc1 He1 w1.
  (* Delete of the original *)
  step H as u3 w3 Hs.
  2:{ apply arcpy_Delete_run in H as (He & Hc & _). split; [congruence|].
      left. eexists. split; [done|].
      by rewrite Hc, Hc2, lookup_insert_ne. }
  apply arcpy_Delete_run in Hs as (He3 & Hf3 & _ & Hc3).
  rewrite Hc2 in Hc3. rewrite He2 in He3. clear Hc2 He2 w2.
  (* CopyFeatures *)
  step H as u4 w4 Hs.
  2:{ eapply arcpy_CopyFeatures_run in H as (He & Hc & Hf).
      - split; [congruence|]. right. exists res. split; [done|].
        split; [done|]. rewrite Hc, Hc3. by constructor.
      - rewrite Hc3, lookup_delete_ne, lookup_insert_eq; done.
      - rewrite Hc3. apply lookup_delete_eq. }
  eapply arcpy_CopyFeatures_run in Hs as (He4 & Hf4 & Hc4);
    [|rewrite Hc3, lookup_delete_ne, lookup_insert_eq; done
     |rewrite Hc3; apply lookup_delete_eq].
  rewrite Hc3 in Hc4. rewrite He3 in He4. clear Hc3 He3 w3.
  rewrite insert_delete_eq in Hc4.
  (* Delete of the temporary collection *)
  step H as u5 w5 Hs.
  2:{ apply arcpy_Delete_run in H as (He & Hc & Hf).
      split; [congruence|]. right. exists res. split; [done|].
      split; [done|]. rewrite Hc, Hc4. constructor; [done|]. apply Hf.
      rewrite Hc4, lookup_insert_ne, lookup_insert_eq; done. }
  apply arcpy_Delete_run in Hs as (He5 & Hf5 & _ & Hc5).
  rewrite Hc4 in Hc5. rewrite He4 in He5. clear Hc4 He4 w4.
  step H as u6 w6 Hs; [|by apply print_run in H as [? _]].
  apply print_run in Hs as (_ & Hc6 & He6).
  injection H as <- <-.
  split; [congruence|]. right. exists res. split; [done|]. split; [done|].
  rewrite Hc6, Hc5.
  rewrite delete_insert_ne, delete_insert_eq by done.
  by constructor.
Qed.

Lemma recreate_run path campo p s sr fs w r w' fc :
  catalog w !! path = Some fc ->
  recreate path campo p s sr fs w = (r, w') ->
  let temp := unique_name (catalog w) "temp_output.shp" (env_scratchFolder w) in
  (exists e, r = Raise e /\ catalog w' !! path = Some fc)
  \/ exists tfc res,
       calculate_area (default sr (env_outputCoordinateSystem w)) campo
         (filled_temp campo p s sr fs (fc_rows fc)) = Ok tfc
       /\ delete_field "Id" tfc = Ok res
       /\ faults (call_Delete path) = None
       /\ swap_outcome path temp (<[temp := tfc]> (catalog w)) res r
                       (catalog w').
Proof.
  intros Hp H temp. unfold recreate in H.
  assert (Hfresh : catalog w !! temp = None) by apply unique_name_fresh.
  assert (Hne : temp ≠ path) by (intros Heq; rewrite Heq in Hfresh; congruence).
  step H as t w1 Hs.
  - apply (build_temp_run _ _ _ _ _ _ _ _ _ _ Hp) in Hs as (He & _ & Hok).
    destruct (Hok _ eq_refl) as (-> & tfc & Hcalc & Hc). fold temp in H.
    assert (Ht1 : catalog w1 !! temp = Some tfc)
      by (rewrite Hc; apply lookup_insert_eq).
    assert (Hp1 : catalog w1 !! path = Some fc)
      by (rewrite Hc, lookup_insert_ne; done).
    apply (replace_original_run _ _ _ _ _ _ _ Ht1 Hp1 Hne) in H
      as (_ & [(e & -> & Hpath)|Hswap]).
    + left. eauto.
    + destruct Hswap as (res & Hdel & Hf & Hswap). right.
      exists tfc, res. rewrite Hc in Hswap. done.
  - apply (build_temp_run _ _ _ _ _ _ _ _ _ _ Hp) in H as (_ & Hc & _).
    left. eexists. split; [done|]. fold temp in Hc.
    destruct Hc as [->|[tfc ->]]; [done|]. by rewrite lookup_insert_ne.
Qed.

Lemma st_trans_sup_ha_try_run path campo p s w r w' fc :
  catalog w !! path = Some fc ->
  st_trans_sup_ha_try path campo p s w = (r, w') ->
  (exists e, r = Raise e /\ catalog w' = catalog w)
  \/ exists w0,
       catalog w0 = catalog w
       /\ env_of w0 = (true, Some (fc_spatialReference fc), env_scratchFolder w)
       /\ match List.find (fun f => same_name (field_name f) campo)
                          (fc_fields fc) with
          | Some field_obj =>
              if well_formed field_obj p s
              then recalculate path campo w0 = (r, w')
              else recreate path campo p s (fc_spatialReference fc)
                            (fc_fields fc) w0 = (r, w')
          | None =>
              recreate path campo p s (fc_spatialReference fc) (fc_fields fc)
                       w0 = (r, w')
          end.
Proof.
  intros Hp H. unfold st_trans_sup_ha_try in H.
  step H as u1 w1 Hs; [|discriminate].
  unfold set_overwriteOutput in Hs. injection Hs as _ Hw1.
  step H as spatial_ref w2 Hs.
  2:{ apply query_run in H as [-> _]. left. eexists. split; [done|].
      by rewrite <- Hw1. }
  apply query_run in Hs as [-> Hq].
  destruct (Hq _ eq_refl) as (_ & fc0 & Hfc0 & Hsr). clear Hq.
  rewrite <- Hw1 in Hfc0. simpl in Hfc0. rewrite Hp in Hfc0.
  injection Hfc0 as <-. injection Hsr as <-.
  step H as u3 w3 Hs; [|discriminate].
  unfold set_outputCoordinateSystem in Hs. injection Hs as _ Hw3.
  step H as original_fields w4 Hs.
  2:{ apply query_run in H as [-> _]. left. eexists. split; [done|].
      by rewrite <- Hw3, <- Hw1. }
  apply query_run in Hs as [-> Hq].
  destruct (Hq _ eq_refl) as (_ & fc0 & Hfc0 & Hfs). clear Hq.
  rewrite <- Hw3, <- Hw1 in Hfc0. simpl in Hfc0. rewrite Hp in Hfc0.
  injection Hfc0 as <-. injection Hfs as <-.
  assert (Hc3 : catalog w3 = catalog w) by (by rewrite <- Hw3, <- Hw1).
  assert (He3 : env_of w3
                = (true, Some (fc_spatialReference fc), env_scratchFolder w))
    by (by rewrite <- Hw3, <- Hw1).
  clear Hw3 Hw1 w1 u1 u3. right.
  destruct (List.find _ (fc_fields fc)) as [field_obj|] eqn:Hfind.
  - step H as u5 w5 Hs; [|by apply print_run in H as [? _]].
    apply print_run in Hs as (_ & Hc5 & He5).
    destruct (well_formed field_obj p s).
    + exists w5. split; [congruence|]. split; [congruence|]. done.
    + step H as u6 w6 Hs; [|by apply print_run in H as [? _]].
      apply print_run in Hs as (_ & Hc6 & He6).
      step H as u7 w7 Hs; [|by apply print_run in H as [? _]].
      apply print_run in Hs as (_ & Hc7 & He7).
      exists w7. split; [congruence|]. split; [congruence|]. done.
  - exists w3. done.
Qed.

(** An exception of the existence check of line 21 is raised before the
    [try]: it leaves the call as it is, and nothing has been done. *)
Lemma arcpy_Exists_run p w r w' :
  arcpy_Exists p w = (r, w') ->
  w' = w
  /\ ((exists e, faults (call_Exists p) = Some e /\ r = Raise e)
      \/ (faults (call_Exists p) = None
          /\ r = Ok (bool_decide (is_Some (catalog w !! p))))).
Proof.
  unfold arcpy_Exists. intros H.
  apply service_run in H as [(e & He & -> & ->)|[Hf H]].
  - split; [done|]. left. eauto.
  - injection H as <- <-. split; [done|]. by right.
Qed.

Lemma st_trans_sup_ha_escapes path campo p s w e :
  faults (call_Exists path) = Some e ->
  st_trans_sup_ha path campo p s w = (Raise e, w).
Proof.
  intros He. unfold st_trans_sup_ha, arcpy_Exists, service, mbind, M_bind, bind.
  by rewrite He.
Qed.

Lemma st_trans_sup_ha_run path campo p s w r w' fc :
  catalog w !! path = Some fc ->
  st_trans_sup_ha path campo p s w = (r, w') ->
  (exists e, faults (call_Exists path) = Some e /\ r = Raise e /\ w' = w)
  \/ (faults (call_Exists path) = None
      /\ exists w1 r0 w2,
           catalog w1 = catalog w /\ env_of w1 = env_of w
           /\ st_trans_sup_ha_try path campo p s w1 = (r0, w2)
           /\ catalog w' = catalog w2
           /\ r = Ok (match r0 with Ok b => b | Raise _ => false end)).
Proof.
  intros Hp H. unfold st_trans_sup_ha in H.
  step H as found w0 Hs.
  2:{ apply arcpy_Exists_run in H as (-> & [(e' & He' & Hr)|[_ ?]]); [|done].
      left. injection Hr as <-. eauto. }
  apply arcpy_Exists_run in Hs as (-> & [(e' & _ & ?)|[Hfe Hfound]]); [done|].
  injection Hfound as ->. right. split; [done|].
  rewrite Hp, bool_decide_eq_true_2 in H by eauto. simpl in H.
  step H as u1 w1 Hs; [|by apply print_run in H as [? _]].
  apply print_run in Hs as (_ & Hc1 & He1).
  unfold try_except in H.
  destruct (st_trans_sup_ha_try path campo p s w1) as [r0 w2] eqn:Htry.
  exists w1, r0, w2. split; [done|]. split; [done|]. split; [done|].
  destruct r0 as [b|[m|e]]; simpl in H.
  - by injection H as <- <-.
  - unfold mbind, M_bind, bind, print_err, mret, M_ret, ret in H. simpl in H.
    by injection H as <- <-.
  - unfold mbind, M_bind, bind, print_err, mret, M_ret, ret in H. simpl in H.
    by injection H as <- <-.
Qed.

Lemma st_trans_sup_ha_not_found path campo p s w r w' :
  catalog w !! path = None ->
  st_trans_sup_ha path campo p s w = (r, w') ->
  catalog w' = catalog w /\ r ≠ Ok true.
Proof.
  intros Hp H. destruct (faults (call_Exists path)) as [e|] eqn:Hex.
  - rewrite (st_trans_sup_ha_escapes _ _ _ _ _ _ Hex) in H.
    by injection H as <- <-.
  - unfold st_trans_sup_ha, arcpy_Exists, service, mbind, M_bind, bind in H.
    rewrite Hex, Hp, bool_decide_eq_false_2 in H by (by intros [? ?]).
    simpl in H. by injection H as <- <-.
Qed.

(** ** The temporary schema *)

Lemma same_name_true a b : same_name a b = true <-> lower a = lower b.
Proof. unfold same_name. apply bool_decide_eq_true. Qed.

Lemma same_name_false a b : same_name a b = false <-> lower a ≠ lower b.
Proof. unfold same_name. apply bool_decide_eq_false. Qed.

Lemma has_field_true name fs :
  has_field name fs = true <-> lower name ∈ lname <$> fs.
Proof.
  unfold has_field. rewrite existsb_exists, list_elem_of_fmap. split.
  - intros (f & Hin & Hs). apply same_name_true in Hs.
    exists f. split; [done|]. by apply list_elem_of_In.
  - intros (f & Hl & Hin). exists f. split; [by apply list_elem_of_In|].
    by apply same_name_true.
Qed.

Lemma has_field_false name fs :
  has_field name fs = false <-> lower name ∉ lname <$> fs.
Proof.
  rewrite <- has_field_true. destruct (has_field name fs); split; done.
Qed.

Lemma find_same_name_Some name fs g :
  List.find (fun f => same_name (field_name f) name) fs = Some g ->
  g ∈ fs /\ lname g = lower name.
Proof.
  intros H. apply find_some in H as [Hin Hs]. split.
  - by apply list_elem_of_In.
  - by apply same_name_true in Hs.
Qed.

Lemma find_same_name_None name fs :
  List.find (fun f => same_name (field_name f) name) fs = None <->
  has_field name fs = false.
Proof.
  split.
  - intros H. apply has_field_false. intros Hin.
    apply list_elem_of_fmap in Hin as (f & Hl & Hin).
    apply list_elem_of_In in Hin.
    pose proof (find_none _ _ H f Hin) as Hf. simpl in Hf.
    by apply same_name_false in Hf.
  - intros H. destruct (List.find _ fs) as [g|] eqn:Hg; [|done].
    apply find_same_name_Some in Hg as [Hin Hl].
    apply has_field_false in H. destruct H.
    rewrite <- Hl. by apply list_elem_of_fmap_2.
Qed.

Lemma elem_of_append_field fs g x :
  x ∈ append_field fs g -> x ∈ fs \/ x = g.
Proof.
  unfold append_field. destruct (has_field _ fs); [by left|].
  rewrite elem_of_app, list_elem_of_singleton. done.
Qed.

Lemma append_field_incl fs g x : x ∈ fs -> x ∈ append_field fs g.
Proof.
  unfold append_field. destruct (has_field _ fs); [done|].
  intros H. apply elem_of_app. by left.
Qed.

Lemma has_field_append_field fs g : has_field (field_name g) (append_field fs g) = true.
Proof.
  unfold append_field. destruct (has_field _ fs) eqn:H; [done|].
  apply has_field_true. rewrite fmap_app. apply elem_of_app. right.
  simpl. apply list_elem_of_singleton. done.
Qed.

Lemma transfer_step_incl campo p s fs f x :
  x ∈ fs -> x ∈ transfer_step campo p s fs f.
Proof.
  unfold transfer_step. intros H.
  repeat match goal with |- context [if ?b then _ else _] => destruct b end;
    auto using append_field_incl.
Qed.

Lemma elem_of_transfer_step campo p s fs f x :
  x ∈ transfer_step campo p s fs f ->
  x ∈ fs \/ x = target_field campo p s
  \/ (x = f /\ is_managed f = false /\ same_name (field_name f) campo = false).
Proof.
  unfold transfer_step.
  destruct (is_managed f) eqn:Hm; destruct (same_name _ campo) eqn:Hs; simpl;
    intros H; try (by left);
    apply elem_of_append_field in H as [H| ->]; auto.
Qed.

Lemma foldl_transfer_step_incl campo p s fs : forall acc x,
  x ∈ acc -> x ∈ foldl (transfer_step campo p s) acc fs.
Proof.
  induction fs as [|f fs IH]; intros acc x H; simpl; [done|].
  apply IH. by apply transfer_step_incl.
Qed.

Lemma elem_of_foldl_transfer_step campo p s fs : forall acc x,
  x ∈ foldl (transfer_step campo p s) acc fs ->
  x ∈ acc \/ x = target_field campo p s
  \/ (x ∈ fs /\ is_managed x = false /\ same_name (field_name x) campo = false).
Proof.
  induction fs as [|f fs IH]; intros acc x H; simpl in H; [by left|].
  apply IH in H as [H|[H|(H & Hm & Hs)]].
  - apply elem_of_transfer_step in H as [H|[H|(-> & Hm & Hs)]]; auto.
    right. right. split; [|done]. apply list_elem_of_here.
  - auto.
  - right. right. split; [|done]. by apply list_elem_of_further.
Qed.

(** A field of the temporary schema is an implicit one, the replacement
    target field, or an attribute field of the original other than the
    target. *)
Lemma elem_of_temp_schema campo p s fs x :
  x ∈ temp_schema campo p s fs ->
  x ∈ implicit_fields \/ x = target_field campo p s
  \/ (x ∈ fs /\ is_managed x = false /\ same_name (field_name x) campo = false).
Proof. apply elem_of_foldl_transfer_step. Qed.

Lemma has_field_mono campo p s fs : forall acc name,
  has_field name acc = true ->
  has_field name (foldl (transfer_step campo p s) acc fs) = true.
Proof.
  intros acc name H. apply has_field_true in H. apply has_field_true.
  apply list_elem_of_fmap in H as (g & -> & H).
  apply list_elem_of_fmap_2. by apply foldl_transfer_step_incl.
Qed.

(** Once the loop has met a field of the target's name, the temporary schema
    has a field of that name. *)
Lemma temp_schema_has_target campo p s fs : forall acc f,
  f ∈ fs -> same_name (field_name f) campo = true ->
  has_field campo (foldl (transfer_step campo p s) acc fs) = true.
Proof.
  induction fs as [|g fs IH]; intros acc f Hin Hs; [by apply elem_of_nil in Hin|].
  apply elem_of_cons in Hin as [<-|Hin]; simpl.
  - apply has_field_mono. unfold transfer_step. rewrite Hs.
    rewrite andb_false_r.
    apply (has_field_append_field acc (target_field campo p s)).
  - by eapply IH.
Qed.

Lemma rebuild_lname campo p s f g :
  rebuild campo p s f = Some g -> lname g = lname f.
Proof.
  unfold rebuild. destruct (same_name (field_name f) campo) eqn:Hs.
  - intros [= <-]. apply same_name_true in Hs. done.
  - destruct (_ || _); [done|]. by intros [= <-].
Qed.

Lemma lname_omap_rebuild campo p s (pre : list Field) (x : string) :
  x ∈ lname <$> omap (rebuild campo p s) pre -> x ∈ lname <$> pre.
Proof.
  intros H. apply list_elem_of_fmap in H as (g & -> & H).
  apply list_elem_of_omap in H as (f & Hf & Hr).
  apply rebuild_lname in Hr as ->. by apply list_elem_of_fmap_2.
Qed.

Lemma lname_implicit_fields : lname <$> implicit_fields = ["fid"; "shape"; "id"].
Proof. reflexivity. Qed.

Lemma transfer_step_rebuild campo p s (pre : list Field) (f : Field) :
  NoDup (lname <$> (pre ++ [f])) ->
  (is_managed f = false -> lname f ∉ ["fid"; "shape"]) ->
  has_field campo implicit_fields = false ->
  transfer_step campo p s (implicit_fields ++ omap (rebuild campo p s) pre) f
  = implicit_fields ++ omap (rebuild campo p s) (pre ++ [f]).
Proof.
  intros Hnd Hwf Hcol.
  rewrite fmap_app in Hnd. apply NoDup_app in Hnd as (_ & Hdisj & _).
  assert (Hf : lname f ∉ lname <$> pre).
  { intros Hin. apply (Hdisj _ Hin). simpl. apply list_elem_of_here. }
  rewrite omap_app. unfold transfer_step.
  assert (Hone : forall o : option Field,
            rebuild campo p s f = o -> omap (rebuild campo p s) [f] = option_list o).
  { intros o <-. simpl. by destruct (rebuild campo p s f). }
  destruct (same_name (field_name f) campo) eqn:Hs.
  - rewrite (Hone (Some (target_field campo p s)))
      by (unfold rebuild; by rewrite Hs).
    rewrite andb_false_r. unfold append_field.
    assert (has_field (field_name (target_field campo p s))
              (implicit_fields ++ omap (rebuild campo p s) pre) = false) as ->.
    { apply has_field_false. rewrite fmap_app. intros Hin.
      apply elem_of_app in Hin as [Hin|Hin].
      - apply has_field_false in Hcol. by apply Hcol.
      - apply lname_omap_rebuild in Hin. apply same_name_true in Hs.
        apply Hf. unfold lname at 1. by rewrite Hs. }
    by rewrite app_assoc.
  - rewrite andb_true_r. destruct (is_managed f) eqn:Hm; cbn [negb].
    + rewrite (Hone None) by (unfold rebuild; by rewrite Hs, Hm).
      by rewrite app_nil_r.
    + unfold append_field.
      destruct (same_name (field_name f) "Id") eqn:Hid.
      * rewrite (Hone None) by (unfold rebuild; by rewrite Hs, Hm, Hid).
        assert (has_field (field_name f)
                  (implicit_fields ++ omap (rebuild campo p s) pre) = true) as ->.
        { apply has_field_true. rewrite fmap_app. apply elem_of_app. left.
          apply same_name_true in Hid. rewrite Hid, lname_implicit_fields.
          set_solver. }
        by rewrite app_nil_r.
      * rewrite (Hone (Some f)) by (unfold rebuild; by rewrite Hs, Hm, Hid).
        assert (has_field (field_name f)
                  (implicit_fields ++ omap (rebuild campo p s) pre) = false) as ->.
        { apply has_field_false. rewrite fmap_app. intros Hin.
          apply elem_of_app in Hin as [Hin|Hin].
          - rewrite lname_implicit_fields in Hin.
            apply same_name_false in Hid. specialize (Hwf eq_refl).
            unfold lname in Hwf.
            apply elem_of_cons in Hin as [Hin|Hin];
              [apply Hwf; rewrite Hin; apply list_elem_of_here|].
            apply elem_of_cons in Hin as [Hin|Hin];
              [apply Hwf; rewrite Hin;
               apply list_elem_of_further, list_elem_of_here|].
            apply list_elem_of_singleton in Hin. by apply Hid.
          - apply lname_omap_rebuild in Hin. by apply Hf. }
        by rewrite app_assoc.
Qed.

Lemma foldl_transfer_step_rebuild campo p s (fs : list Field) :
  forall pre : list Field,
  NoDup (lname <$> (pre ++ fs)) ->
  (forall f, f ∈ fs -> is_managed f = false -> lname f ∉ ["fid"; "shape"]) ->
  has_field campo implicit_fields = false ->
  foldl (transfer_step campo p s)
        (implicit_fields ++ omap (rebuild campo p s) pre) fs
  = implicit_fields ++ omap (rebuild campo p s) (pre ++ fs).
Proof.
  induction fs as [|f fs IH]; intros pre Hnd Hwf Hcol; cbn [foldl].
  - by rewrite app_nil_r.
  - rewrite transfer_step_rebuild; [| |by apply Hwf, list_elem_of_here|done].
    + rewrite IH; [by rewrite <- app_assoc| |by intros; apply Hwf; [apply list_elem_of_further|]|done].
      by rewrite <- app_assoc.
    + rewrite (cons_middle f pre fs), app_assoc, fmap_app in Hnd.
      by apply NoDup_app in Hnd as (? & _).
Qed.

(** On a well-formed schema and for a target name that is not the name of an
    implicit field, the loop of lines 76 to 82 rebuilds the schema field by
    field, in order. *)
Lemma temp_schema_wf campo p s fs :
  wf_schema fs ->
  has_field campo implicit_fields = false ->
  temp_schema campo p s fs = implicit_fields ++ omap (rebuild campo p s) fs.
Proof.
  intros [Hnd Hwf] Hcol. unfold temp_schema.
  rewrite Forall_forall in Hwf.
  by apply (foldl_transfer_step_rebuild campo p s fs []).
Qed.

(** ** The migrated collection *)

Lemma transfer_step_prefix campo p s (acc : list Field) f :
  exists l, transfer_step campo p s acc f = acc ++ l.
Proof.
  unfold transfer_step, append_field.
  repeat match goal with |- context [if ?b then _ else _] => destruct b end;
    try (exists []; by rewrite app_nil_r); by eexists.
Qed.

Lemma foldl_transfer_step_prefix campo p s (fs : list Field) :
  forall acc : list Field,
  exists rest, foldl (transfer_step campo p s) acc fs = acc ++ rest.
Proof.
  induction fs as [|f fs IH]; intros acc; cbn [foldl].
  - exists []. by rewrite app_nil_r.
  - destruct (IH (transfer_step campo p s acc f)) as [rest ->].
    destruct (transfer_step_prefix campo p s acc f) as [l ->].
    exists (l ++ rest). by rewrite <- app_assoc.
Qed.

Lemma temp_schema_prefix campo p s fs :
  exists rest, temp_schema campo p s fs = implicit_fields ++ rest.
Proof. apply foldl_transfer_step_prefix. Qed.

Lemma delete_field_ok name (fc res : FeatureClass) :
  delete_field name fc = Ok res -> res = without_field name fc.
Proof.
  unfold delete_field. destruct (List.find _ _) as [f|]; [|done].
  destruct (is_managed f); [done|]. by intros [= <-].
Qed.

Lemma same_name_trans a b c :
  same_name a b = true -> same_name b c = true -> same_name a c = true.
Proof. rewrite !same_name_true. congruence. Qed.

Lemma same_name_sym a b : same_name a b = same_name b a.
Proof.
  destruct (same_name b a) eqn:H.
  - apply same_name_true in H. by apply same_name_true.
  - apply same_name_false in H. by apply same_name_false.
Qed.

(** The field that [CalculateGeometryAttributes] writes to on the temporary
    collection, when it finds one and the target name is not [Id]: the
    replacement target field. *)
Lemma temp_schema_find campo p s fs g :
  List.find (fun f => same_name (field_name f) campo) (temp_schema campo p s fs)
    = Some g ->
  is_managed g = false ->
  same_name campo "Id" = false ->
  g = target_field campo p s.
Proof.
  intros Hfind Hm Hid.
  apply find_some in Hfind as [Hin Hs]. apply list_elem_of_In in Hin.
  apply elem_of_temp_schema in Hin as [Hin|[Hin|(_ & _ & Hns)]]; [|done|congruence].
  unfold implicit_fields in Hin.
  apply elem_of_cons in Hin as [->|Hin]; [done|].
  apply elem_of_cons in Hin as [->|Hin]; [done|].
  apply list_elem_of_singleton in Hin as ->.
  rewrite same_name_sym in Hs. simpl in Hs. congruence.
Qed.

(** A field of the migrated schema that answers to the target name. *)
Lemma migrated_target campo p s sr (fc res : FeatureClass) g :
  migrated campo p s sr fc = Ok res ->
  g ∈ fc_fields res ->
  same_name (field_name g) campo = true ->
  same_name campo "Id" = false
  /\ field_name g = campo /\ field_type g = ft_Double
  /\ (has_field campo (fc_fields fc) = true -> g = target_field campo p s)
  /\ forall r, r ∈ fc_rows res ->
       attrs r !! campo
       = Some (stored_number g (area_hectares sr (SHAPE r))).
Proof.
  unfold migrated. intros H Hg Hs.
  destruct (calculate_area _ _ _) as [t|] eqn:Hcalc; [|done].
  apply delete_field_ok in H. subst res. simpl in Hg.
  apply list_elem_of_In, filter_In in Hg as [Hg Hnid].
  apply list_elem_of_In in Hg. apply negb_true_iff in Hnid.
  assert (Hid : same_name campo "Id" = false).
  { destruct (same_name campo "Id") eqn:Hc; [|done].
    by rewrite (same_name_trans _ _ _ Hs Hc) in Hnid. }
  split; [done|].
  assert (Hrows : forall f : Field,
            same_name (field_name f) "Id" = false ->
            forall (rows : list Feature) (r : Feature),
            r ∈ drop_value "Id" <$> (calc_area sr f <$> rows) ->
            attrs r !! field_name f
            = Some (stored_number f (area_hectares sr (SHAPE r)))).
  { intros f Hk rows r Hr.
    apply list_elem_of_fmap in Hr as (r1 & -> & Hr).
    apply list_elem_of_fmap in Hr as (r0 & -> & Hr). simpl.
    apply map_lookup_filter_Some. split; [|done]. apply lookup_insert_eq. }
  unfold_calculate_area in Hcalc. simpl in Hcalc.
  destruct (List.find _ _) as [f|] eqn:Hfind.
  - destruct (is_managed f) eqn:Hm; [done|]. injection Hcalc as <-.
    simpl in *.
    pose proof (temp_schema_find _ _ _ _ _ Hfind Hm Hid) as ->.
    apply elem_of_temp_schema in Hg as [Hin|[->|(_ & _ & Hns)]]; [| |congruence].
    + exfalso. destruct (temp_schema_prefix campo p s (fc_fields fc)) as [rest Hpre].
      rewrite Hpre in Hfind. unfold implicit_fields in Hin.
      change (implicit_fields ++ rest)
        with (FID_field :: Shape_field :: Id_field :: rest) in Hfind.
      cbn [List.find] in Hfind.
      apply elem_of_cons in Hin as [->|Hin].
      { rewrite Hs in Hfind. discriminate. }
      apply elem_of_cons in Hin as [->|Hin].
      { destruct (same_name (field_name FID_field) campo); [discriminate|].
        rewrite Hs in Hfind. discriminate. }
      apply list_elem_of_singleton in Hin as ->. discriminate.
    + repeat split; try done. intros r Hr.
      by apply (Hrows (target_field campo p s) Hnid _ _ Hr).
  - injection Hcalc as <-. simpl in *.
    apply find_same_name_None in Hfind.
    apply elem_of_app in Hg as [Hg|Hg].
    + exfalso. apply has_field_false in Hfind. apply Hfind.
      apply same_name_true in Hs. rewrite <- Hs.
      by apply (list_elem_of_fmap_2 lname).
    + apply list_elem_of_singleton in Hg as ->. repeat split; try done.
      * intros Hhas. exfalso.
        apply has_field_true, list_elem_of_fmap in Hhas as (f0 & Hl & Hin).
        assert (Hs0 : same_name (field_name f0) campo = true)
          by (by apply same_name_true).
        pose proof (temp_schema_has_target campo p s (fc_fields fc)
                      implicit_fields f0 Hin Hs0) as Hhas.
        unfold temp_schema in Hfind. congruence.
      * intros r Hr.
        by apply (Hrows (new_field campo ft_Double None None None None None
                                   None None) Hnid _ _ Hr).
Qed.

(** Unless the target name is [Id], the migrated schema has a field that
    answers to the target name. *)
Lemma migrated_has_target campo p s sr (fc res : FeatureClass) :
  migrated campo p s sr fc = Ok res ->
  same_name campo "Id" = false ->
  has_field campo (fc_fields res) = true.
Proof.
  unfold migrated. intros H Hid.
  destruct (calculate_area _ _ _) as [t|] eqn:Hcalc; [|done].
  apply delete_field_ok in H. subst res. simpl.
  assert (Hkeep : forall (g : Field) (fs : list Field),
            g ∈ fs -> same_name (field_name g) campo = true ->
            has_field campo
              (List.filter (fun g => negb (same_name (field_name g) "Id")) fs)
            = true).
  { intros g fs Hg Hs. apply has_field_true.
    apply same_name_true in Hs as Hl. rewrite <- Hl.
    apply (list_elem_of_fmap_2 lname). apply list_elem_of_In, filter_In.
    split; [by apply list_elem_of_In|]. apply negb_true_iff.
    destruct (same_name (field_name g) "Id") eqn:Hc; [|done].
    rewrite same_name_sym in Hs.
    by rewrite (same_name_trans _ _ _ Hs Hc) in Hid. }
  unfold_calculate_area in Hcalc. simpl in Hcalc.
  destruct (List.find _ _) as [f|] eqn:Hfind.
  - destruct (is_managed f); [done|]. injection Hcalc as <-. simpl.
    apply find_some in Hfind as [Hin Hs]. apply list_elem_of_In in Hin.
    by eapply Hkeep.
  - injection Hcalc as <-. simpl.
    eapply (Hkeep (new_field campo ft_Double None None None None None None None)).
    + apply elem_of_app. right. apply list_elem_of_here.
    + simpl. by apply same_name_true.
Qed.

Lemma migrated_frame campo p s sr (fc res : FeatureClass) :
  migrated campo p s sr fc = Ok res ->
  fc_spatialReference res = sr
  /\ SHAPE <$> fc_rows res = SHAPE <$> fc_rows fc
  /\ (forall g, g ∈ fc_fields res -> same_name (field_name g) "Id" = false)
  /\ (forall r, r ∈ fc_rows res -> attrs r !! "Id" = None).
Proof.
  unfold migrated. intros H.
  destruct (calculate_area _ _ _) as [t|] eqn:Hcalc; [|done].
  apply delete_field_ok in H. subst res. simpl.
  assert (Ht : fc_spatialReference t = sr
               /\ SHAPE <$> fc_rows t = SHAPE <$> fc_rows fc).
  { unfold_calculate_area in Hcalc. simpl in Hcalc.
    destruct (List.find _ _) as [f|].
    - destruct (is_managed f); [done|]. injection Hcalc as <-. simpl.
      split; [done|]. rewrite <- !list_fmap_compose. done.
    - injection Hcalc as <-. simpl.
      split; [done|]. rewrite <- !list_fmap_compose. done. }
  destruct Ht as [Hsr Hshape]. split; [done|]. split.
  { rewrite <- Hshape, <- list_fmap_compose. done. }
  split.
  - intros g Hg. apply list_elem_of_In, filter_In in Hg as [_ Hg].
    by apply negb_true_iff in Hg.
  - intros r Hr. apply list_elem_of_fmap in Hr as (r0 & -> & _). simpl.
    apply map_lookup_filter_None. right. intros v _. simpl. done.
Qed.

Lemma filter_all {A} (P : A -> bool) (l : list A) :
  (forall x, x ∈ l -> P x = true) -> List.filter P l = l.
Proof.
  induction l as [|x l IH]; intros H; simpl; [done|].
  rewrite (H x) by apply list_elem_of_here.
  f_equal. apply IH. intros y Hy. apply H. by apply list_elem_of_further.
Qed.

Lemma rebuild_not_Id campo p s (fs : list Field) g :
  has_field campo implicit_fields = false ->
  g ∈ omap (rebuild campo p s) fs ->
  same_name (field_name g) "Id" = false.
Proof.
  intros Hcol Hg. apply list_elem_of_omap in Hg as (f & _ & Hr).
  unfold rebuild in Hr. destruct (same_name (field_name f) campo).
  - injection Hr as <-. simpl. apply same_name_false.
    apply has_field_false in Hcol. rewrite lname_implicit_fields in Hcol.
    change (lower "Id") with "id". set_solver.
  - destruct (is_managed f); [done|]. simpl in Hr.
    destruct (same_name (field_name f) "Id") eqn:Hid; [done|].
    by injection Hr as <-.
Qed.

(** The migrated schema of a well-formed collection that has the target
    field, for a target name that is not the name of an implicit field. *)
Lemma migrated_wf campo p s sr (fc res : FeatureClass) :
  wf_schema (fc_fields fc) ->
  has_field campo implicit_fields = false ->
  has_field campo (fc_fields fc) = true ->
  migrated campo p s sr fc = Ok res ->
  fc_fields res
  = FID_field :: Shape_field :: omap (rebuild campo p s) (fc_fields fc).
Proof.
  intros Hwf Hcol Hhas. unfold migrated. intros H.
  destruct (calculate_area _ _ _) as [t|] eqn:Hcalc; [|done].
  apply delete_field_ok in H. subst res. simpl.
  assert (Ht : fc_fields t = temp_schema campo p s (fc_fields fc)).
  { unfold_calculate_area in Hcalc. simpl in Hcalc.
    destruct (List.find _ _) as [f|] eqn:Hfind.
    - destruct (is_managed f); [done|]. by injection Hcalc as <-.
    - exfalso. apply find_same_name_None in Hfind.
      apply has_field_true, list_elem_of_fmap in Hhas as (f0 & Hl & Hin).
      assert (Hs0 : same_name (field_name f0) campo = true)
        by (by apply same_name_true).
      pose proof (temp_schema_has_target campo p s (fc_fields fc)
                    implicit_fields f0 Hin Hs0) as Hhas.
      unfold temp_schema in Hfind. congruence. }
  rewrite Ht, (temp_schema_wf _ _ _ _ Hwf Hcol).
  change (implicit_fields ++ ?l) with (FID_field :: Shape_field :: Id_field :: l).
  cbn [List.filter]. 
  change (negb (same_name (field_name FID_field) "Id")) with true.
  change (negb (same_name (field_name Shape_field) "Id")) with true.
  change (negb (same_name (field_name Id_field) "Id")) with false.
  cbn iota. do 2 f_equal. apply filter_all. intros g Hg.
  apply negb_true_iff. by eapply rebuild_not_Id.
Qed.

Lemma omap_rebuild_survivors campo p s (l : list Field) :
  (forall f, f ∈ l -> same_name (field_name f) campo = false) ->
  omap (rebuild campo p s) l = List.filter survives l.
Proof.
  induction l as [|f l IH]; intros H; [done|].
  cbn [omap list_omap List.filter]. fold (omap (rebuild campo p s) l).
  rewrite IH by (intros g Hg; apply H; by apply list_elem_of_further).
  unfold rebuild, survives. rewrite (H f) by apply list_elem_of_here.
  destruct (is_managed f); [done|]. simpl.
  by destruct (same_name (field_name f) "Id").
Qed.

Lemma NoDup_lname_inj (fs : list Field) f g :
  NoDup (lname <$> fs) -> f ∈ fs -> g ∈ fs -> lname f = lname g -> f = g.
Proof.
  induction fs as [|x fs IH]; intros Hnd Hf Hg Hl; [by apply elem_of_nil in Hf|].
  rewrite fmap_cons in Hnd. apply NoDup_cons in Hnd as [Hx Hnd].
  apply elem_of_cons in Hf as [->|Hf]; apply elem_of_cons in Hg as [->|Hg].
  - done.
  - destruct Hx. rewrite Hl. by apply list_elem_of_fmap_2.
  - destruct Hx. rewrite <- Hl. by apply list_elem_of_fmap_2.
  - by apply IH.
Qed.

(** ** The two paths of the script *)

Lemma slow_path_success path campo p s w w' fc :
  catalog w !! path = Some fc ->
  takes_slow_path campo p s (fc_fields fc) ->
  st_trans_sup_ha path campo p s w = (Ok true, w') ->
  exists res,
    migrated campo p s (fc_spatialReference fc) fc = Ok res
    /\ catalog w' = <[path := res]> (catalog w).
Proof.
  intros Hp Hslow H.
  apply (st_trans_sup_ha_run _ _ _ _ _ _ _ _ Hp) in H
    as [(e0 & _ & ? & _)
       |(_ & w1 & r0 & w2 & Hc1 & He1 & Htry & Hc' & Hr)];
    [done|].
  destruct r0 as [b|e]; [|done]. injection Hr as Hb. subst b.
  assert (Hp1 : catalog w1 !! path = Some fc) by (by rewrite Hc1).
  apply (st_trans_sup_ha_try_run _ _ _ _ _ _ _ _ Hp1) in Htry
    as [(e & ? & _)|(w0 & Hc0 & He0 & Hrun)]; [done|].
  assert (Hrec : recreate path campo p s (fc_spatialReference fc)
                          (fc_fields fc) w0 = (Ok true, w2)).
  { destruct (List.find _ (fc_fields fc)) as [f0|] eqn:Hfind; [|done].
    unfold takes_slow_path in Hslow. rewrite Hfind in Hslow.
    by rewrite Hslow in Hrun. }
  assert (Hp0 : catalog w0 !! path = Some fc) by (by rewrite Hc0, Hc1).
  apply (recreate_run _ _ _ _ _ _ _ _ _ _ Hp0) in Hrec
    as [(e & ? & _)|(tfc & res & Hcalc & Hdel & _ & Hswap)]; [done|].
  assert (Hocs : env_outputCoordinateSystem w0 = Some (fc_spatialReference fc))
    by (unfold env_of in He0; by injection He0).
  rewrite Hocs in Hcalc. simpl in Hcalc.
  exists res. split.
  - unfold migrated. by rewrite Hcalc.
  - inversion Hswap as [_ _ Hr Hc| |]; subst. rewrite Hc', <- Hc.
    rewrite delete_insert_eq, delete_id by apply unique_name_fresh.
    by rewrite Hc0, Hc1.
Qed.

Lemma fast_path_success path campo p s w w' fc field_obj :
  catalog w !! path = Some fc ->
  List.find (fun f => same_name (field_name f) campo) (fc_fields fc)
    = Some field_obj ->
  well_formed field_obj p s = true ->
  st_trans_sup_ha path campo p s w = (Ok true, w') ->
  catalog w'
  = <[path := with_rows (calc_area (fc_spatialReference fc) field_obj
                           <$> fc_rows fc) fc]>
      (catalog w).
Proof.
  intros Hp Hfind Hwf H.
  apply (st_trans_sup_ha_run _ _ _ _ _ _ _ _ Hp) in H
    as [(e0 & _ & ? & _)
       |(_ & w1 & r0 & w2 & Hc1 & He1 & Htry & Hc' & Hr)];
    [done|].
  destruct r0 as [b|e]; [|done]. injection Hr as Hb. subst b.
  assert (Hp1 : catalog w1 !! path = Some fc) by (by rewrite Hc1).
  apply (st_trans_sup_ha_try_run _ _ _ _ _ _ _ _ Hp1) in Htry
    as [(e & ? & _)|(w0 & Hc0 & He0 & Hrun)]; [done|].
  rewrite Hfind, Hwf in Hrun. unfold recalculate in Hrun.
  step_ok Hrun as u1 w3 Hs.
  apply print_run in Hs as (_ & Hc3 & He3).
  step_ok Hrun as u2 w4 Hs.
  apply update_fc_run in Hs as (_ & He4 & fc0 & res & Hfc0 & Hcalc & Hc4).
  rewrite Hc3, Hc0, Hc1, Hp in Hfc0. injection Hfc0 as <-.
  assert (Hocs : env_outputCoordinateSystem w3 = Some (fc_spatialReference fc)).
  { rewrite He0 in He3. unfold env_of in He3. by injection He3. }
  rewrite Hocs in Hcalc. simpl in Hcalc.
  unfold_calculate_area in Hcalc. rewrite Hfind in Hcalc.
  assert (Hm : is_managed field_obj = false).
  { unfold well_formed in Hwf. apply andb_true_iff in Hwf as [Hwf _].
    apply andb_true_iff in Hwf as [Hwf _]. apply bool_decide_eq_true in Hwf.
    unfold is_managed. by rewrite Hwf. }
  rewrite Hm in Hcalc. injection Hcalc as <-.
  step_ok Hrun as u5 w5 Hs.
  apply print_run in Hs as (_ & Hc5 & He5).
  injection Hrun as <-. rewrite Hc', Hc5, Hc4, Hc3, Hc0, Hc1. done.
Qed.

(** ** The claims *)

(** C3: on a location that does not resolve to an existing feature
    collection, once the existence check of line 21 has answered, the call
    returns failure at once, whatever the other services would do: the
    catalog, the geoprocessing environment and the standard output are
    untouched, and the only effect is the not-found diagnostic on the
    standard error.  When the existence check itself fails, its exception
    leaves the call, and nothing at all has changed. *)
Theorem not_found_fails_without_mutation path campo p s (w : World) :
  catalog w !! path = None ->
  (faults (call_Exists path) = None ->
   exists w',
     st_trans_sup_ha path campo p s w = (Ok false, w')
     /\ catalog w' = catalog w
     /\ env_of w' = env_of w
     /\ stdout w' = stdout w
     /\ stderr w'
        = stderr w ++ ["Error: El archivo no existe en la ruta especificada: "
                       +:+ path_str path])
  /\ (forall e, faults (call_Exists path) = Some e ->
                st_trans_sup_ha path campo p s w = (Raise e, w)).
Proof.
  intros Hp. split; [|intros e He; by apply st_trans_sup_ha_escapes].
  intros He.
  unfold st_trans_sup_ha, arcpy_Exists, service, mbind, M_bind, bind.
  rewrite He, Hp. simpl. eexists. split; [reflexivity|]. done.
Qed.

(** C6, amended: the [try] catches what is raised inside it, and only that.
    Once the existence check of line 21 has answered, whatever the inputs,
    the state and the faults of the other services, the call returns a
    boolean; and when the body of the [try] raises, be it an [ExecuteError]
    or any other exception, the result is failure, the catalog is left as the
    failing body left it, and a diagnostic is written to the standard error.
    An exception of the existence check itself, which is called before the
    [try], leaves the call as it is. *)
Theorem failures_inside_the_try_are_caught path campo p s (w : World) :
  (faults (call_Exists path) = None ->
   exists b w',
     st_trans_sup_ha path campo p s w = (Ok b, w')
     /\ forall w0 e w1,
          is_Some (catalog w !! path) ->
          print ("Iniciando procesamiento para: " +:+ basename path) w
            = (Ok (), w0) ->
          st_trans_sup_ha_try path campo p s w0 = (Raise e, w1) ->
          b = false /\ catalog w' = catalog w1 /\ stdout w' = stdout w1
          /\ exists diagnostic,
               diagnostic ≠ [] /\ stderr w' = stderr w1 ++ diagnostic)
  /\ (forall e, faults (call_Exists path) = Some e ->
                st_trans_sup_ha path campo p s w = (Raise e, w)).
Proof.
  split; [|intros e He; by apply st_trans_sup_ha_escapes].
  intros Hex.
  unfold st_trans_sup_ha, arcpy_Exists, service, mbind, M_bind, bind.
  rewrite Hex.
  destruct (catalog w !! path) as [fc|] eqn:Hp.
  - rewrite bool_decide_eq_true_2 by eauto. cbn [negb].
    destruct (print _ w) as [[[]|] w0] eqn:Hprint; [|by apply print_run in Hprint as [? _]].
    unfold try_except.
    destruct (st_trans_sup_ha_try path campo p s w0) as [[b|[m|e]] w1] eqn:Htry.
    + exists b, w1. split; [done|]. intros w0' e w1' _ [= <-]. congruence.
    + eexists false, _. split; [reflexivity|].
      intros w0' e w1' _ [= <-] Htry'. rewrite Htry in Htry'.
      injection Htry' as <- <-. simpl. repeat split.
      eexists [_; m]. split; [done|]. by rewrite <- app_assoc.
    + eexists false, _. split; [reflexivity|].
      intros w0' e' w1' _ [= <-] Htry'. rewrite Htry in Htry'.
      injection Htry' as <- <-. simpl. repeat split.
      eexists [_]. split; [done|]. done.
  - rewrite bool_decide_eq_false_2 by (by intros [? ?]). simpl.
    eexists false, _. split; [reflexivity|]. by intros ? ? ? [? ?].
Qed.

(** C4, amended: the fast path is for a target field of type Double, not for
    any numeric type.  When the target field is present and is a Double with
    the requested precision and scale, and the four services of the fast
    path do not fail, the call returns success and only recomputes the
    target field: the field list, the shape type and the spatial reference
    of the collection are unchanged, every other location is untouched, and
    each feature keeps its geometry and every attribute but the target
    field, which now holds the area in hectares as the field keeps it. *)
Theorem fast_path_recalculates_in_place path campo p s (w : World) fc field_obj :
  catalog w !! path = Some fc ->
  List.find (fun f => same_name (field_name f) campo) (fc_fields fc)
    = Some field_obj ->
  field_type field_obj = ft_Double ->
  field_precision field_obj = p ->
  field_scale field_obj = s ->
  faults (call_Exists path) = None ->
  faults (call_Describe path) = None ->
  faults (call_ListFields path) = None ->
  faults (call_CalculateGeometryAttributes path) = None ->
  exists w' fc',
    st_trans_sup_ha path campo p s w = (Ok true, w')
    /\ catalog w' = <[path := fc']> (catalog w)
    /\ fc_fields fc' = fc_fields fc
    /\ fc_shapeType fc' = fc_shapeType fc
    /\ fc_spatialReference fc' = fc_spatialReference fc
    /\ Forall2
         (fun r r' =>
            SHAPE r' = SHAPE r
            /\ attrs r' !! field_name field_obj
               = Some (stored_number field_obj
                         (area_hectares (fc_spatialReference fc) (SHAPE r)))
            /\ forall k, k ≠ field_name field_obj ->
                         attrs r' !! k = attrs r !! k)
         (fc_rows fc) (fc_rows fc').
Proof.
  intros Hp Hfind Hty Hpr Hsc Hex Hd Hl Hc.
  assert (Hwf : well_formed field_obj p s = true)
    by (unfold well_formed; by rewrite !bool_decide_eq_true_2).
  destruct (st_trans_sup_ha path campo p s w) as [r w'] eqn:Hrun.
  assert (Hr : r = Ok true).
  { revert Hrun.
    unfold st_trans_sup_ha, arcpy_Exists, service, mbind, M_bind, bind,
      try_except.
    rewrite Hex, Hp, bool_decide_eq_true_2 by eauto. cbn [negb print].
    unfold st_trans_sup_ha_try, mbind, M_bind, bind.
    cbn [set_overwriteOutput].
    unfold arcpy_Describe_spatialReference, arcpy_ListFields, query, service.
    rewrite Hd. cbn [catalog]. rewrite Hp. cbn [set_outputCoordinateSystem].
    rewrite Hl. cbn [catalog]. rewrite Hp, Hfind. cbn [print].
    rewrite Hwf. unfold recalculate, mbind, M_bind, bind. cbn [print].
    unfold arcpy_CalculateGeometryAttributes, update_fc, service.
    rewrite Hc. cbn [catalog env_outputCoordinateSystem]. rewrite Hp.
    unfold calculate_geometry. cbn [fst snd]. rewrite Hfind.
    assert (Hm : is_managed field_obj = false)
      by (unfold is_managed; by rewrite Hty).
    rewrite Hm. cbn. by intros [= <- _]. }
  subst r. exists w'. eexists. split; [done|].
  split; [by eapply fast_path_success|]. simpl. repeat split.
  apply Forall2_fmap_r, Forall_Forall2_diag, Forall_forall. intros r _.
  simpl. split; [done|]. split; [apply lookup_insert_eq|].
  intros k Hk. by apply lookup_insert_ne.
Qed.


Lemma Id_is_copied campo p s (fs : list Field) f :
  f ∈ fs -> field_name f = "Id" -> is_managed f = false ->
  same_name "Id" campo = false ->
  "Id" ∈ copy_names campo p s fs.
Proof.
  intros Hin Hname Hm Hs. unfold copy_names, fields_to_copy.
  rewrite <- Hname at 1. apply (list_elem_of_fmap_2 field_name).
  apply list_elem_of_In, filter_In. split; [by apply list_elem_of_In|].
  rewrite Hname, Hs. apply andb_true_iff. split; [|done].
  apply bool_decide_eq_true.
  change "Id" with (field_name Id_field). apply (list_elem_of_fmap_2 field_name).
  apply list_elem_of_In, filter_In. split; [|done].
  apply list_elem_of_In. apply foldl_transfer_step_incl.
  unfold implicit_fields. set_solver.
Qed.

(** C9: on the slow path the field [Id] is deleted from the replacement
    collection before the swap, whatever the original's schema: after a
    successful migration the collection has no field that answers to the
    name [Id] and no feature holds a value under [Id].  An attribute field
    [Id] of the original, when it is not the target, is among the fields
    whose values are copied into the replacement, and is lost all the same. *)
Theorem slow_path_drops_Id path campo p s (w w' : World) fc :
  catalog w !! path = Some fc ->
  takes_slow_path campo p s (fc_fields fc) ->
  st_trans_sup_ha path campo p s w = (Ok true, w') ->
  exists fc',
    catalog w' !! path = Some fc'
    /\ (forall g, g ∈ fc_fields fc' -> field_name g ≠ "Id")
    /\ (forall r, r ∈ fc_rows fc' -> attrs r !! "Id" = None)
    /\ (forall f, f ∈ fc_fields fc -> field_name f = "Id" ->
                  is_managed f = false -> same_name "Id" campo = false ->
                  "Id" ∈ copy_names campo p s (fc_fields fc)
                  /\ f ∉ fc_fields fc').
Proof.
  intros Hp Hslow H.
  destruct (slow_path_success _ _ _ _ _ _ _ Hp Hslow H) as (res & Hm & Hc).
  exists res. split; [rewrite Hc; apply lookup_insert_eq|].
  destruct (migrated_frame _ _ _ _ _ _ Hm) as (_ & _ & Hfields & Hrows).
  assert (Hno : forall g, g ∈ fc_fields res -> field_name g ≠ "Id").
  { intros g Hg Hname. specialize (Hfields g Hg). by rewrite Hname in Hfields. }
  split; [done|]. split; [done|].
  intros f Hin Hname Hman Hs. split; [by eapply Id_is_copied|].
  intros Hf. by apply (Hno f).
Qed.


(** The malformed target field is rebuilt in place among the fields that
    survive.  On a collection whose schema is well-formed (names unique in
    any letter case, and no attribute field under the name [FID] or [Shape]
    in any letter case) and whose target field exists but is malformed, and
    for a target name that is not the name of an implicit field of a new
    collection ([FID], [Shape], [Id]), a successful call leaves at the
    location a collection whose schema is the two collection-managed fields
    followed by the original attribute fields that survive (all but a field
    that answers to [Id]), with their definitions and in their original
    order, and with the target field, redefined as a Double of the requested
    precision and scale under the parameter's name, at the place the old
    target field had among them; the number of rows is the original one. *)
Theorem malformed_field_is_rebuilt_in_order path campo p s (w w' : World)
    fc field_obj :
  catalog w !! path = Some fc ->
  wf_schema (fc_fields fc) ->
  List.find (fun f => same_name (field_name f) campo) (fc_fields fc)
    = Some field_obj ->
  well_formed field_obj p s = false ->
  has_field campo implicit_fields = false ->
  st_trans_sup_ha path campo p s w = (Ok true, w') ->
  exists fc' pre post,
    catalog w' !! path = Some fc'
    /\ fc_fields fc = pre ++ field_obj :: post
    /\ fc_fields fc'
       = FID_field :: Shape_field ::
         List.filter survives pre
         ++ target_field campo p s :: List.filter survives post
    /\ well_formed (target_field campo p s) p s = true
    /\ length (fc_rows fc') = length (fc_rows fc).
Proof.
  intros Hp Hwf Hfind Hmal Hcol H.
  assert (Hslow : takes_slow_path campo p s (fc_fields fc))
    by (unfold takes_slow_path; by rewrite Hfind).
  destruct (slow_path_success _ _ _ _ _ _ _ Hp Hslow H) as (res & Hm & Hc).
  apply find_same_name_Some in Hfind as [Hin0 Hl0].
  assert (Hhas : has_field campo (fc_fields fc) = true).
  { apply has_field_true. rewrite <- Hl0. by apply (list_elem_of_fmap_2 lname). }
  pose proof (migrated_wf _ _ _ _ _ _ Hwf Hcol Hhas Hm) as Hfields.
  destruct (migrated_frame _ _ _ _ _ _ Hm) as (_ & Hshape & _).
  apply list_elem_of_split in Hin0 as (pre & post & Hsplit).
  exists res, pre, post. split; [rewrite Hc; apply lookup_insert_eq|].
  split; [done|].
  destruct Hwf as [Hnd _]. rewrite Hsplit, fmap_app, fmap_cons in Hnd.
  apply NoDup_app in Hnd as (_ & Hpre & Hnd).
  apply NoDup_cons in Hnd as [Hpost _].
  assert (Hother : forall l : list Field, lname field_obj ∉ lname <$> l ->
            forall f, f ∈ l -> same_name (field_name f) campo = false).
  { intros l Hl f Hf. apply same_name_false. intros Heq. apply Hl.
    rewrite Hl0. unfold lname. rewrite <- Heq.
    by apply (list_elem_of_fmap_2 (fun f => lower (field_name f))). }
  split.
  - rewrite Hfields, Hsplit, omap_app. cbn [omap list_omap].
    fold (omap (rebuild campo p s) post).
    assert (rebuild campo p s field_obj = Some (target_field campo p s)) as ->.
    { unfold rebuild.
      by rewrite (proj2 (same_name_true (field_name field_obj) campo) Hl0). }
    rewrite !(omap_rebuild_survivors campo p s); [done| |].
    + by apply Hother.
    + apply Hother. intros Hin. apply (Hpre _ Hin). apply list_elem_of_here.
  - split.
    + unfold well_formed. simpl. by rewrite !bool_decide_eq_true_2.
    + apply (f_equal length) in Hshape. by rewrite !length_fmap in Hshape.
Qed.


(** ** Further properties *)

Lemma calc_area_fixed sr (f : Field) (r : Feature) :
  attrs r !! field_name f
  = Some (stored_number f (area_hectares sr (SHAPE r))) ->
  calc_area sr f r = r.
Proof.
  intros H. destruct r as [g a]. unfold calc_area, calc_geometry. simpl in *.
  f_equal. by apply insert_id.
Qed.

Lemma calc_area_rows_fixed sr (f : Field) (rows : list Feature) :
  (forall r, r ∈ rows ->
             attrs r !! field_name f
             = Some (stored_number f (area_hectares sr (SHAPE r)))) ->
  calc_area sr f <$> rows = rows.
Proof.
  induction rows as [|r rows IH]; intros H; [done|].
  rewrite fmap_cons, calc_area_fixed by (apply H, list_elem_of_here).
  f_equal. apply IH. intros r' Hr'. apply H. by apply list_elem_of_further.
Qed.

(** A call on a collection whose target field is well-formed and already
    holds the areas leaves the catalog as it is, whatever the faults. *)
Lemma call_on_settled_collection path campo p s (w w' : World) r fc g :
  catalog w !! path = Some fc ->
  List.find (fun f => same_name (field_name f) campo) (fc_fields fc) = Some g ->
  well_formed g p s = true ->
  (forall x, x ∈ fc_rows fc ->
     attrs x !! field_name g
     = Some (stored_number g
               (area_hectares (fc_spatialReference fc) (SHAPE x)))) ->
  st_trans_sup_ha path campo p s w = (r, w') ->
  catalog w' = catalog w.
Proof.
  intros Hp Hfind Hwf Hval H.
  apply (st_trans_sup_ha_run _ _ _ _ _ _ _ _ Hp) in H
    as [(e0 & _ & _ & ->)
       |(_ & w1 & r0 & w2 & Hc1 & He1 & Htry & Hc' & Hr)];
    [done|].
  assert (Hp1 : catalog w1 !! path = Some fc) by (by rewrite Hc1).
  apply (st_trans_sup_ha_try_run _ _ _ _ _ _ _ _ Hp1) in Htry
    as [(e & ? & Hc2)|(w0 & Hc0 & He0 & Hrun)]; [congruence|].
  rewrite Hfind, Hwf in Hrun. unfold recalculate in Hrun.
  step Hrun as u1 w3 Hs; [|by apply print_run in Hrun as [? _]].
  apply print_run in Hs as (_ & Hc3 & He3).
  assert (Hc3' : catalog w3 = catalog w) by congruence.
  step Hrun as u2 w4 Hs.
  2:{ apply update_fc_run in Hrun. subst w2. congruence. }
  apply update_fc_run in Hs as (_ & He4 & fc0 & res & Hfc0 & Hcalc & Hc4).
  rewrite Hc3', Hp in Hfc0. injection Hfc0 as <-.
  assert (Hocs : env_outputCoordinateSystem w3 = Some (fc_spatialReference fc)).
  { rewrite He0 in He3. unfold env_of in He3. by injection He3. }
  rewrite Hocs in Hcalc. simpl in Hcalc.
  unfold_calculate_area in Hcalc. rewrite Hfind in Hcalc.
  destruct (is_managed g); [done|]. injection Hcalc as <-.
  rewrite calc_area_rows_fixed, with_rows_id in Hc4 by done.
  rewrite Hc3', insert_id in Hc4 by done.
  step Hrun as u5 w5 Hs; [|by apply print_run in Hrun as [? _]].
  apply print_run in Hs as (_ & Hc5 & He5).
  injection Hrun as _ <-. congruence.
Qed.

(** After a successful call on a collection that has the target field, the
    collection is settled: its target field is well-formed and holds the
    areas. *)
Lemma first_call_settles path campo p s (w w1 : World) fc :
  catalog w !! path = Some fc ->
  NoDup (lname <$> fc_fields fc) ->
  has_field campo (fc_fields fc) = true ->
  same_name campo "Id" = false ->
  st_trans_sup_ha path campo p s w = (Ok true, w1) ->
  exists fc1 g,
    catalog w1 !! path = Some fc1
    /\ List.find (fun f => same_name (field_name f) campo) (fc_fields fc1)
       = Some g
    /\ well_formed g p s = true
    /\ forall x, x ∈ fc_rows fc1 ->
         attrs x !! field_name g
         = Some (stored_number g
                   (area_hectares (fc_spatialReference fc1) (SHAPE x))).
Proof.
  intros Hp Hnd Hhas Hid H1.
  destruct (List.find (fun f => same_name (field_name f) campo) (fc_fields fc))
    as [f0|] eqn:Hfind.
  2:{ apply find_same_name_None in Hfind. congruence. }
  destruct (well_formed f0 p s) eqn:Hwf.
  - (* the call took the fast path *)
    pose proof (fast_path_success _ _ _ _ _ _ _ _ Hp Hfind Hwf H1) as Hc.
    eexists _, f0. split; [rewrite Hc; apply lookup_insert_eq|].
    split; [exact Hfind|]. split; [exact Hwf|].
    intros x Hx. simpl in Hx.
    apply list_elem_of_fmap in Hx as (x0 & -> & _). simpl.
    apply lookup_insert_eq.
  - (* the call took the slow path *)
    assert (Hslow : takes_slow_path campo p s (fc_fields fc))
      by (unfold takes_slow_path; by rewrite Hfind).
    destruct (slow_path_success _ _ _ _ _ _ _ Hp Hslow H1) as (res & Hm & Hc).
    pose proof (migrated_has_target _ _ _ _ _ _ Hm Hid) as Hres.
    destruct (List.find (fun f => same_name (field_name f) campo)
                        (fc_fields res)) as [g|] eqn:Hg.
    2:{ apply find_same_name_None in Hg. congruence. }
    pose proof Hg as Hg'. apply find_some in Hg' as [Hin Hs].
    apply list_elem_of_In in Hin.
    destruct (migrated_target _ _ _ _ _ _ _ Hm Hin Hs)
      as (_ & Hname & _ & Htarget & Hval).
    destruct (migrated_frame _ _ _ _ _ _ Hm) as (Hsr & _).
    exists res, g. split; [rewrite Hc; apply lookup_insert_eq|].
    split; [exact Hg|]. split.
    + rewrite (Htarget Hhas). unfold well_formed. simpl.
      by rewrite !bool_decide_eq_true_2.
    + intros x Hx. rewrite Hname, Hsr. by apply Hval.
Qed.

(** The missing target field: on a well-formed collection without a field
    of the target's name, and for a target name that is not the name of an
    implicit field, a successful call leaves the two collection-managed
    fields, the surviving original attribute fields in their order, and at
    the end the target field with the default definition that
    [CalculateGeometryAttributes] gives a field it adds; the script itself
    adds no target field, and the requested precision and scale play no
    part. *)
Theorem missing_field_is_added_with_default_definition path campo p s
    (w w' : World) fc :
  catalog w !! path = Some fc ->
  wf_schema (fc_fields fc) ->
  has_field campo (fc_fields fc) = false ->
  has_field campo implicit_fields = false ->
  st_trans_sup_ha path campo p s w = (Ok true, w') ->
  exists fc',
    catalog w' !! path = Some fc'
    /\ temp_schema campo p s (fc_fields fc)
       = implicit_fields ++ List.filter survives (fc_fields fc)
    /\ fc_fields fc'
       = FID_field :: Shape_field :: List.filter survives (fc_fields fc)
         ++ [new_field campo ft_Double None None None None None None None]
    /\ length (fc_rows fc') = length (fc_rows fc).
Proof.
  intros Hp Hwf Hno Hcol H.
  assert (Hfind : List.find (fun f => same_name (field_name f) campo)
                            (fc_fields fc) = None)
    by (by apply find_same_name_None).
  assert (Hslow : takes_slow_path campo p s (fc_fields fc))
    by (unfold takes_slow_path; by rewrite Hfind).
  destruct (slow_path_success _ _ _ _ _ _ _ Hp Hslow H) as (res & Hm & Hc).
  exists res. split; [rewrite Hc; apply lookup_insert_eq|].
  assert (Hother : forall f, f ∈ fc_fields fc ->
                             same_name (field_name f) campo = false).
  { intros f Hf. apply same_name_false. intros Heq.
    apply has_field_false in Hno. apply Hno. rewrite <- Heq.
    by apply (list_elem_of_fmap_2 lname). }
  assert (Hschema : temp_schema campo p s (fc_fields fc)
                    = implicit_fields ++ List.filter survives (fc_fields fc)).
  { rewrite (temp_schema_wf _ _ _ _ Hwf Hcol).
    by rewrite (omap_rebuild_survivors campo p s _ Hother). }
  split; [done|].
  destruct (migrated_frame _ _ _ _ _ _ Hm) as (_ & Hshape & _).
  split.
  2:{ apply (f_equal length) in Hshape. by rewrite !length_fmap in Hshape. }
  unfold migrated in Hm.
  destruct (calculate_area _ _ _) as [t|] eqn:Hcalc; [|done].
  apply delete_field_ok in Hm. subst res. simpl.
  unfold_calculate_area in Hcalc. simpl in Hcalc.
  assert (Hnone : List.find (fun f => same_name (field_name f) campo)
                    (temp_schema campo p s (fc_fields fc)) = None).
  { apply find_same_name_None, has_field_false. rewrite Hschema, fmap_app.
    intros Hin. apply elem_of_app in Hin as [Hin|Hin].
    - apply has_field_false in Hcol. by apply Hcol.
    - apply list_elem_of_fmap in Hin as (f & Hl & Hf).
      apply list_elem_of_In, filter_In in Hf as [Hf _].
      apply list_elem_of_In in Hf.
      specialize (Hother f Hf). apply same_name_false in Hother. done. }
  rewrite Hnone in Hcalc. injection Hcalc as <-. simpl.
  rewrite Hschema.
  change (implicit_fields ++ ?l) with (FID_field :: Shape_field :: Id_field :: l).
  cbn [app List.filter].
  change (negb (same_name (field_name FID_field) "Id")) with true.
  change (negb (same_name (field_name Shape_field) "Id")) with true.
  change (negb (same_name (field_name Id_field) "Id")) with false.
  cbn iota. do 2 f_equal. apply filter_all. intros g Hg.
  apply negb_true_iff. apply elem_of_app in Hg as [Hg|Hg].
  - apply list_elem_of_In, filter_In in Hg as [_ Hg]. unfold survives in Hg.
    apply andb_true_iff in Hg as [_ Hg]. by apply negb_true_iff in Hg.
  - apply list_elem_of_singleton in Hg as ->. simpl. apply same_name_false.
    apply has_field_false in Hcol. rewrite lname_implicit_fields in Hcol.
    change (lower "Id") with "id". set_solver.
Qed.

(** ** Invariants of a run *)

Lemma keeps_prim {A} (P : World -> World -> Prop) (m : M A) :
  (forall w, P w (m w).2) -> keeps P m.
Proof. intros H w r w' E. specialize (H w). by rewrite E in H. Qed.

Lemma keeps_bind {A B} (P : World -> World -> Prop) `{!PreOrder P}
    (c : M A) (k : A -> M B) :
  keeps P c -> (forall a, keeps P (k a)) -> keeps P (c ≫= k).
Proof.
  intros Hc Hk w r w' H.
  apply bind_run in H as [(a & w1 & H1 & H2)|(e & H1 & _)].
  - transitivity w1; [by eapply Hc|by eapply Hk].
  - by eapply Hc.
Qed.

Lemma keeps_for_each {A} (P : World -> World -> Prop) `{!PreOrder P}
    (l : list A) (body : A -> M ()) :
  (forall x, keeps P (body x)) -> keeps P (for_each l body).
Proof.
  intros Hb. induction l as [|x l IH].
  - intros w r w' [= _ <-]. reflexivity.
  - simpl. apply (keeps_bind P (body x) (fun _ => for_each l body)); [done|].
    by intros _.
Qed.

(** A computation of the script is taken apart along its binds, loops and
    branches; what is left are single services, settled by [fin] after their
    definitions are unfolded. *)
Ltac keeps_service fin :=
  apply keeps_prim; intros ?;
  unfold set_overwriteOutput, set_outputCoordinateSystem, get_scratchFolder,
    print, print_err, arcpy_Describe_spatialReference, arcpy_ListFields,
    arcpy_CreateUniqueName, arcpy_CreateFeatureclass, arcpy_AddField,
    arcpy_da_SearchCursor, arcpy_da_InsertCursor, insertRow,
    arcpy_CalculateGeometryAttributes, arcpy_DeleteField, arcpy_Delete,
    arcpy_CopyFeatures, query, update_fc, service, mret, M_ret, ret;
  cbv beta; repeat case_match; fin.

Ltac keeps_script fin :=
  cbv beta zeta;
  lazymatch goal with
  | |- keeps _ (_ ≫= _) =>
      apply keeps_bind; [apply _|keeps_script fin|intros ?; keeps_script fin]
  | |- keeps _ (for_each _ _) =>
      apply keeps_for_each; [apply _|intros ?; keeps_script fin]
  | |- keeps _ (match ?x with _ => _ end) => destruct x; keeps_script fin
  | |- keeps _ _ => keeps_service fin
  end.

Ltac same_stderr_service := unfold same_stderr; simpl; reflexivity.
Ltac same_env_service := unfold same_env, env_of; simpl; reflexivity.
Ltac same_outside_service :=
  let x := fresh "x" in
  intros x ? ?; simpl;
  rewrite ?lookup_insert_ne, ?lookup_delete_ne by done; reflexivity.

Lemma try_keeps_stderr path campo p s :
  keeps same_stderr (st_trans_sup_ha_try path campo p s).
Proof.
  unfold st_trans_sup_ha_try, recalculate, recreate, build_temp,
    replace_original, transfer_field.
  keeps_script same_stderr_service.
Qed.

Lemma keeps_elim {A} (P : World -> World -> Prop) (m : M A) w r w' :
  m w = (r, w') -> keeps P m -> P w w'.
Proof. intros H K. by eapply K. Qed.

(** Every [return] of the body of the [try] is a [return True]. *)
Lemma try_returns_true path campo p s w b w' fc :
  catalog w !! path = Some fc ->
  st_trans_sup_ha_try path campo p s w = (Ok b, w') -> b = true.
Proof.
  intros Hp H.
  apply (st_trans_sup_ha_try_run _ _ _ _ _ _ _ _ Hp) in H
    as [(e & ? & _)|(w0 & Hc0 & He0 & Hrun)]; [done|].
  assert (Hp0 : catalog w0 !! path = Some fc) by (by rewrite Hc0).
  assert (Hrec : forall sr fs,
            recreate path campo p s sr fs w0 = (Ok b, w') -> b = true).
  { intros sr fs Hrec.
    apply (recreate_run _ _ _ _ _ _ _ _ _ _ Hp0) in Hrec
      as [(e & ? & _)|(tfc & res & _ & _ & _ & Hswap)]; [done|].
    by inversion Hswap. }
  destruct (List.find _ _) as [f0|]; [|by eapply Hrec].
  destruct (well_formed f0 p s); [|by eapply Hrec].
  unfold recalculate in Hrun.
  step_ok Hrun as u1 w1 H1. step_ok Hrun as u2 w2 H2.
  step_ok Hrun as u3 w3 H3. by injection Hrun as <-.
Qed.

(** The standard error tells failure from success, for a call that returns.
    A call ends in one of three ways: it returns [True], and has written
    nothing to the standard error; it returns [False], and has appended a
    diagnostic to it, the lines that were there staying; or the existence
    check of line 21 fails, and its exception leaves the call with nothing
    written and nothing changed. *)
Theorem failure_is_reported_on_stderr path campo p s (w w' : World) r :
  st_trans_sup_ha path campo p s w = (r, w') ->
  (r = Ok true /\ stderr w' = stderr w)
  \/ (r = Ok false
      /\ exists diagnostic,
           diagnostic ≠ [] /\ stderr w' = stderr w ++ diagnostic)
  \/ (exists e,
        faults (call_Exists path) = Some e /\ r = Raise e /\ w' = w).
Proof.
  destruct (faults (call_Exists path)) as [e|] eqn:Hex.
  { rewrite (st_trans_sup_ha_escapes _ _ _ _ _ _ Hex). intros [= <- <-].
    right. right. eauto. }
  unfold st_trans_sup_ha, arcpy_Exists, service, mbind, M_bind, bind.
  rewrite Hex.
  destruct (catalog w !! path) as [fc|] eqn:Hp.
  - rewrite bool_decide_eq_true_2 by eauto. cbn [negb].
    destruct (print _ w) as [[[]|] w0] eqn:Hprint;
      [|by apply print_run in Hprint as [? _]].
    assert (Herr0 : stderr w0 = stderr w)
      by (unfold print in Hprint; by injection Hprint as <-).
    apply print_run in Hprint as (_ & Hc0 & _).
    unfold try_except.
    destruct (st_trans_sup_ha_try path campo p s w0) as [[b|[m|e]] w1] eqn:Htry;
      pose proof (try_keeps_stderr _ _ _ _ _ _ _ Htry) as Herr1;
      unfold same_stderr in Herr1.
    + intros [= <- <-]. left. split; [|congruence]. f_equal.
      eapply try_returns_true; [|exact Htry]. by rewrite Hc0.
    + simpl. intros [= <- <-]. right. left. split; [done|].
      eexists [_; m]. split; [done|]. simpl.
      by rewrite Herr1, Herr0, <- app_assoc.
    + simpl. intros [= <- <-]. right. left. split; [done|].
      eexists [_]. split; [done|]. simpl. by rewrite Herr1, Herr0.
  - rewrite bool_decide_eq_false_2 by (by intros [? ?]). simpl.
    intros [= <- <-]. right. left. split; [done|]. eexists [_]. by split.
Qed.

(** The environment settings of lines 29 and 34 are not restored.  A call
    on an existing location that gets past the existence check of line 21
    leaves, however it ends, overwriting of outputs enabled and the scratch
    folder as it was; the output coordinate system is that of the
    collection, unless the call failed at [Describe], which leaves it as it
    was.  A call whose existence check fails ends in the exception of the
    check, before line 29, and leaves the whole environment as it was. *)
Theorem environment_is_left_changed path campo p s (w w' : World) r fc :
  catalog w !! path = Some fc ->
  st_trans_sup_ha path campo p s w = (r, w') ->
  (exists e, faults (call_Exists path) = Some e /\ r = Raise e /\ w' = w)
  \/ (faults (call_Exists path) = None
      /\ env_overwriteOutput w' = true
      /\ env_scratchFolder w' = env_scratchFolder w
      /\ (env_outputCoordinateSystem w' = Some (fc_spatialReference fc)
          \/ (is_Some (faults (call_Describe path)) /\ r = Ok false
              /\ env_outputCoordinateSystem w'
                 = env_outputCoordinateSystem w))).
Proof.
  intros Hp H.
  destruct (faults (call_Exists path)) as [e|] eqn:Hex.
  { rewrite (st_trans_sup_ha_escapes _ _ _ _ _ _ Hex) in H.
    injection H as <- <-. left. eauto. }
  right. split; [done|].
  assert (Htry : forall w0 r0 w1,
            catalog w0 !! path = Some fc ->
            st_trans_sup_ha_try path campo p s w0 = (r0, w1) ->
            env_of w1 = (true, Some (fc_spatialReference fc),
                         env_scratchFolder w0)
            \/ (is_Some (faults (call_Describe path))
                /\ (exists e, r0 = Raise e)
                /\ env_of w1 = (true, env_outputCoordinateSystem w0,
                                env_scratchFolder w0))).
  { clear. intros w r w' Hp H. unfold st_trans_sup_ha_try in H.
    step H as u1 w1 Hs; [|discriminate].
    unfold set_overwriteOutput in Hs. injection Hs as _ Hw1.
    step H as spatial_ref w2 Hs.
    2:{ right. unfold arcpy_Describe_spatialReference, query in H.
        apply service_run in H as [(e' & Hf & _ & ->)|[_ H]].
        - split; [by rewrite Hf|]. split; [eauto|]. by rewrite <- Hw1.
        - rewrite <- Hw1 in H. simpl in H. by rewrite Hp in H. }
    apply query_run in Hs as [-> Hq].
    destruct (Hq _ eq_refl) as (_ & fc0 & Hfc0 & Hsr). clear Hq.
    rewrite <- Hw1 in Hfc0. simpl in Hfc0. rewrite Hp in Hfc0.
    injection Hfc0 as <-. injection Hsr as <-.
    step H as u3 w3 Hs; [|discriminate].
    unfold set_outputCoordinateSystem in Hs. injection Hs as _ Hw3.
    left. apply (keeps_elim same_env) in H.
    - unfold same_env in H. rewrite H, <- Hw3, <- Hw1. done.
    - unfold recalculate, recreate, build_temp, replace_original,
        transfer_field.
      keeps_script same_env_service. }
  unfold st_trans_sup_ha in H.
  step H as found w0 Hs.
  2:{ apply arcpy_Exists_run in H as (_ & [(e' & ? & _)|[_ ?]]); congruence. }
  apply arcpy_Exists_run in Hs as (-> & [(e' & _ & ?)|[_ Hfound]]); [done|].
  injection Hfound as ->.
  rewrite Hp, bool_decide_eq_true_2 in H by eauto. simpl in H.
  step H as u1 w1 Hs; [|by apply print_run in H as [? _]].
  apply print_run in Hs as (_ & Hc1 & He1).
  unfold try_except in H.
  destruct (st_trans_sup_ha_try path campo p s w1) as [r0 w2] eqn:Hrun.
  assert (Hp1 : catalog w1 !! path = Some fc) by (by rewrite Hc1).
  specialize (Htry _ _ _ Hp1 Hrun).
  assert (He' : env_of w' = env_of w2
                /\ r = Ok (match r0 with Ok b => b | Raise _ => false end)).
  { destruct r0 as [b|[m|e]]; simpl in H.
    - by injection H as <- <-.
    - unfold mbind, M_bind, bind, print_err, mret, M_ret, ret in H.
      simpl in H. by injection H as <- <-.
    - unfold mbind, M_bind, bind, print_err, mret, M_ret, ret in H.
      simpl in H. by injection H as <- <-. }
  destruct He' as [He' Hr]. unfold env_of in *.
  injection He1 as Ho1 Hcs1 Hs1.
  destruct Htry as [Htry|(Hf & (e & ->) & Htry)];
    rewrite <- He' in Htry; injection Htry as Ho Hcs Hs.
  - split; [done|]. split; [congruence|]. by left.
  - split; [done|]. split; [congruence|]. right.
    split; [done|]. split; [done|]. congruence.
Qed.

(** ** The locations a call touches *)

Lemma first_free_dirname (c : gmap Path FeatureClass) cands fb ws :
  dirname fb = ws -> Forall (fun q => dirname q = ws) cands ->
  dirname (first_free c cands fb) = ws.
Proof.
  intros Hfb. induction 1 as [|q cands Hq _ IH]; [done|].
  simpl. by destruct (decide (c !! q = None)).
Qed.

Lemma unique_name_dirname (c : gmap Path FeatureClass) base ws :
  dirname (unique_name c base ws) = ws.
Proof.
  unfold unique_name. apply first_free_dirname; [done|].
  constructor; [done|]. apply Forall_fmap, Forall_forall. by intros k _.
Qed.

Lemma recalculate_outside path campo q :
  keeps (same_outside path q) (recalculate path campo).
Proof. unfold recalculate. keeps_script same_outside_service. Qed.

Lemma replace_original_outside path temp :
  keeps (same_outside path temp) (replace_original path temp).
Proof. unfold replace_original. keeps_script same_outside_service. Qed.

Lemma recreate_outside path campo p s sr fs w r w' fc :
  catalog w !! path = Some fc ->
  recreate path campo p s sr fs w = (r, w') ->
  same_outside path
    (unique_name (catalog w) "temp_output.shp" (env_scratchFolder w)) w w'.
Proof.
  intros Hp H. unfold recreate in H.
  set (temp := unique_name _ _ _).
  assert (Hins : forall (w1 : World) tfc,
            catalog w1 = <[temp := tfc]> (catalog w) ->
            same_outside path temp w w1).
  { intros w1 tfc Hc x _ Hx. by rewrite Hc, lookup_insert_ne. }
  step H as t w1 Hs.
  - apply (build_temp_run _ _ _ _ _ _ _ _ _ _ Hp) in Hs as (_ & _ & Hok).
    destruct (Hok _ eq_refl) as (-> & tfc & _ & Hc). fold temp in H, Hc.
    transitivity w1; [by eapply Hins|].
    by eapply replace_original_outside.
  - apply (build_temp_run _ _ _ _ _ _ _ _ _ _ Hp) in H as (_ & Hc & _).
    fold temp in Hc. destruct Hc as [Hc|[tfc Hc]]; [|by eapply Hins].
    intros x _ _. by rewrite Hc.
Qed.

(** The only locations a call can change are the input location and the
    temporary location, which is a free location in the scratch folder.
    However the call ends and whatever the services do, every other location
    of the catalog is as it was, so no existing collection but the input is
    modified, replaced or deleted; and after a call that returns [True] the
    temporary location is free again. *)
Theorem other_collections_are_untouched path campo p s (w w' : World) r :
  st_trans_sup_ha path campo p s w = (r, w') ->
  let temp :=
    unique_name (catalog w) "temp_output.shp" (env_scratchFolder w) in
  catalog w !! temp = None
  /\ dirname temp = env_scratchFolder w
  /\ (forall q, q ≠ path -> q ≠ temp -> catalog w' !! q = catalog w !! q)
  /\ (forall q fc, q ≠ path -> catalog w !! q = Some fc ->
                   catalog w' !! q = Some fc)
  /\ (r = Ok true -> catalog w' !! temp = None).
Proof.
  intros H temp.
  assert (Hfresh : catalog w !! temp = None) by apply unique_name_fresh.
  split; [done|]. split; [apply unique_name_dirname|].
  assert (Hframe : forall q, q ≠ path -> q ≠ temp ->
                             catalog w' !! q = catalog w !! q).
  { destruct (catalog w !! path) as [fc|] eqn:Hp.
    2:{ apply (st_trans_sup_ha_not_found _ _ _ _ _ _ _ Hp) in H as [Hc _].
        intros q _ _. by rewrite Hc. }
    apply (st_trans_sup_ha_run _ _ _ _ _ _ _ _ Hp) in H
      as [(e0 & _ & _ & ->)
         |(_ & w1 & r0 & w2 & Hc1 & He1 & Htry & Hc' & _)];
      [done|].
    assert (Hp1 : catalog w1 !! path = Some fc) by (by rewrite Hc1).
    apply (st_trans_sup_ha_try_run _ _ _ _ _ _ _ _ Hp1) in Htry
      as [(e & _ & Hc2)|(w0 & Hc0 & He0 & Hrun)].
    { intros q _ _. by rewrite Hc', Hc2, Hc1. }
    assert (Hp0 : catalog w0 !! path = Some fc) by (by rewrite Hc0).
    assert (Htemp : unique_name (catalog w0) "temp_output.shp"
                      (env_scratchFolder w0) = temp).
    { unfold temp. unfold env_of in He0, He1.
      injection He0 as _ _ ->. injection He1 as _ _ ->.
      by rewrite Hc0, Hc1. }
    assert (Hout : same_outside path temp w0 w2).
    { destruct (List.find _ _) as [f0|];
        [destruct (well_formed f0 p s)|].
      - by eapply recalculate_outside.
      - rewrite <- Htemp. by eapply recreate_outside.
      - rewrite <- Htemp. by eapply recreate_outside. }
    intros q Hq1 Hq2. rewrite Hc', (Hout q Hq1 Hq2). by rewrite Hc0, Hc1. }
  split; [done|]. split.
  - intros q fc Hq Hfc. destruct (decide (q = temp)) as [->|Hne]; [congruence|].
    by rewrite Hframe.
  - intros ->. destruct (catalog w !! path) as [fc|] eqn:Hp.
    2:{ by apply (st_trans_sup_ha_not_found _ _ _ _ _ _ _ Hp) in H as [_ ?]. }
    assert (Hne : temp ≠ path) by (intros Heq; congruence).
    destruct (List.find (fun f => same_name (field_name f) campo)
                        (fc_fields fc)) as [f0|] eqn:Hfind;
      [destruct (well_formed f0 p s) eqn:Hwf|].
    + rewrite (fast_path_success _ _ _ _ _ _ _ _ Hp Hfind Hwf H).
      by rewrite lookup_insert_ne.
    + assert (Hslow : takes_slow_path campo p s (fc_fields fc))
        by (unfold takes_slow_path; by rewrite Hfind).
      destruct (slow_path_success _ _ _ _ _ _ _ Hp Hslow H) as (res & _ & ->).
      by rewrite lookup_insert_ne.
    + assert (Hslow : takes_slow_path campo p s (fc_fields fc))
        by (unfold takes_slow_path; by rewrite Hfind).
      destruct (slow_path_success _ _ _ _ _ _ _ Hp Hslow H) as (res & _ & ->).
      by rewrite lookup_insert_ne.
Qed.

(** ** What the slow path keeps of the original *)

Lemma not_implicit_not_Id campo :
  has_field campo implicit_fields = false -> same_name campo "Id" = false.
Proof.
  intros Hcol. apply has_field_false in Hcol.
  rewrite lname_implicit_fields in Hcol. apply same_name_false.
  change (lower "Id") with "id". intros Heq. apply Hcol. rewrite Heq.
  apply list_elem_of_further, list_elem_of_further, list_elem_of_here.
Qed.

Lemma list_to_map_zip_fmap (f : string -> Value) (names : list string) n :
  n ∈ names ->
  (list_to_map (zip names (f <$> names)) : gmap string Value) !! n
  = Some (f n).
Proof.
  induction names as [|a l IH]; intros Hin; [by apply elem_of_nil in Hin|].
  simpl. destruct (decide (a = n)) as [->|Hne].
  - apply lookup_insert_eq.
  - rewrite lookup_insert_ne by done. apply IH.
    apply elem_of_cons in Hin as [?|?]; [congruence|done].
Qed.

Lemma copy_feature_value names (r : Feature) n :
  n ∈ names -> attrs (copy_feature names r) !! n = Some (get_value r n).
Proof.
  intros Hin. unfold copy_feature, new_feature. simpl.
  by apply list_to_map_zip_fmap.
Qed.

Lemma migrated_rows campo p s sr (fc res : FeatureClass) :
  migrated campo p s sr fc = Ok res ->
  has_field campo implicit_fields = false ->
  exists f : Field,
    field_name f = campo
    /\ fc_rows res
       = drop_value "Id" <$>
           (calc_area sr f <$>
              (copy_feature (copy_names campo p s (fc_fields fc))
                 <$> fc_rows fc)).
Proof.
  intros Hm Hcol. unfold migrated in Hm.
  destruct (calculate_area _ _ _) as [t|] eqn:Hcalc; [|done].
  apply delete_field_ok in Hm. subst res.
  unfold_calculate_area in Hcalc. cbn [fc_fields fc_rows filled_temp] in Hcalc.
  destruct (List.find _ (temp_schema _ _ _ _)) as [g|] eqn:Hg.
  - destruct (is_managed g) eqn:Hmg; [done|]. injection Hcalc as <-.
    apply temp_schema_find in Hg; [|done|by apply not_implicit_not_Id].
    subst g. by exists (target_field campo p s).
  - injection Hcalc as <-. by eexists (new_field campo _ _ _ _ _ _ _ _).
Qed.

Lemma migrated_fields_incl campo p s sr (fc res : FeatureClass) g :
  migrated campo p s sr fc = Ok res ->
  g ∈ temp_schema campo p s (fc_fields fc) ->
  same_name (field_name g) "Id" = false ->
  g ∈ fc_fields res.
Proof.
  intros Hm Hg Hid. unfold migrated in Hm.
  destruct (calculate_area _ _ _) as [t|] eqn:Hcalc; [|done].
  apply delete_field_ok in Hm. subst res. simpl.
  apply list_elem_of_In, filter_In. rewrite Hid. split; [|done].
  apply list_elem_of_In.
  unfold_calculate_area in Hcalc. simpl in Hcalc.
  destruct (List.find _ (temp_schema _ _ _ _)) as [g0|].
  - destruct (is_managed g0); [done|]. by injection Hcalc as <-.
  - injection Hcalc as <-. simpl. apply elem_of_app. by left.
Qed.

Lemma survivor_in_temp_schema campo p s fs f :
  wf_schema fs -> has_field campo implicit_fields = false ->
  f ∈ fs -> survives f = true -> same_name (field_name f) campo = false ->
  f ∈ temp_schema campo p s fs.
Proof.
  intros Hwf Hcol Hf Hs Hc. rewrite temp_schema_wf by done.
  apply elem_of_app. right. apply list_elem_of_omap. exists f.
  split; [done|]. unfold rebuild. rewrite Hc.
  unfold survives in Hs. apply andb_true_iff in Hs as [Hm Hid].
  apply negb_true_iff in Hm, Hid. by rewrite Hm, Hid.
Qed.

Lemma survivor_is_copied campo p s fs f :
  wf_schema fs -> has_field campo implicit_fields = false ->
  f ∈ fs -> survives f = true -> same_name (field_name f) campo = false ->
  field_name f ∈ copy_names campo p s fs.
Proof.
  intros Hwf Hcol Hf Hs Hc. unfold copy_names, fields_to_copy.
  apply (list_elem_of_fmap_2 field_name).
  apply list_elem_of_In, filter_In. split; [by apply list_elem_of_In|].
  rewrite Hc. apply andb_true_iff. split; [|done].
  apply bool_decide_eq_true. apply (list_elem_of_fmap_2 field_name).
  apply list_elem_of_In, filter_In. split.
  - apply list_elem_of_In. by apply survivor_in_temp_schema.
  - unfold survives in Hs. by apply andb_true_iff in Hs as [Hm _].
Qed.

(** The copy of lines 91 to 99 loses nothing of the surviving fields.  On a
    well-formed collection and for a target name that is not the name of an
    implicit field, after a successful migration every original attribute
    field other than the target and [Id] is in the new schema with its
    definition unchanged, and every feature, in the original feature order,
    has its geometry and its value of each such field. *)
Theorem surviving_attributes_keep_their_values path campo p s (w w' : World)
    fc :
  catalog w !! path = Some fc ->
  wf_schema (fc_fields fc) ->
  has_field campo implicit_fields = false ->
  takes_slow_path campo p s (fc_fields fc) ->
  st_trans_sup_ha path campo p s w = (Ok true, w') ->
  exists fc',
    catalog w' !! path = Some fc'
    /\ (forall f, f ∈ fc_fields fc -> survives f = true ->
                  same_name (field_name f) campo = false ->
                  f ∈ fc_fields fc')
    /\ Forall2
         (fun r r' =>
            SHAPE r' = SHAPE r
            /\ forall f, f ∈ fc_fields fc -> survives f = true ->
                 same_name (field_name f) campo = false ->
                 get_value r' (field_name f) = get_value r (field_name f))
         (fc_rows fc) (fc_rows fc').
Proof.
  intros Hp Hwf Hcol Hslow H.
  destruct (slow_path_success _ _ _ _ _ _ _ Hp Hslow H) as (res & Hm & Hc).
  exists res. split; [rewrite Hc; apply lookup_insert_eq|]. split.
  - intros f Hf Hs Hcampo. eapply migrated_fields_incl; [exact Hm| |].
    + by apply survivor_in_temp_schema.
    + unfold survives in Hs. apply andb_true_iff in Hs as [_ Hid].
      by apply negb_true_iff in Hid.
  - destruct (migrated_rows _ _ _ _ _ _ Hm Hcol) as (tf & Htf & ->).
    rewrite <- !list_fmap_compose.
    apply Forall2_fmap_r, Forall_Forall2_diag, Forall_forall. intros r _.
    split; [done|]. intros f Hf Hs Hcampo.
    pose proof (survivor_is_copied campo p s _ f Hwf Hcol Hf Hs Hcampo) as Hin.
    unfold survives in Hs. apply andb_true_iff in Hs as [_ Hid].
    apply negb_true_iff in Hid.
    unfold get_value at 1. simpl.
    assert (Hne : field_name tf ≠ field_name f).
    { rewrite Htf. intros Heq. apply same_name_false in Hcampo.
      by rewrite Heq in Hcampo. }
    erewrite map_lookup_filter_Some_2; [done| |done].
    rewrite lookup_insert_ne by done. by apply list_to_map_zip_fmap.
Qed.

Lemma migrated_shapeType campo p s sr (fc res : FeatureClass) :
  migrated campo p s sr fc = Ok res -> fc_shapeType res = "POLYGON".
Proof.
  unfold migrated. intros H.
  destruct (calculate_area _ _ _) as [t|] eqn:Hcalc; [|done].
  apply delete_field_ok in H. subst res. simpl.
  unfold_calculate_area in Hcalc. simpl in Hcalc.
  destruct (List.find _ _) as [f|].
  - destruct (is_managed f); [done|]. by injection Hcalc as <-.
  - by injection Hcalc as <-.
Qed.

(** Line 71 fixes the geometry type of the temporary collection: after a
    successful migration the collection at the location is a polygon
    collection, whatever the geometry type of the original was. *)
Theorem rebuilt_collection_is_polygon path campo p s (w w' : World) fc :
  catalog w !! path = Some fc ->
  takes_slow_path campo p s (fc_fields fc) ->
  st_trans_sup_ha path campo p s w = (Ok true, w') ->
  exists fc', catalog w' !! path = Some fc' /\ fc_shapeType fc' = "POLYGON".
Proof.
  intros Hp Hslow H.
  destruct (slow_path_success _ _ _ _ _ _ _ Hp Hslow H) as (res & Hm & Hc).
  exists res. split; [rewrite Hc; apply lookup_insert_eq|].
  by eapply migrated_shapeType.
Qed.

(** ** The schema invariant *)

Lemma append_field_wf (fs : list Field) g :
  wf_schema fs -> FID_field ∈ fs -> Shape_field ∈ fs ->
  wf_schema (append_field fs g).
Proof.
  intros [Hnd Hall] Hfid Hshape. unfold append_field.
  destruct (has_field (field_name g) fs) eqn:Hhas; [done|].
  apply has_field_false in Hhas. split.
  - rewrite fmap_app. apply NoDup_app. split; [done|]. split.
    + intros x Hx Hx'. apply list_elem_of_singleton in Hx'. by subst x.
    + apply NoDup_singleton.
  - apply Forall_app. split; [done|]. constructor; [|done]. intros _ Hin.
    apply Hhas. fold (lname g).
    apply elem_of_cons in Hin as [->|Hin].
    + by apply (list_elem_of_fmap_2 lname) in Hfid.
    + apply list_elem_of_singleton in Hin as ->.
      by apply (list_elem_of_fmap_2 lname) in Hshape.
Qed.

Lemma foldl_transfer_step_wf campo p s (fs : list Field) :
  forall acc : list Field,
  wf_schema acc -> FID_field ∈ acc -> Shape_field ∈ acc ->
  wf_schema (foldl (transfer_step campo p s) acc fs).
Proof.
  induction fs as [|f fs IH]; intros acc Hwf Hfid Hshape; [done|].
  simpl. apply IH; [|by apply transfer_step_incl..].
  unfold transfer_step.
  destruct (_ && _); [by apply append_field_wf|].
  destruct (same_name _ _); [by apply append_field_wf|done].
Qed.

(** The schema that the loop of lines 76 to 82 builds is well-formed,
    whatever the original schema. *)
Lemma temp_schema_well_formed campo p s fs :
  wf_schema (temp_schema campo p s fs).
Proof.
  apply foldl_transfer_step_wf.
  - apply (bool_decide_unpack _). vm_compute. exact I.
  - apply list_elem_of_here.
  - apply list_elem_of_further, list_elem_of_here.
Qed.

Lemma filter_wf (P : Field -> bool) (fs : list Field) :
  wf_schema fs -> wf_schema (List.filter P fs).
Proof.
  intros [Hnd Hall]. split.
  - induction fs as [|f fs IH]; [done|].
    rewrite fmap_cons in Hnd. apply NoDup_cons in Hnd as [Hf Hnd].
    apply Forall_cons in Hall as [_ Hall]. simpl.
    destruct (P f); [|by apply IH].
    rewrite fmap_cons. apply NoDup_cons. split; [|by apply IH].
    intros Hin. apply Hf. apply list_elem_of_fmap in Hin as (g & Hl & Hg).
    apply list_elem_of_In, filter_In in Hg as [Hg _].
    rewrite Hl. apply (list_elem_of_fmap_2 lname). by apply list_elem_of_In.
  - apply Forall_forall. intros g Hg.
    apply list_elem_of_In, filter_In in Hg as [Hg _].
    apply list_elem_of_In in Hg. by eapply (proj1 (Forall_forall _ _) Hall).
Qed.

Lemma migrated_well_formed campo p s sr (fc res : FeatureClass) :
  migrated campo p s sr fc = Ok res -> wf_schema (fc_fields res).
Proof.
  unfold migrated. intros H.
  destruct (calculate_area _ _ _) as [t|] eqn:Hcalc; [|done].
  apply delete_field_ok in H. subst res. simpl. apply filter_wf.
  pose proof (temp_schema_well_formed campo p s (fc_fields fc)) as Hwf.
  unfold_calculate_area in Hcalc. simpl in Hcalc.
  destruct (List.find _ (temp_schema _ _ _ _)) as [g|] eqn:Hfind.
  - destruct (is_managed g); [done|]. by injection Hcalc as <-.
  - injection Hcalc as <-. simpl.
    apply find_same_name_None in Hfind.
    set (nf := new_field campo ft_Double None None None None None None None).
    replace (temp_schema campo p s (fc_fields fc) ++ [nf])
      with (append_field (temp_schema campo p s (fc_fields fc)) nf)
      by (unfold append_field; simpl; by rewrite Hfind).
    apply append_field_wf; [done|..]; apply foldl_transfer_step_incl.
    + apply list_elem_of_here.
    + apply list_elem_of_further, list_elem_of_here.
Qed.

(** A successful call keeps the schema invariant (names unique in any
    letter case, no attribute field under the name of a collection-managed
    field), and a successful migration establishes it, even from an original
    schema that does not have it. *)
Theorem schema_invariant_is_kept path campo p s (w w' : World) fc :
  catalog w !! path = Some fc ->
  st_trans_sup_ha path campo p s w = (Ok true, w') ->
  exists fc',
    catalog w' !! path = Some fc'
    /\ (wf_schema (fc_fields fc) -> wf_schema (fc_fields fc'))
    /\ (takes_slow_path campo p s (fc_fields fc) -> wf_schema (fc_fields fc')).
Proof.
  intros Hp H.
  assert (Hslow : takes_slow_path campo p s (fc_fields fc) ->
            exists fc', catalog w' !! path = Some fc'
                        /\ wf_schema (fc_fields fc')).
  { intros Hslow.
    destruct (slow_path_success _ _ _ _ _ _ _ Hp Hslow H) as (res & Hm & Hc).
    exists res. split; [rewrite Hc; apply lookup_insert_eq|].
    by eapply migrated_well_formed. }
  destruct (List.find (fun f => same_name (field_name f) campo) (fc_fields fc))
    as [f0|] eqn:Hfind; [destruct (well_formed f0 p s) eqn:Hwf|].
  - pose proof (fast_path_success _ _ _ _ _ _ _ _ Hp Hfind Hwf H) as Hc.
    eexists. split; [rewrite Hc; apply lookup_insert_eq|]. simpl.
    split; [done|]. unfold takes_slow_path. rewrite Hfind. congruence.
  - destruct Hslow as (fc' & Hfc' & Hwf');
      [unfold takes_slow_path; by rewrite Hfind|].
    exists fc'. done.
  - destruct Hslow as (fc' & Hfc' & Hwf');
      [unfold takes_slow_path; by rewrite Hfind|].
    exists fc'. done.
Qed.

(** ** A run in which no service fails *)

Lemma bind_step {A B} (c : M A) (k : A -> M B) w a w1 :
  c w = (Ok a, w1) -> (c ≫= k) w = k a w1.
Proof. unfold mbind, M_bind, bind. by intros ->. Qed.

Lemma update_fc_ok c p miss f w (fc fc' : FeatureClass) :
  faults c = None -> catalog w !! p = Some fc -> f w fc = Ok fc' ->
  update_fc c p miss f w
  = (Ok (), set_catalog (<[p := fc']> (catalog w)) w).
Proof. unfold update_fc, service. by intros -> -> ->. Qed.

Lemma query_ok {A} c p miss (f : FeatureClass -> Res A) w (fc : FeatureClass) :
  faults c = None -> catalog w !! p = Some fc ->
  query c p miss f w = (f fc, w).
Proof. unfold query, service. by intros -> ->. Qed.

Lemma all_in_schema_copy_names campo p s (fc : FeatureClass) :
  all_in_schema (copy_names campo p s (fc_fields fc)) fc = true.
Proof.
  unfold all_in_schema. apply forallb_forall. intros n Hn.
  apply bool_decide_eq_true. apply list_elem_of_In in Hn.
  unfold copy_names, fields_to_copy in Hn.
  apply list_elem_of_fmap in Hn as (f & -> & Hf).
  apply list_elem_of_In, filter_In in Hf as [Hf _].
  apply (list_elem_of_fmap_2 field_name). by apply list_elem_of_In.
Qed.

Lemma all_in_schema_temp campo p s fs (tfc : FeatureClass) :
  fc_fields tfc = temp_schema campo p s fs ->
  all_in_schema (copy_names campo p s fs) tfc = true.
Proof.
  intros Hfs. unfold all_in_schema. apply forallb_forall. intros n Hn.
  apply bool_decide_eq_true. apply list_elem_of_In in Hn.
  unfold copy_names, fields_to_copy in Hn.
  apply list_elem_of_fmap in Hn as (f & -> & Hf).
  apply list_elem_of_In, filter_In in Hf as [_ Hf].
  apply andb_true_iff in Hf as [Hf _]. apply bool_decide_eq_true in Hf.
  apply list_elem_of_fmap in Hf as (g & -> & Hg).
  apply list_elem_of_In, filter_In in Hg as [Hg _].
  rewrite Hfs. apply (list_elem_of_fmap_2 field_name).
  by apply list_elem_of_In.
Qed.

Lemma calculate_area_temp_ok campo p s sr cs fs (rows : list Feature) :
  has_field campo [FID_field; Shape_field] = false ->
  exists tfc,
    calculate_area cs campo (filled_temp campo p s sr fs rows) = Ok tfc.
Proof.
  intros Hcol. unfold_calculate_area. simpl.
  destruct (List.find _ (temp_schema _ _ _ _)) as [g|] eqn:Hg; [|eauto].
  apply find_same_name_Some in Hg as [Hin Hl].
  assert (Hm : is_managed g = false).
  { apply elem_of_temp_schema in Hin as [Hin|[->|(_ & Hm & _)]];
      [|apply is_managed_target|done].
    apply has_field_false in Hcol.
    apply elem_of_cons in Hin as [->|Hin].
    { exfalso. apply Hcol. rewrite <- Hl. apply list_elem_of_here. }
    apply elem_of_cons in Hin as [->|Hin].
    { exfalso. apply Hcol. rewrite <- Hl.
      apply list_elem_of_further, list_elem_of_here. }
    by apply list_elem_of_singleton in Hin as ->. }
  rewrite Hm. eauto.
Qed.

Lemma delete_Id_ok (tfc : FeatureClass) rest :
  fc_fields tfc = implicit_fields ++ rest ->
  exists res, delete_field "Id" tfc = Ok res.
Proof.
  intros Hfs. unfold delete_field. rewrite Hfs.
  change (implicit_fields ++ rest)
    with (FID_field :: Shape_field :: Id_field :: rest).
  cbn [List.find].
  change (same_name (field_name FID_field) "Id") with false.
  change (same_name (field_name Shape_field) "Id") with false.
  change (same_name (field_name Id_field) "Id") with true.
  cbn iota. change (is_managed Id_field) with false. cbn iota. eauto.
Qed.

Lemma calculate_area_prefix cs campo (fc tfc : FeatureClass) :
  calculate_area cs campo fc = Ok tfc ->
  exists rest, fc_fields tfc = fc_fields fc ++ rest.
Proof.
  unfold_calculate_area. intros H. destruct (List.find _ _) as [g|].
  - destruct (is_managed g); [done|]. injection H as <-. exists [].
    simpl. by rewrite app_nil_r.
  - injection H as <-. simpl. eauto.
Qed.

Section NoFaults.

Hypothesis no_fault : forall c, faults c = None.

Lemma transfer_field_ok temp campo p s field w (tfc : FeatureClass) :
  catalog w !! temp = Some tfc ->
  exists w', transfer_field temp campo p s field w = (Ok (), w').
Proof.
  intros Ht. unfold transfer_field.
  destruct (negb (is_managed field)) eqn:Hm; simpl.
  - destruct (negb (same_name (field_name field) campo)) eqn:Hs; simpl.
    + unfold arcpy_AddField. erewrite update_fc_ok; [eauto|done|done|].
      unfold add_field. rewrite new_field_id.
      apply negb_true_iff in Hm. by rewrite Hm.
    + apply negb_false_iff in Hs. rewrite Hs.
      unfold arcpy_AddField. erewrite update_fc_ok; [eauto|done|done|].
      unfold add_field. fold (target_field campo p s).
      by rewrite is_managed_target.
  - destruct (same_name (field_name field) campo); [|by eexists].
    unfold arcpy_AddField. erewrite update_fc_ok; [eauto|done|done|].
    unfold add_field. fold (target_field campo p s).
    by rewrite is_managed_target.
Qed.

Lemma transfer_loop_ok temp campo p s fs : forall w (tfc : FeatureClass),
  catalog w !! temp = Some tfc ->
  exists w', for_each fs (transfer_field temp campo p s) w = (Ok (), w').
Proof.
  induction fs as [|f fs IH]; intros w tfc Ht; [by eexists|].
  destruct (transfer_field_ok temp campo p s f w tfc Ht) as [w1 H1].
  pose proof (transfer_field_run _ _ _ _ _ _ _ _ _ Ht H1) as [_ Hc].
  destruct (IH w1 (with_fields (transfer_step campo p s (fc_fields tfc) f)
                               tfc)) as [w2 H2];
    [rewrite Hc; apply lookup_insert_eq|].
  exists w2. simpl. unfold bind. by rewrite H1.
Qed.

Lemma insert_loop_ok temp names (rows : list (Geom * list Value)) :
  Forall (fun row => length row.2 = length names) rows ->
  forall w (tfc : FeatureClass),
    catalog w !! temp = Some tfc ->
    exists w', for_each rows (insertRow temp names) w = (Ok (), w').
Proof.
  induction 1 as [|row rows Hrow _ IH]; intros w tfc Ht; [by eexists|].
  assert (H1 : insertRow temp names row w
               = (Ok (), set_catalog
                    (<[temp := with_rows (fc_rows tfc ++ [new_feature names row])
                                         tfc]> (catalog w)) w)).
  { unfold insertRow. erewrite update_fc_ok; [done|done|done|].
    unfold insert_row. by rewrite bool_decide_eq_true_2. }
  edestruct IH as [w2 H2]; [|exists w2; simpl; unfold bind; by rewrite H1].
  simpl. apply lookup_insert_eq.
Qed.

Lemma build_temp_ok path campo p s sr w (fc : FeatureClass) :
  catalog w !! path = Some fc ->
  has_field campo [FID_field; Shape_field] = false ->
  exists t w',
    build_temp path campo p s sr (fc_fields fc) w = (Ok t, w').
Proof.
  intros Hp Hcol. unfold build_temp.
  set (temp := unique_name (catalog w) "temp_output.shp" (env_scratchFolder w)).
  assert (Hfresh : catalog w !! temp = None) by apply unique_name_fresh.
  assert (Hne : temp ≠ path) by (intros Heq; rewrite Heq in Hfresh; congruence).
  rewrite (bind_step _ _ w (env_scratchFolder w) w) by done.
  rewrite (bind_step _ _ w temp w)
    by (unfold arcpy_CreateUniqueName, service; by rewrite no_fault).
  (* print *)
  destruct (print ("Creando capa temporal en: " +:+ path_str temp) w)
    as [r1 w1] eqn:H1.
  pose proof H1 as H1'. apply print_run in H1' as (-> & Hc1 & He1).
  rewrite (bind_step _ _ _ _ _ H1).
  (* CreateFeatureclass *)
  assert (H2 : arcpy_CreateFeatureclass (dirname temp) (basename temp)
                 "POLYGON" sr w1
               = (Ok (), set_catalog
                    (<[temp := new_shapefile "POLYGON" sr]> (catalog w1)) w1)).
  { unfold arcpy_CreateFeatureclass, service. rewrite no_fault.
    replace (os_path_join (dirname temp) (basename temp)) with temp
      by (by destruct temp).
    by rewrite Hc1, Hfresh. }
  rewrite (bind_step _ _ _ _ _ H2). clear H2.
  set (w2 := set_catalog _ w1).
  assert (Ht2 : catalog w2 !! temp = Some (new_shapefile "POLYGON" sr))
    by apply lookup_insert_eq.
  (* the loop over the original fields *)
  destruct (transfer_loop_ok temp campo p s (fc_fields fc) w2 _ Ht2)
    as [w3 H3].
  pose proof (transfer_loop _ _ _ _ _ _ _ _ _ Ht2 H3) as (_ & fs' & Hc3 & Hfs).
  specialize (Hfs eq_refl). simpl in Hfs.
  fold (temp_schema campo p s (fc_fields fc)) in Hfs. subst fs'.
  rewrite (bind_step _ _ _ _ _ H3). clear H3.
  (* print *)
  destruct (print "Copiando datos a la capa temporal..." w3) as [r4 w4] eqn:H4.
  pose proof H4 as H4'. apply print_run in H4' as (-> & Hc4 & _).
  rewrite (bind_step _ _ _ _ _ H4). clear H4.
  rewrite Hc3 in Hc4. clear Hc3 w3.
  assert (Ht4 : catalog w4 !! temp
                = Some (with_fields (temp_schema campo p s (fc_fields fc))
                                    (new_shapefile "POLYGON" sr)))
    by (rewrite Hc4; apply lookup_insert_eq).
  assert (Hp4 : catalog w4 !! path = Some fc).
  { rewrite Hc4, lookup_insert_ne by done. unfold w2. simpl.
    by rewrite lookup_insert_ne, Hc1. }
  (* ListFields *)
  rewrite (bind_step _ _ w4 (temp_schema campo p s (fc_fields fc)) w4)
    by (unfold arcpy_ListFields;
        by rewrite (query_ok _ _ _ _ _ _ (no_fault _) Ht4)).
  cbv zeta. fold (copy_names campo p s (fc_fields fc)).
  (* SearchCursor *)
  set (names := copy_names campo p s (fc_fields fc)).
  rewrite (bind_step _ _ w4
             ((fun r => (SHAPE r, get_value r <$> names)) <$> fc_rows fc) w4).
  2:{ unfold arcpy_da_SearchCursor.
      rewrite (query_ok _ _ _ _ _ _ (no_fault _) Hp4).
      unfold read_rows, names. by rewrite all_in_schema_copy_names. }
  (* InsertCursor *)
  rewrite (bind_step _ _ w4 () w4).
  2:{ unfold arcpy_da_InsertCursor.
      rewrite (query_ok _ _ _ _ _ _ (no_fault _) Ht4).
      unfold names. by rewrite (all_in_schema_temp campo p s (fc_fields fc)). }
  (* the loop over the rows *)
  edestruct (insert_loop_ok temp names
               ((fun r => (SHAPE r, get_value r <$> names)) <$> fc_rows fc))
    as [w5 H5]; [|exact Ht4|].
  { apply Forall_fmap, Forall_forall. intros r _. simpl. apply length_fmap. }
  pose proof (insert_loop _ _ _ _ _ _ _ Ht4 H5) as (_ & rs' & Hc5 & _).
  rewrite (bind_step _ _ _ _ _ H5). clear H5.
  (* print *)
  destruct (print ("Calculando la superficie en el campo '" +:+ campo
                   +:+ "'...") w5) as [r6 w6] eqn:H6.
  pose proof H6 as H6'. apply print_run in H6' as (-> & Hc6 & _).
  rewrite (bind_step _ _ _ _ _ H6). clear H6.
  (* CalculateGeometryAttributes *)
  assert (Ht6 : exists tfc, catalog w6 !! temp = Some tfc
                  /\ fc_fields tfc = temp_schema campo p s (fc_fields fc)).
  { eexists. rewrite Hc6, Hc5. split; [apply lookup_insert_eq|done]. }
  destruct Ht6 as (tfc & Ht6 & Hfs6).
  assert (Hcalc : exists tfc',
            calculate_area
              (default (fc_spatialReference tfc)
                       (env_outputCoordinateSystem w6)) campo tfc = Ok tfc').
  { destruct (calculate_area_temp_ok campo p s sr
                (default (fc_spatialReference tfc)
                         (env_outputCoordinateSystem w6))
                (fc_fields fc) []) as [t Hcalc]; [done|].
    revert Hcalc. unfold_calculate_area. simpl. rewrite Hfs6.
    destruct (List.find _ _) as [g|]; [|eauto].
    destruct (is_managed g); [done|eauto]. }
  destruct Hcalc as [tfc' Hcalc].
  erewrite bind_step;
    [|unfold arcpy_CalculateGeometryAttributes;
      by rewrite (update_fc_ok _ _ _ _ _ _ _ (no_fault _) Ht6 Hcalc)].
  by eexists _, _.
Qed.

Lemma replace_original_ok path temp w (fc tfc : FeatureClass) rest :
  catalog w !! path = Some fc ->
  catalog w !! temp = Some tfc ->
  temp ≠ path ->
  fc_fields tfc = implicit_fields ++ rest ->
  exists w', replace_original path temp w = (Ok true, w').
Proof.
  intros Hp Ht Hne Hfs. unfold replace_original.
  destruct (print "Reemplazando el archivo original con la versión procesada..."
              w) as [r1 w1] eqn:H1.
  pose proof H1 as H1'. apply print_run in H1' as (-> & Hc1 & _).
  rewrite (bind_step _ _ _ _ _ H1). clear H1.
  destruct (delete_Id_ok tfc rest Hfs) as [res Hdel].
  erewrite bind_step;
    [|unfold arcpy_DeleteField; erewrite update_fc_ok;
      [done|done|by rewrite Hc1|done]].
  erewrite bind_step.
  2:{ unfold arcpy_Delete, service. rewrite no_fault. simpl.
      by rewrite lookup_insert_ne, Hc1, Hp. }
  erewrite bind_step.
  2:{ unfold arcpy_CopyFeatures, service. rewrite no_fault. simpl.
      rewrite lookup_delete_ne, lookup_insert_eq by done.
      by rewrite lookup_delete_eq. }
  erewrite bind_step.
  2:{ unfold arcpy_Delete, service. rewrite no_fault. simpl.
      rewrite lookup_insert_ne, lookup_delete_ne, lookup_insert_eq by done.
      done. }
  by eexists.
Qed.

Lemma recreate_ok path campo p s sr w (fc : FeatureClass) :
  catalog w !! path = Some fc ->
  has_field campo [FID_field; Shape_field] = false ->
  exists w', recreate path campo p s sr (fc_fields fc) w = (Ok true, w').
Proof.
  intros Hp Hcol. unfold recreate.
  destruct (build_temp_ok path campo p s sr w fc Hp Hcol) as (t & w1 & H1).
  pose proof (build_temp_run _ _ _ _ _ _ _ _ _ _ Hp H1) as (_ & _ & Hok).
  destruct (Hok _ eq_refl) as (-> & tfc & Hcalc & Hc1). clear Hok.
  rewrite (bind_step _ _ _ _ _ H1).
  set (temp := unique_name _ _ _) in *.
  assert (Hfresh : catalog w !! temp = None) by apply unique_name_fresh.
  assert (Hne : temp ≠ path) by (intros Heq; rewrite Heq in Hfresh; congruence).
  apply calculate_area_prefix in Hcalc as [rest Hfs]. simpl in Hfs.
  destruct (temp_schema_prefix campo p s (fc_fields fc)) as [rest' Hpre].
  rewrite Hpre, <- app_assoc in Hfs.
  eapply (replace_original_ok path temp w1 fc tfc); [| |done|exact Hfs].
  - by rewrite Hc1, lookup_insert_ne.
  - rewrite Hc1. apply lookup_insert_eq.
Qed.

End NoFaults.

(** The script gives no service a reason to fail.  On an existing
    collection, whatever its schema and its rows, and for a target name that
    is not the name of one of the two collection-managed fields, a call
    during which no service is faulty returns [True]: the temporary location
    is free, both cursors are opened on fields that their collection has,
    every row has one value per cursor field, and the field [Id] that line
    113 deletes is there. *)
Theorem call_succeeds_without_faults path campo p s (w : World) fc :
  catalog w !! path = Some fc ->
  has_field campo [FID_field; Shape_field] = false ->
  (forall c, faults c = None) ->
  exists w', st_trans_sup_ha path campo p s w = (Ok true, w').
Proof.
  intros Hp Hcol Hnf.
  unfold st_trans_sup_ha, arcpy_Exists, service, mbind, M_bind, bind,
    try_except.
  rewrite Hnf, Hp, bool_decide_eq_true_2 by eauto. cbn [negb print].
  unfold st_trans_sup_ha_try, mbind, M_bind, bind.
  cbn [set_overwriteOutput].
  unfold arcpy_Describe_spatialReference, arcpy_ListFields, query, service.
  rewrite !Hnf. cbn [catalog]. rewrite Hp. cbn [set_outputCoordinateSystem].
  cbn [catalog]. rewrite Hp.
  destruct (List.find _ (fc_fields fc)) as [f0|] eqn:Hfind.
  - cbn [print]. destruct (well_formed f0 p s) eqn:Hwf.
    + unfold recalculate, mbind, M_bind, bind. cbn [print].
      unfold arcpy_CalculateGeometryAttributes, update_fc, service.
      rewrite Hnf. cbn [catalog env_outputCoordinateSystem]. rewrite Hp.
      unfold calculate_geometry. cbn [fst snd]. rewrite Hfind.
      assert (Hm : is_managed f0 = false).
      { unfold well_formed in Hwf. apply andb_true_iff in Hwf as [Hwf _].
        apply andb_true_iff in Hwf as [Hwf _]. apply bool_decide_eq_true in Hwf.
        unfold is_managed. by rewrite Hwf. }
      rewrite Hm. cbn. eauto.
    + cbn [print].
      match goal with
      | |- context [recreate _ _ _ _ _ _ ?W] =>
          destruct (recreate_ok Hnf path campo p s (fc_spatialReference fc) W fc
                                Hp Hcol) as [w' ->]
      end.
      eauto.
  - match goal with
    | |- context [recreate _ _ _ _ _ _ ?W] =>
        destruct (recreate_ok Hnf path campo p s (fc_spatialReference fc) W fc
                              Hp Hcol) as [w' ->]
    end.
    eauto.
Qed.

(** ** Edge cases of the target name and of the missing field *)

(** A target name that answers to [Id] is lost: line 113 deletes the field
    that the areas were written to.  After a successful migration with such
    a target name the collection has no field that answers to the target
    name, and no feature holds a value under [Id]. *)
Theorem target_named_Id_is_lost path campo p s (w w' : World) fc :
  catalog w !! path = Some fc ->
  same_name campo "Id" = true ->
  takes_slow_path campo p s (fc_fields fc) ->
  st_trans_sup_ha path campo p s w = (Ok true, w') ->
  exists fc',
    catalog w' !! path = Some fc'
    /\ has_field campo (fc_fields fc') = false
    /\ forall r, r ∈ fc_rows fc' -> attrs r !! "Id" = None.
Proof.
  intros Hp Hid Hslow H.
  destruct (slow_path_success _ _ _ _ _ _ _ Hp Hslow H) as (res & Hm & Hc).
  exists res. split; [rewrite Hc; apply lookup_insert_eq|].
  destruct (migrated_frame _ _ _ _ _ _ Hm) as (_ & _ & Hfields & Hrows).
  split; [|done].
  apply has_field_false. intros Hin.
  apply list_elem_of_fmap in Hin as (g & Hl & Hg).
  specialize (Hfields g Hg). apply same_name_false in Hfields.
  apply same_name_true in Hid. apply Hfields.
  unfold lname in Hl. congruence.
Qed.

Lemma migrated_absent campo p s sr (fc res : FeatureClass) :
  wf_schema (fc_fields fc) ->
  has_field campo (fc_fields fc) = false ->
  has_field campo implicit_fields = false ->
  migrated campo p s sr fc = Ok res ->
  fc_fields res
  = FID_field :: Shape_field :: List.filter survives (fc_fields fc)
    ++ [new_field campo ft_Double None None None None None None None].
Proof.
  intros Hwf Hno Hcol Hm.
  assert (Hother : forall f, f ∈ fc_fields fc ->
                             same_name (field_name f) campo = false).
  { intros f Hf. apply same_name_false. intros Heq.
    apply has_field_false in Hno. apply Hno. rewrite <- Heq.
    by apply (list_elem_of_fmap_2 lname). }
  assert (Hschema : temp_schema campo p s (fc_fields fc)
                    = implicit_fields ++ List.filter survives (fc_fields fc)).
  { rewrite (temp_schema_wf _ _ _ _ Hwf Hcol).
    by rewrite (omap_rebuild_survivors campo p s _ Hother). }
  unfold migrated in Hm.
  destruct (calculate_area _ _ _) as [t|] eqn:Hcalc; [|done].
  apply delete_field_ok in Hm. subst res. simpl.
  unfold_calculate_area in Hcalc. simpl in Hcalc.
  assert (Hnone : List.find (fun f => same_name (field_name f) campo)
                    (temp_schema campo p s (fc_fields fc)) = None).
  { apply find_same_name_None, has_field_false. rewrite Hschema, fmap_app.
    intros Hin. apply elem_of_app in Hin as [Hin|Hin].
    - apply has_field_false in Hcol. by apply Hcol.
    - apply list_elem_of_fmap in Hin as (f & Hl & Hf).
      apply list_elem_of_In, filter_In in Hf as [Hf _].
      apply list_elem_of_In in Hf.
      specialize (Hother f Hf). apply same_name_false in Hother. done. }
  rewrite Hnone in Hcalc. injection Hcalc as <-. simpl.
  rewrite Hschema.
  change (implicit_fields ++ ?l) with (FID_field :: Shape_field :: Id_field :: l).
  cbn [app List.filter].
  change (negb (same_name (field_name FID_field) "Id")) with true.
  change (negb (same_name (field_name Shape_field) "Id")) with true.
  change (negb (same_name (field_name Id_field) "Id")) with false.
  cbn iota. do 2 f_equal. apply filter_all. intros g Hg.
  apply negb_true_iff. apply elem_of_app in Hg as [Hg|Hg].
  - apply list_elem_of_In, filter_In in Hg as [_ Hg]. unfold survives in Hg.
    apply andb_true_iff in Hg as [_ Hg]. by apply negb_true_iff in Hg.
  - apply list_elem_of_singleton in Hg as ->. simpl.
    by apply not_implicit_not_Id.
Qed.

(** The missing target field gets the requested definition only with a
    second call.  On a well-formed collection without a field of the
    target's name, and for a target name that is not the name of an implicit
    field, after two successful calls in a row the schema is the two
    collection-managed fields, the surviving original attribute fields in
    their order and, at the end, the target field as a Double of the
    requested precision and scale; the features are as many as before. *)
Theorem second_call_gives_requested_definition path campo p s
    (w w1 w2 : World) fc :
  catalog w !! path = Some fc ->
  wf_schema (fc_fields fc) ->
  has_field campo (fc_fields fc) = false ->
  has_field campo implicit_fields = false ->
  st_trans_sup_ha path campo p s w = (Ok true, w1) ->
  st_trans_sup_ha path campo p s w1 = (Ok true, w2) ->
  exists fc2,
    catalog w2 !! path = Some fc2
    /\ fc_fields fc2
       = FID_field :: Shape_field :: List.filter survives (fc_fields fc)
         ++ [target_field campo p s]
    /\ length (fc_rows fc2) = length (fc_rows fc).
Proof.
  intros Hp Hwf Hno Hcol H1 H2.
  set (nf := new_field campo ft_Double None None None None None None None).
  assert (Hslow : takes_slow_path campo p s (fc_fields fc)).
  { unfold takes_slow_path.
    by rewrite (proj2 (find_same_name_None campo (fc_fields fc)) Hno). }
  destruct (slow_path_success _ _ _ _ _ _ _ Hp Hslow H1) as (res & Hm & Hc1).
  pose proof (migrated_absent _ _ _ _ _ _ Hwf Hno Hcol Hm) as Hfs1.
  fold nf in Hfs1.
  pose proof (migrated_well_formed _ _ _ _ _ _ Hm) as Hwf1.
  destruct (migrated_frame _ _ _ _ _ _ Hm) as (_ & Hshape1 & _).
  assert (Hlen1 : length (fc_rows res) = length (fc_rows fc)).
  { apply (f_equal length) in Hshape1. by rewrite !length_fmap in Hshape1. }
  assert (Hp1 : catalog w1 !! path = Some res)
    by (rewrite Hc1; apply lookup_insert_eq).
  assert (Hnf : nf ∈ fc_fields res).
  { rewrite Hfs1. do 2 apply list_elem_of_further.
    apply elem_of_app. right. apply list_elem_of_here. }
  assert (Hfind : List.find (fun f => same_name (field_name f) campo)
                            (fc_fields res) = Some nf).
  { destruct (List.find _ (fc_fields res)) as [g|] eqn:Hg.
    - apply find_same_name_Some in Hg as [Hin Hl]. f_equal.
      by apply (NoDup_lname_inj (fc_fields res)); [apply Hwf1|..].
    - apply find_same_name_None, has_field_false in Hg. exfalso. apply Hg.
      by apply (list_elem_of_fmap_2 lname) in Hnf. }
  destruct (well_formed nf p s) eqn:Hwfnf.
  - (* the requested definition is the default one *)
    pose proof (fast_path_success _ _ _ _ _ _ _ _ Hp1 Hfind Hwfnf H2) as Hc2.
    eexists. split; [rewrite Hc2; apply lookup_insert_eq|]. simpl.
    split; [|by rewrite length_fmap].
    rewrite Hfs1. do 3 f_equal. unfold well_formed in Hwfnf.
    apply andb_true_iff in Hwfnf as [Hwfnf Hs].
    apply andb_true_iff in Hwfnf as [_ Hpr].
    apply bool_decide_eq_true in Hs, Hpr. simpl in Hs, Hpr.
    unfold nf, target_field, new_field. simpl. by rewrite <- Hs, <- Hpr.
  - (* the second call rebuilds the field *)
    assert (Hslow1 : takes_slow_path campo p s (fc_fields res))
      by (unfold takes_slow_path; by rewrite Hfind).
    destruct (slow_path_success _ _ _ _ _ _ _ Hp1 Hslow1 H2)
      as (res2 & Hm2 & Hc2).
    exists res2. split; [rewrite Hc2; apply lookup_insert_eq|].
    destruct (migrated_frame _ _ _ _ _ _ Hm2) as (_ & Hshape2 & _).
    split.
    2:{ apply (f_equal length) in Hshape2. rewrite !length_fmap in Hshape2.
        congruence. }
    rewrite (migrated_wf _ _ _ _ _ _ Hwf1 Hcol) by
      (done || (apply has_field_true; by apply (list_elem_of_fmap_2 lname) in Hnf)).
    rewrite Hfs1. do 2 f_equal.
    pose proof Hcol as Hcol'. unfold has_field in Hcol'. simpl in Hcol'.
    apply orb_false_iff in Hcol' as [Hfid Hcol'].
    apply orb_false_iff in Hcol' as [Hshp _].
    assert (Hcons : forall f (l : list Field),
              omap (rebuild campo p s) (f :: l)
              = match rebuild campo p s f with
                | Some g => g :: omap (rebuild campo p s) l
                | None => omap (rebuild campo p s) l
                end) by done.
    assert (HrF : rebuild campo p s FID_field = None).
    { unfold rebuild. change (field_name FID_field) with "FID".
      by rewrite Hfid. }
    assert (HrS : rebuild campo p s Shape_field = None).
    { unfold rebuild. change (field_name Shape_field) with "Shape".
      by rewrite Hshp. }
    assert (HrN : rebuild campo p s nf = Some (target_field campo p s)).
    { unfold rebuild.
      assert (Hself : same_name (field_name nf) campo = true)
        by (by apply same_name_true).
      by rewrite Hself. }
    rewrite Hcons, HrF, Hcons, HrS, omap_app.
    rewrite (omap_rebuild_survivors campo p s).
    2:{ intros f Hf. apply list_elem_of_In, filter_In in Hf as [Hf _].
        apply list_elem_of_In in Hf. apply same_name_false. intros Heq.
        apply has_field_false in Hno. apply Hno. rewrite <- Heq.
        by apply (list_elem_of_fmap_2 lname). }
    rewrite filter_all.
    2:{ intros f Hf. by apply list_elem_of_In, filter_In in Hf as [_ Hf]. }
    f_equal. by rewrite Hcons, HrN.
Qed.

(** ** The temporary collection of a failed migration *)

Ltac still_there_service :=
  unfold still_there; intros [? ?]; simpl; rewrite ?lookup_insert_eq;
  by eauto.

Lemma build_temp_leaves_temp path campo p s sr fs w r w' :
  let temp := unique_name (catalog w) "temp_output.shp" (env_scratchFolder w) in
  faults (call_CreateUniqueName "temp_output.shp" (env_scratchFolder w))
    = None ->
  faults (call_CreateFeatureclass temp) = None ->
  build_temp path campo p s sr fs w = (r, w') ->
  is_Some (catalog w' !! temp).
Proof.
  intros temp Hu Hf H. unfold build_temp in H.
  step H as scratch w0 Hs; [|discriminate].
  unfold get_scratchFolder in Hs. injection Hs as <- <-.
  step H as t0 w0 Hs.
  2:{ apply service_run in H as [(e' & He' & _)|[_ H]]; congruence. }
  apply service_run in Hs as [(e' & _ & ? & _)|[_ Hs]]; [discriminate|].
  injection Hs as <- <-. fold temp in H.
  assert (Hfresh : catalog w !! temp = None) by apply unique_name_fresh.
  step H as u1 w1 Hs; [|by apply print_run in H as [? _]].
  apply print_run in Hs as (_ & Hc1 & He1).
  assert (Hjoin : os_path_join (dirname temp) (basename temp) = temp)
    by (by destruct temp).
  step H as u2 w2 Hs.
  2:{ unfold arcpy_CreateFeatureclass in H. rewrite Hjoin in H.
      apply service_run in H as [(e' & He' & _)|[_ H]]; [congruence|].
      rewrite Hc1, Hfresh in H. by simpl in H. }
  unfold arcpy_CreateFeatureclass in Hs. rewrite Hjoin in Hs.
  apply service_run in Hs as [(e' & _ & ? & _)|[_ Hs]]; [discriminate|].
  destruct (_ && _) in Hs; [discriminate|]. injection Hs as _ Hw2.
  assert (Ht2 : is_Some (catalog w2 !! temp)).
  { rewrite <- Hw2. simpl. rewrite lookup_insert_eq. eauto. }
  apply (keeps_elim (still_there temp)) in H; [by apply H|].
  unfold transfer_field. keeps_script still_there_service.
Qed.

Lemma replace_original_leaves_temp path temp w r w' :
  temp ≠ path ->
  is_Some (catalog w !! temp) ->
  replace_original path temp w = (r, w') ->
  r ≠ Ok true ->
  is_Some (catalog w' !! temp).
Proof.
  intros Hne Ht H Hr. unfold replace_original in H.
  step H as u1 w1 Hs; [|by apply print_run in H as [? _]].
  apply print_run in Hs as (_ & Hc1 & _). rewrite <- Hc1 in Ht.
  assert (Hupd : forall w0 w1 r0,
            is_Some (catalog w0 !! temp) ->
            arcpy_DeleteField temp "Id" w0 = (r0, w1) ->
            is_Some (catalog w1 !! temp)).
  { intros w0 w3 r0 Ht0 H0. apply update_fc_run in H0.
    destruct r0; [|by subst w3].
    destruct H0 as (_ & _ & fc0 & fc1 & _ & _ & ->).
    rewrite lookup_insert_eq. eauto. }
  assert (Hdel : forall w0 w1 r0,
            is_Some (catalog w0 !! temp) ->
            arcpy_Delete path w0 = (r0, w1) ->
            is_Some (catalog w1 !! temp)).
  { intros w0 w3 r0 Ht0 H0. apply arcpy_Delete_run in H0 as [_ H0].
    destruct r0.
    - destruct H0 as (_ & _ & ->). by rewrite lookup_delete_ne.
    - destruct H0 as [-> _]. done. }
  step H as u2 w2 Hs; [|by eapply Hupd].
  apply (Hupd _ _ _ Ht) in Hs.
  step H as u3 w3 Hs'; [|by eapply Hdel].
  apply (Hdel _ _ _ Hs) in Hs'.
  destruct Hs' as [tfc Htfc].
  step H as u4 w4 Hs''.
  2:{ unfold arcpy_CopyFeatures in H.
      apply service_run in H as [(e' & _ & _ & ->)|[_ H]];
        [rewrite Htfc; eauto|].
      rewrite Htfc in H. destruct (_ && _) in H; [|discriminate].
      injection H as _ <-. rewrite Htfc. eauto. }
  assert (Ht4 : is_Some (catalog w4 !! temp)).
  { unfold arcpy_CopyFeatures in Hs''.
    apply service_run in Hs'' as [(e' & _ & ? & _)|[_ Hs'']]; [done|].
    rewrite Htfc in Hs''. destruct (_ && _) in Hs''; [discriminate|].
    injection Hs'' as _ <-. simpl. rewrite lookup_insert_ne, Htfc by done.
    eauto. }
  step H as u5 w5 Hs5.
  2:{ apply arcpy_Delete_run in H as [_ [-> _]]. done. }
  step H as u6 w6 Hs6; [|by apply print_run in H as [? _]].
  injection H as <- _. done.
Qed.

(** A failed migration does not clean up.  On the slow path, when the
    services up to the creation of the temporary collection do not fail and
    the call returns [False], the temporary collection is left in the
    scratch folder. *)
Theorem failed_migration_leaves_temporary_collection path campo p s
    (w w' : World) fc :
  let temp :=
    unique_name (catalog w) "temp_output.shp" (env_scratchFolder w) in
  catalog w !! path = Some fc ->
  takes_slow_path campo p s (fc_fields fc) ->
  faults (call_Describe path) = None ->
  faults (call_ListFields path) = None ->
  faults (call_CreateUniqueName "temp_output.shp" (env_scratchFolder w))
    = None ->
  faults (call_CreateFeatureclass temp) = None ->
  st_trans_sup_ha path campo p s w = (Ok false, w') ->
  catalog w !! temp = None /\ is_Some (catalog w' !! temp).
Proof.
  intros temp Hp Hslow Hd Hl Hu Hf H.
  split; [apply unique_name_fresh|].
  assert (Hrec : forall w0 r0 w2,
            catalog w0 = catalog w ->
            env_scratchFolder w0 = env_scratchFolder w ->
            recreate path campo p s (fc_spatialReference fc) (fc_fields fc) w0
              = (r0, w2) ->
            r0 ≠ Ok true -> is_Some (catalog w2 !! temp)).
  { intros w0 r0 w2 Hc0 Hs0 Hrec Hr0. unfold recreate in Hrec.
    assert (Hp0 : catalog w0 !! path = Some fc) by (by rewrite Hc0).
    assert (Htemp : unique_name (catalog w0) "temp_output.shp"
                      (env_scratchFolder w0) = temp)
      by (unfold temp; by rewrite Hc0, Hs0).
    assert (Hne : temp ≠ path).
    { intros Heq. pose proof (unique_name_fresh (catalog w) "temp_output.shp"
                                (env_scratchFolder w)) as Hfresh.
      fold temp in Hfresh. rewrite Heq in Hfresh. congruence. }
    step Hrec as t w1 Hs.
    - pose proof Hs as Hs'.
      apply build_temp_leaves_temp in Hs'; [|by rewrite Hs0|by rewrite Htemp].
      apply (build_temp_run _ _ _ _ _ _ _ _ _ _ Hp0) in Hs as (_ & _ & Hok).
      destruct (Hok _ eq_refl) as (-> & _). rewrite Htemp in Hrec, Hs'.
      by eapply replace_original_leaves_temp.
    - apply build_temp_leaves_temp in Hrec;
        [|by rewrite Hs0|by rewrite Htemp].
      by rewrite Htemp in Hrec. }
  apply (st_trans_sup_ha_run _ _ _ _ _ _ _ _ Hp) in H
    as [(e0 & _ & ? & _)
       |(_ & w1 & r0 & w2 & Hc1 & He1 & Htry & Hc' & Hr)];
    [done|].
  assert (Hr0 : r0 ≠ Ok true) by (intros ->; discriminate).
  assert (Hp1 : catalog w1 !! path = Some fc) by (by rewrite Hc1).
  assert (Hs1 : env_scratchFolder w1 = env_scratchFolder w)
    by (unfold env_of in He1; by injection He1).
  rewrite Hc'. revert Htry.
  unfold st_trans_sup_ha_try, mbind, M_bind, bind.
  cbn [set_overwriteOutput].
  unfold arcpy_Describe_spatialReference, arcpy_ListFields, query, service.
  rewrite Hd. cbn [catalog]. rewrite Hp1. cbn [set_outputCoordinateSystem].
  rewrite Hl. cbn [catalog]. rewrite Hp1.
  unfold takes_slow_path in Hslow.
  destruct (List.find _ (fc_fields fc)) as [f0|].
  - cbn [print]. rewrite Hslow. cbn [print]. intros Hrun.
    eapply Hrec; [| |exact Hrun|exact Hr0]; simpl; done.
  - intros Hrun. eapply Hrec; [| |exact Hrun|exact Hr0]; simpl; done.
Qed.

End Migrator.

(** ** Two calls, each with the faults of its own *)

(** Idempotence where it holds: on a collection that has the target field
    (well-formed or not, names unique in any letter case, target name other
    than [Id]), after one successful call a second call with the same
    parameters changes nothing in the catalog, whatever the faults of the
    services during the second call, which need not be those of the first:
    the schema and the computed values are those of the first call. *)
Theorem second_call_changes_nothing {Geom : Type}
    (measure : GeometryProperty -> string -> Geom -> QArith_base.Q)
    (faults1 faults2 : Call -> option Exn) path campo p s
    (w w1 w2 : World) r2 fc :
  catalog w !! path = Some fc ->
  NoDup (lname <$> fc_fields fc) ->
  has_field campo (fc_fields fc) = true ->
  same_name campo "Id" = false ->
  st_trans_sup_ha measure faults1 path campo p s w = (Ok true, w1) ->
  st_trans_sup_ha measure faults2 path campo p s w1 = (r2, w2) ->
  catalog w2 = catalog w1.
Proof.
  intros Hp Hnd Hhas Hid H1 H2.
  destruct (first_call_settles measure faults1 path campo p s w w1 fc
              Hp Hnd Hhas Hid H1) as (fc1 & g & Hp1 & Hfind & Hwf & Hval).
  exact (call_on_settled_collection measure faults2 path campo p s w1 w2 r2
           fc1 g Hp1 Hfind Hwf Hval H2).
Qed.

(** ** Worked examples *)

Lemma run_pair {A B} (x : A * B) (a : A) : x.1 = a -> x = (a, x.2).
Proof. destruct x. simpl. congruence. Defined.

(** The not-found theorem at a location that the example world lacks. *)
Lemma not_found_witness :
  let w := example_world (absent_collection 25000%Z 40000%Z) in
  (no_faults (call_Exists otra) = None ->
   exists w',
     st_trans_sup_ha area_model no_faults otra "Sup_ha" 8 2 w = (Ok false, w')
     /\ catalog w' = catalog w
     /\ env_of w' = env_of w
     /\ stdout w' = stdout w
     /\ stderr w'
        = stderr w ++ ["Error: El archivo no existe en la ruta especificada: "
                       +:+ path_str otra])
  /\ (forall e, no_faults (call_Exists otra) = Some e ->
                st_trans_sup_ha area_model no_faults otra "Sup_ha" 8 2 w
                = (Raise e, w)).
Proof.
  intros w.
  apply (not_found_fails_without_mutation area_model no_faults otra "Sup_ha"
           8 2 w).
  vm_compute. reflexivity.
Defined.

(** The fast path on the well-formed example; the areas of 25678 and of
    40000 square metres are kept as 2.57 and 4.00 hectares. *)
Lemma fast_path_witness :
  let fc := well_formed_collection 25678%Z 40000%Z in
  let w := example_world fc in
  let field_obj := attribute_field "Sup_ha" ft_Double 8 2 0 in
  (exists w' fc',
     st_trans_sup_ha area_model no_faults predios "Sup_ha" 8 2 w = (Ok true, w')
     /\ catalog w' = <[predios := fc']> (catalog w)
     /\ fc_fields fc' = fc_fields fc
     /\ fc_shapeType fc' = fc_shapeType fc
     /\ fc_spatialReference fc' = fc_spatialReference fc
     /\ Forall2
          (fun r r' =>
             SHAPE r' = SHAPE r
             /\ attrs r' !! field_name field_obj
                = Some (stored_number field_obj
                          (area_hectares area_model (fc_spatialReference fc)
                                         (SHAPE r)))
             /\ forall k, k ≠ field_name field_obj ->
                          attrs r' !! k = attrs r !! k)
          (fc_rows fc) (fc_rows fc'))
  /\ (fun r => stored_number field_obj
                 (area_hectares area_model (fc_spatialReference fc) (SHAPE r)))
       <$> fc_rows fc
     = [VDouble (QArith_base.Qmake 257 100);
        VDouble (QArith_base.Qmake 400 100)].
Proof.
  intros fc w field_obj. split; [|vm_compute; reflexivity].
  apply (fast_path_recalculates_in_place area_model no_faults predios "Sup_ha"
           8 2 w fc field_obj);
    vm_compute; reflexivity.
Defined.


(** The [Id] theorem on the malformed example, whose schema has the field
    [Id] that ArcGIS gives every new shapefile. *)
Lemma slow_path_drops_Id_witness :
  let fc := malformed_collection 25000%Z 40000%Z in
  let w := example_world fc in
  let w' := (st_trans_sup_ha area_model no_faults predios "Sup_ha" 8 2 w).2 in
  exists fc',
    catalog w' !! predios = Some fc'
    /\ (forall g, g ∈ fc_fields fc' -> field_name g ≠ "Id")
    /\ (forall r, r ∈ fc_rows fc' -> attrs r !! "Id" = None)
    /\ (forall f, f ∈ fc_fields fc -> field_name f = "Id" ->
                  is_managed f = false -> same_name "Id" "Sup_ha" = false ->
                  "Id" ∈ copy_names "Sup_ha" 8 2 (fc_fields fc)
                  /\ f ∉ fc_fields fc').
Proof.
  intros fc w w'. subst w'.
  apply (slow_path_drops_Id area_model no_faults predios "Sup_ha" 8 2 w _ fc).
  - vm_compute. reflexivity.
  - vm_compute. reflexivity.
  - apply run_pair. vm_compute. reflexivity.
Defined.


(** The schema theorem on the malformed example. *)
Lemma malformed_field_witness :
  let fc := malformed_collection 25000%Z 40000%Z in
  let w := example_world fc in
  let w' := (st_trans_sup_ha area_model no_faults predios "Sup_ha" 8 2 w).2 in
  let field_obj := attribute_field "SUP_HA" ft_String 0 0 20 in
  exists fc' pre post,
    catalog w' !! predios = Some fc'
    /\ fc_fields fc = pre ++ field_obj :: post
    /\ fc_fields fc'
       = FID_field :: Shape_field ::
         List.filter survives pre
         ++ target_field "Sup_ha" 8 2 :: List.filter survives post
    /\ well_formed (target_field "Sup_ha" 8 2) 8 2 = true
    /\ length (fc_rows fc') = length (fc_rows fc).
Proof.
  intros fc w w' field_obj. subst w'.
  apply (malformed_field_is_rebuilt_in_order area_model no_faults predios
           "Sup_ha" 8 2 w _ fc field_obj).
  - vm_compute. reflexivity.
  - apply (bool_decide_unpack _). vm_compute. exact I.
  - vm_compute. reflexivity.
  - vm_compute. reflexivity.
  - vm_compute. reflexivity.
  - apply run_pair. vm_compute. reflexivity.
Defined.

(** C1: the migration loses the attribute field [Id], which it means to
    keep.  On the malformed example, a shapefile as ArcGIS creates it, whose
    schema is FID, Shape, Id, Nombre, SUP_HA, Obs with the target field in
    fifth place, the loop of lines 76 to 82 asks for the field [Id] like for
    any other field and lines 93 to 99 copy its values; then line 113
    deletes it.  The call succeeds and leaves the schema FID, Shape, Nombre,
    Sup_ha, Obs: the attribute field [Id] is gone and the target field is
    in fourth place, the fifth being [Obs].  And when the target name is
    [Id] itself, a malformed field of the same example, the call succeeds
    and leaves no target field at all. *)
Lemma Id_is_lost_and_target_moves :
  let fc := malformed_collection 25000%Z 40000%Z in
  let w := example_world fc in
  let run := st_trans_sup_ha area_model no_faults predios "Sup_ha" 8 2 w in
  let run_Id := st_trans_sup_ha area_model no_faults predios "Id" 8 2 w in
  (run.1 = Ok true
   /\ wf_schema (fc_fields fc)
   /\ List.find (fun f => same_name (field_name f) "Sup_ha") (fc_fields fc)
      = Some (attribute_field "SUP_HA" ft_String 0 0 20)
   /\ well_formed (attribute_field "SUP_HA" ft_String 0 0 20) 8 2 = false
   /\ fc_fields fc !! 4%nat = Some (attribute_field "SUP_HA" ft_String 0 0 20)
   /\ Id_field ∈ fc_fields fc
   /\ "Id" ∈ copy_names "Sup_ha" 8 2 (fc_fields fc)
   /\ exists fc',
        catalog run.2 !! predios = Some fc'
        /\ field_name <$> fc_fields fc'
           = ["FID"; "Shape"; "Nombre"; "Sup_ha"; "Obs"]
        /\ fc_fields fc' !! 4%nat
           = Some (attribute_field "Obs" ft_String 0 0 20)
        /\ fc_fields fc' !! 3%nat = Some (target_field "Sup_ha" 8 2)
        /\ Id_field ∉ fc_fields fc')
  /\ (run_Id.1 = Ok true
      /\ List.find (fun f => same_name (field_name f) "Id") (fc_fields fc)
         = Some Id_field
      /\ well_formed Id_field 8 2 = false
      /\ exists fc',
           catalog run_Id.2 !! predios = Some fc'
           /\ field_name <$> fc_fields fc'
              = ["FID"; "Shape"; "Nombre"; "SUP_HA"; "Obs"]
           /\ has_field "Id" (fc_fields fc') = false).
Proof.
  intros fc w run run_Id. split.
  - split; [vm_compute; reflexivity|].
    split; [apply (bool_decide_unpack _); vm_compute; exact I|].
    split; [vm_compute; reflexivity|].
    split; [vm_compute; reflexivity|].
    split; [vm_compute; reflexivity|].
    split; [apply (bool_decide_unpack _); vm_compute; exact I|].
    split; [apply (bool_decide_unpack _); vm_compute; exact I|].
    eexists. split; [vm_compute; reflexivity|].
    split; [vm_compute; reflexivity|].
    split; [vm_compute; reflexivity|].
    split; [vm_compute; reflexivity|].
    apply (bool_decide_unpack _). vm_compute. exact I.
  - split; [vm_compute; reflexivity|].
    split; [vm_compute; reflexivity|].
    split; [vm_compute; reflexivity|].
    eexists. split; [vm_compute; reflexivity|].
    split; vm_compute; reflexivity.
Qed.


(** C2 on the example without an area field: the call succeeds and the
    schema gains the field [Sup_ha] at its end, but with the default
    definition that [CalculateGeometryAttributes] gives a field it adds
    (precision 0, scale 0), not with the requested precision 8 and scale 2:
    the loop of the script itself adds no target field to the temporary
    schema. *)
Lemma absent_field_gets_default_definition :
  let fc := absent_collection 25000%Z 40000%Z in
  let run :=
    st_trans_sup_ha area_model no_faults predios "Sup_ha" 8 2 (example_world fc)
  in
  let added :=
    new_field "Sup_ha" ft_Double None None None None None None None in
  run.1 = Ok true
  /\ has_field "Sup_ha" (fc_fields fc) = false
  /\ temp_schema "Sup_ha" 8 2 (fc_fields fc)
     = [FID_field; Shape_field; Id_field;
        attribute_field "Nombre" ft_String 0 0 50]
  /\ exists fc',
       catalog run.2 !! predios = Some fc'
       /\ fc_fields fc'
          = [FID_field; Shape_field;
             attribute_field "Nombre" ft_String 0 0 50; added]
       /\ field_precision added = 0%Z
       /\ field_scale added = 0%Z
       /\ target_field "Sup_ha" 8 2 ∉ fc_fields fc'.
Proof.
  intros fc run added.
  split; [vm_compute; reflexivity|].
  split; [vm_compute; reflexivity|].
  split; [vm_compute; reflexivity|].
  eexists. split; [vm_compute; reflexivity|].
  split; [vm_compute; reflexivity|].
  split; [reflexivity|]. split; [reflexivity|].
  apply (bool_decide_unpack _). vm_compute. exact I.
Qed.

(** C7 on the example without an area field: the first call leaves the field
    [Sup_ha] with the default definition, and the second call, which finds
    it malformed, rebuilds it with precision 8 and scale 2: two calls do not
    end in the schema that one call ends in. *)
Lemma second_call_redefines_absent_field :
  let w := example_world (absent_collection 25000%Z 40000%Z) in
  let once := st_trans_sup_ha area_model no_faults predios "Sup_ha" 8 2 w in
  let twice :=
    st_trans_sup_ha area_model no_faults predios "Sup_ha" 8 2 once.2 in
  let added :=
    new_field "Sup_ha" ft_Double None None None None None None None in
  once.1 = Ok true
  /\ twice.1 = Ok true
  /\ fc_fields <$> catalog once.2 !! predios
     = Some [FID_field; Shape_field;
             attribute_field "Nombre" ft_String 0 0 50; added]
  /\ fc_fields <$> catalog twice.2 !! predios
     = Some [FID_field; Shape_field;
             attribute_field "Nombre" ft_String 0 0 50;
             target_field "Sup_ha" 8 2]
  /\ added ≠ target_field "Sup_ha" 8 2.
Proof.
  intros w once twice added.
  split; [vm_compute; reflexivity|].
  split; [vm_compute; reflexivity|].
  split; [vm_compute; reflexivity|].
  split; [vm_compute; reflexivity|].
  discriminate.
Qed.

(** The idempotence theorem on the malformed example: the first call, in
    which no service fails, rebuilds the collection; the second, in which
    [Describe] fails, changes nothing. *)
Lemma second_call_witness :
  let fc := malformed_collection 25000%Z 40000%Z in
  let w := example_world fc in
  let w1 := (st_trans_sup_ha area_model no_faults predios "Sup_ha" 8 2 w).2 in
  let w2 :=
    (st_trans_sup_ha area_model describe_fails predios "Sup_ha" 8 2 w1).2 in
  catalog w2 = catalog w1.
Proof.
  intros fc w w1 w2. subst w2 w1.
  eapply (second_call_changes_nothing area_model no_faults describe_fails
            predios "Sup_ha" 8 2 w _ _ _ fc).
  - vm_compute. reflexivity.
  - apply (bool_decide_unpack _). vm_compute. exact I.
  - vm_compute. reflexivity.
  - vm_compute. reflexivity.
  - apply run_pair. vm_compute. reflexivity.
  - apply surjective_pairing.
Defined.

(** The missing-field theorem on the example without an area field. *)
Lemma missing_field_witness :
  let fc := absent_collection 25000%Z 40000%Z in
  let w := example_world fc in
  let w' := (st_trans_sup_ha area_model no_faults predios "Sup_ha" 8 2 w).2 in
  exists fc',
    catalog w' !! predios = Some fc'
    /\ temp_schema "Sup_ha" 8 2 (fc_fields fc)
       = implicit_fields ++ List.filter survives (fc_fields fc)
    /\ fc_fields fc'
       = FID_field :: Shape_field :: List.filter survives (fc_fields fc)
         ++ [new_field "Sup_ha" ft_Double None None None None None None None]
    /\ length (fc_rows fc') = length (fc_rows fc).
Proof.
  intros fc w w'. subst w'.
  apply (missing_field_is_added_with_default_definition area_model no_faults
           predios "Sup_ha" 8 2 w _ fc).
  - vm_compute. reflexivity.
  - apply (bool_decide_unpack _). vm_compute. exact I.
  - vm_compute. reflexivity.
  - vm_compute. reflexivity.
  - apply run_pair. vm_compute. reflexivity.
Defined.

(** The frame theorem on the malformed example, in the run whose copy-back
    fails. *)
Lemma other_collections_witness :
  let fc := malformed_collection 25000%Z 40000%Z in
  let w := example_world fc in
  let run := st_trans_sup_ha area_model copy_back_fails predios "Sup_ha" 8 2 w in
  let temp := unique_name (catalog w) "temp_output.shp" (env_scratchFolder w) in
  catalog w !! temp = None
  /\ dirname temp = env_scratchFolder w
  /\ (forall q, q ≠ predios -> q ≠ temp -> catalog run.2 !! q = catalog w !! q)
  /\ (forall q fc0, q ≠ predios -> catalog w !! q = Some fc0 ->
                    catalog run.2 !! q = Some fc0)
  /\ (run.1 = Ok true -> catalog run.2 !! temp = None).
Proof.
  intros fc w run temp.
  apply (other_collections_are_untouched area_model copy_back_fails predios
           "Sup_ha" 8 2 w run.2 run.1).
  apply surjective_pairing.
Defined.

(** The diagnostics theorem in the run whose copy-back fails. *)
Lemma failure_is_reported_witness :
  let w := example_world (malformed_collection 25000%Z 40000%Z) in
  let run := st_trans_sup_ha area_model copy_back_fails predios "Sup_ha" 8 2 w in
  (run.1 = Ok true /\ stderr run.2 = stderr w)
  \/ (run.1 = Ok false
      /\ exists diagnostic,
           diagnostic ≠ [] /\ stderr run.2 = stderr w ++ diagnostic)
  \/ (exists e,
        copy_back_fails (call_Exists predios) = Some e
        /\ run.1 = Raise e /\ run.2 = w).
Proof.
  intros w run.
  apply (failure_is_reported_on_stderr area_model copy_back_fails predios
           "Sup_ha" 8 2 w run.2 run.1).
  apply surjective_pairing.
Defined.

(** The environment theorem on the well-formed example. *)
Lemma environment_witness :
  let fc := well_formed_collection 25000%Z 40000%Z in
  let w := example_world fc in
  let run := st_trans_sup_ha area_model no_faults predios "Sup_ha" 8 2 w in
  (exists e,
     no_faults (call_Exists predios) = Some e /\ run.1 = Raise e /\ run.2 = w)
  \/ (no_faults (call_Exists predios) = None
      /\ env_overwriteOutput run.2 = true
      /\ env_scratchFolder run.2 = env_scratchFolder w
      /\ (env_outputCoordinateSystem run.2 = Some (fc_spatialReference fc)
          \/ (is_Some (no_faults (call_Describe predios))
              /\ run.1 = Ok false
              /\ env_outputCoordinateSystem run.2
                 = env_outputCoordinateSystem w))).
Proof.
  intros fc w run.
  apply (environment_is_left_changed area_model no_faults predios "Sup_ha" 8 2
           w run.2 run.1 fc).
  - vm_compute. reflexivity.
  - apply surjective_pairing.
Defined.

(** The copy theorem on the malformed example: [Nombre] and [Obs] survive. *)
Lemma surviving_attributes_witness :
  let fc := malformed_collection 25000%Z 40000%Z in
  let w := example_world fc in
  let w' := (st_trans_sup_ha area_model no_faults predios "Sup_ha" 8 2 w).2 in
  exists fc',
    catalog w' !! predios = Some fc'
    /\ (forall f, f ∈ fc_fields fc -> survives f = true ->
                  same_name (field_name f) "Sup_ha" = false ->
                  f ∈ fc_fields fc')
    /\ Forall2
         (fun r r' =>
            SHAPE r' = SHAPE r
            /\ forall f, f ∈ fc_fields fc -> survives f = true ->
                 same_name (field_name f) "Sup_ha" = false ->
                 get_value r' (field_name f) = get_value r (field_name f))
         (fc_rows fc) (fc_rows fc').
Proof.
  intros fc w w'. subst w'.
  apply (surviving_attributes_keep_their_values area_model no_faults predios
           "Sup_ha" 8 2 w _ fc).
  - vm_compute. reflexivity.
  - apply (bool_decide_unpack _). vm_compute. exact I.
  - vm_compute. reflexivity.
  - vm_compute. reflexivity.
  - apply run_pair. vm_compute. reflexivity.
Defined.

(** The geometry-type theorem on the malformed example. *)
Lemma rebuilt_collection_witness :
  let fc := malformed_collection 25000%Z 40000%Z in
  let w := example_world fc in
  let w' := (st_trans_sup_ha area_model no_faults predios "Sup_ha" 8 2 w).2 in
  exists fc', catalog w' !! predios = Some fc' /\ fc_shapeType fc' = "POLYGON".
Proof.
  intros fc w w'. subst w'.
  apply (rebuilt_collection_is_polygon area_model no_faults predios "Sup_ha"
           8 2 w _ fc).
  - vm_compute. reflexivity.
  - vm_compute. reflexivity.
  - apply run_pair. vm_compute. reflexivity.
Defined.

(** The invariant theorem on the malformed example. *)
Lemma schema_invariant_witness :
  let fc := malformed_collection 25000%Z 40000%Z in
  let w := example_world fc in
  let w' := (st_trans_sup_ha area_model no_faults predios "Sup_ha" 8 2 w).2 in
  exists fc',
    catalog w' !! predios = Some fc'
    /\ (wf_schema (fc_fields fc) -> wf_schema (fc_fields fc'))
    /\ (takes_slow_path "Sup_ha" 8 2 (fc_fields fc) ->
        wf_schema (fc_fields fc')).
Proof.
  intros fc w w'. subst w'.
  apply (schema_invariant_is_kept area_model no_faults predios "Sup_ha" 8 2
           w _ fc).
  - vm_compute. reflexivity.
  - apply run_pair. vm_compute. reflexivity.
Defined.

(** The success theorem on the malformed example. *)
Lemma call_succeeds_witness :
  let fc := malformed_collection 25000%Z 40000%Z in
  let w := example_world fc in
  exists w',
    st_trans_sup_ha area_model no_faults predios "Sup_ha" 8 2 w = (Ok true, w').
Proof.
  intros fc w.
  apply (call_succeeds_without_faults area_model no_faults predios "Sup_ha"
           8 2 w fc).
  - vm_compute. reflexivity.
  - vm_compute. reflexivity.
  - intros c. reflexivity.
Defined.

(** The theorem on the target name [Id], on the malformed example with the
    target name spelled [ID]. *)
Lemma target_named_Id_witness :
  let fc := malformed_collection 25000%Z 40000%Z in
  let w := example_world fc in
  let w' := (st_trans_sup_ha area_model no_faults predios "ID" 8 2 w).2 in
  exists fc',
    catalog w' !! predios = Some fc'
    /\ has_field "ID" (fc_fields fc') = false
    /\ forall r, r ∈ fc_rows fc' -> attrs r !! "Id" = None.
Proof.
  intros fc w w'. subst w'.
  apply (target_named_Id_is_lost area_model no_faults predios "ID" 8 2 w _ fc).
  - vm_compute. reflexivity.
  - vm_compute. reflexivity.
  - vm_compute. reflexivity.
  - apply run_pair. vm_compute. reflexivity.
Defined.

(** The two-call theorem on the example without an area field. *)
Lemma second_call_definition_witness :
  let fc := absent_collection 25000%Z 40000%Z in
  let w := example_world fc in
  let w1 := (st_trans_sup_ha area_model no_faults predios "Sup_ha" 8 2 w).2 in
  let w2 := (st_trans_sup_ha area_model no_faults predios "Sup_ha" 8 2 w1).2 in
  exists fc2,
    catalog w2 !! predios = Some fc2
    /\ fc_fields fc2
       = FID_field :: Shape_field :: List.filter survives (fc_fields fc)
         ++ [target_field "Sup_ha" 8 2]
    /\ length (fc_rows fc2) = length (fc_rows fc).
Proof.
  intros fc w w1 w2. subst w2 w1.
  eapply (second_call_gives_requested_definition area_model no_faults predios
            "Sup_ha" 8 2 w _ _ fc).
  - vm_compute. reflexivity.
  - apply (bool_decide_unpack _). vm_compute. exact I.
  - vm_compute. reflexivity.
  - vm_compute. reflexivity.
  - apply run_pair. vm_compute. reflexivity.
  - apply run_pair. vm_compute. reflexivity.
Defined.

(** The leftover theorem on the malformed example, in the run whose
    copy-back fails. *)
Lemma failed_migration_witness :
  let fc := malformed_collection 25000%Z 40000%Z in
  let w := example_world fc in
  let w' :=
    (st_trans_sup_ha area_model copy_back_fails predios "Sup_ha" 8 2 w).2 in
  let temp :=
    unique_name (catalog w) "temp_output.shp" (env_scratchFolder w) in
  catalog w !! temp = None /\ is_Some (catalog w' !! temp).
Proof.
  intros fc w w' temp. subst w' temp.
  apply (failed_migration_leaves_temporary_collection area_model
           copy_back_fails predios "Sup_ha" 8 2 w _ fc).
  - vm_compute. reflexivity.
  - vm_compute. reflexivity.
  - reflexivity.
  - reflexivity.
  - reflexivity.
  - reflexivity.
  - apply run_pair. vm_compute. reflexivity.
Defined.

(** C4, as stated, fails for a numeric field that is not a Double.  On the
    example whose target field is a Single with the requested precision 8
    and scale 2, the test of lines 44 to 46 refuses the field, the call
    takes the slow path and succeeds, and the schema is not left as it was:
    the target field is now a Double and the field [Id] is gone. *)
Lemma single_precision_field_is_rebuilt :
  let fc := single_collection 25000%Z 40000%Z in
  let w := example_world fc in
  let field_obj := attribute_field "Sup_ha" ft_Single 8 2 0 in
  let run := st_trans_sup_ha area_model no_faults predios "Sup_ha" 8 2 w in
  List.find (fun f => same_name (field_name f) "Sup_ha") (fc_fields fc)
  = Some field_obj
  /\ field_type field_obj = ft_Single
  /\ field_precision field_obj = 8%Z
  /\ field_scale field_obj = 2%Z
  /\ well_formed field_obj 8 2 = false
  /\ run.1 = Ok true
  /\ exists fc',
       catalog run.2 !! predios = Some fc'
       /\ fc_fields fc'
          = [FID_field; Shape_field;
             attribute_field "Nombre" ft_String 0 0 50;
             target_field "Sup_ha" 8 2]
       /\ field_type (target_field "Sup_ha" 8 2) = ft_Double
       /\ fc_fields fc' ≠ fc_fields fc
       /\ length (fc_fields fc') ≠ length (fc_fields fc).
Proof.
  intros fc w field_obj run.
  split; [vm_compute; reflexivity|].
  split; [reflexivity|]. split; [reflexivity|]. split; [reflexivity|].
  split; [vm_compute; reflexivity|].
  split; [vm_compute; reflexivity|].
  eexists. split; [vm_compute; reflexivity|].
  split; [vm_compute; reflexivity|].
  split; [reflexivity|].
  split; [discriminate|]. simpl. discriminate.
Qed.


(** C6, as stated, fails when the existence check of line 21 fails: the
    check is called before the [try], so on the well-formed example, an
    existing collection, its exception is not converted into a boolean: the
    call ends in that exception, and nothing has been written. *)
Lemma existence_check_failure_escapes :
  let w := example_world (well_formed_collection 25000%Z 40000%Z) in
  let run := st_trans_sup_ha area_model exists_fails predios "Sup_ha" 8 2 w in
  is_Some (catalog w !! predios)
  /\ exists_fails (call_Exists predios)
     = Some (PyException "RuntimeError: no licence")
  /\ run.1 = Raise (PyException "RuntimeError: no licence")
  /\ (forall b : bool, run.1 ≠ Ok b)
  /\ stderr run.2 = stderr w.
Proof.
  intros w run.
  split; [vm_compute; eauto|]. split; [reflexivity|].
  split; [vm_compute; reflexivity|].
  split; [intros b; vm_compute; discriminate|].
  vm_compute. reflexivity.
Qed.

